(** * Sentence segmentation of streamed text (package util)

    A shallow embedding of the sentence splitter of the voice server: the
    punctuation tables and classifiers, [IsNumberWithDot],
    [ExtractCompleteSentences], [isNumberPrefix], [trimSpaceRunes],
    [findLastPunctuation], [findNextSplitPoint], [ExtractSmartSentences] and
    [ContainsSentenceSeparator], followed by properties of the code and by
    the properties the specification states about them.  The device
    detection helper of the web front end is embedded as well.

    Conventions of the embedding.
    - A rune is its code point, a [Z].  A Go string is represented by the
      rune sequence that [[]rune(s)] yields; [string(runes)] is the inverse.
    - A Go [int] is a 64-bit two's complement integer: [wrap64] is written
      where the source adds or multiplies caller-supplied values.  Loop
      counters that are guarded by a slice length are not wrapped.
    - A run-time panic (index or slice out of range, negative [Grow]) is the
      result [Panic].  Loops carry an iteration budget; [OutOfFuel] is the
      result of a loop whose budget ran out.
    - The scratch buffer that [ExtractSmartSentences] asks for has a size
      the caller chooses ([maxLen * 2] bytes).  Whether the runtime provides
      it is a parameter, [alloc], of the code that asks; a refusal is the
      result [Panic].  Allocations in proportion to the text are taken to
      succeed. *)

From Stdlib Require Import String Ascii ZArith List Bool Lia.
Import ListNotations.
Open Scope Z_scope.

(** ** Results of fallible code *)

Inductive result (A : Type) : Type :=
| Ok (a : A)
| Panic
| OutOfFuel.

Arguments Ok {A} a.
Arguments Panic {A}.
Arguments OutOfFuel {A}.

Definition bind {A B : Type} (m : result A) (k : A -> result B) : result B :=
  match m with
  | Ok a => k a
  | Panic => Panic
  | OutOfFuel => OutOfFuel
  end.

Notation "x <- m ;; k" := (bind m (fun x => k))
  (at level 61, m at next level, right associativity).

(** ** Runes, texts, machine integers *)

Abbreviation rune := Z (only parsing).
Definition Text := list rune.

Definition len {A : Type} (s : list A) : Z := Z.of_nat (length s).

Definition wrap64 (z : Z) : Z := (z + 2 ^ 63) mod 2 ^ 64 - 2 ^ 63.
Definition add64 (a b : Z) : Z := wrap64 (a + b).
Definition mul64 (a b : Z) : Z := wrap64 (a * b).
Definition maxInt64 : Z := 2 ^ 63 - 1.

(** [text[i]]: panics outside [0 <= i < len(text)]. *)
Definition index (text : Text) (i : Z) : result rune :=
  if i <? 0 then Panic
  else match nth_error text (Z.to_nat i) with
       | Some r => Ok r
       | None => Panic
       end.

(** [text[lo:hi]]: panics unless [0 <= lo <= hi <= len(text)]. *)
Definition slice (text : Text) (lo hi : Z) : result Text :=
  if (0 <=? lo) && (lo <=? hi) && (hi <=? len text)
  then Ok (firstn (Z.to_nat (hi - lo)) (skipn (Z.to_nat lo) text))
  else Panic.

(** The code points the source names. *)
Definition r_tab : rune := 9.
Definition r_nl : rune := 10.
Definition r_space : rune := 32.
Definition r_bang : rune := 33.
Definition r_comma : rune := 44.
Definition r_dot : rune := 46.
Definition r_0 : rune := 48.
Definition r_9 : rune := 57.
Definition r_colon : rune := 58.
Definition r_semi : rune := 59.
Definition r_quest : rune := 63.
Definition r_fw_dot : rune := 12290.    (* U+3002 *)
Definition r_fw_bang : rune := 65281.   (* U+FF01 *)
Definition r_fw_comma : rune := 65292.  (* U+FF0C *)
Definition r_fw_colon : rune := 65306.  (* U+FF1A *)
Definition r_fw_semi : rune := 65307.   (* U+FF1B *)
Definition r_fw_quest : rune := 65311.  (* U+FF1F *)

(** ASCII literals as texts, for examples. *)
Fixpoint str (s : string) : Text :=
  match s with
  | EmptyString => []
  | String c s' => Z.of_N (N_of_ascii c) :: str s'
  end.

(** ** Punctuation tables *)

Definition runeMap := list (rune * bool).

(** [m[r]] on a [map[rune]bool]: [false] for an absent key. *)
Fixpoint mapGet (m : runeMap) (r : rune) : bool :=
  match m with
  | [] => false
  | (k, v) :: m' => if k =? r then v else mapGet m' r
  end.

Definition punctuationMap : runeMap :=
  [ (r_fw_dot, true); (r_fw_quest, true); (r_fw_bang, true);
    (r_fw_semi, true); (r_fw_colon, true); (r_nl, true);
    (r_dot, true); (r_quest, true); (r_bang, true);
    (r_semi, true); (r_colon, true) ].

Definition firstPunctuation : runeMap :=
  [ (r_fw_comma, true); (r_comma, true);
    (r_fw_dot, true); (r_fw_quest, true); (r_fw_bang, true);
    (r_fw_semi, true); (r_fw_colon, true); (r_nl, true);
    (r_dot, true); (r_quest, true); (r_bang, true);
    (r_semi, true); (r_colon, true) ].

Definition sentenceEndPunctuation : list rune :=
  [ r_dot; r_fw_dot; r_bang; r_fw_bang; r_quest; r_fw_quest; r_nl ].

Definition sentencePausePunctuation : list rune :=
  [ r_comma; r_fw_comma; r_semi; r_fw_semi; r_colon; r_fw_colon ].

(** [for _, p := range ps { if r == p { return true } }; return false] *)
Fixpoint rangeEq (r : rune) (ps : list rune) : bool :=
  match ps with
  | [] => false
  | p :: ps' => if r =? p then true else rangeEq r ps'
  end.

Definition IsSentenceEndPunctuation (r : rune) : bool :=
  rangeEq r sentenceEndPunctuation.

Definition IsSentencePausePunctuation (r : rune) : bool :=
  rangeEq r sentencePausePunctuation.

(** ** Go library functions the source calls *)

(** [unicode.IsSpace]: the Latin-1 spaces and the White_Space code points. *)
Definition unicode_IsSpace (r : rune) : bool :=
  ((9 <=? r) && (r <=? 13)) || (r =? 32) || (r =? 133) || (r =? 160)
  || (r =? 5760) || ((8192 <=? r) && (r <=? 8202))
  || (r =? 8232) || (r =? 8233) || (r =? 8239) || (r =? 8287) || (r =? 12288).

Fixpoint dropWhile {A : Type} (p : A -> bool) (l : list A) : list A :=
  match l with
  | [] => []
  | x :: l' => if p x then dropWhile p l' else l
  end.

Fixpoint takeWhile {A : Type} (p : A -> bool) (l : list A) : list A :=
  match l with
  | [] => []
  | x :: l' => if p x then x :: takeWhile p l' else []
  end.

(** [strings.TrimSpace]: leading and trailing white space removed. *)
Definition strings_TrimSpace (s : Text) : Text :=
  rev (dropWhile unicode_IsSpace (rev (dropWhile unicode_IsSpace s))).

(** UTF-8 encoding of one rune, as [string(r)] produces it: code points that
    are not valid scalar values are encoded as U+FFFD. *)
Definition utf8_rune (r : rune) : list Z :=
  if (r <? 0) || (1114111 <? r) || ((55296 <=? r) && (r <=? 57343))
  then [239; 191; 189]
  else if r <? 128 then [r]
  else if r <? 2048 then [192 + r / 64; 128 + r mod 64]
  else if r <? 65536 then [224 + r / 4096; 128 + (r / 64) mod 64; 128 + r mod 64]
  else [240 + r / 262144; 128 + (r / 4096) mod 64; 128 + (r / 64) mod 64;
        128 + r mod 64].

(** The bytes of a string. *)
Definition utf8 (s : Text) : list Z := flat_map utf8_rune s.

(** [unicode.IsDigit] on [rune(b)] for a byte [b]: in Latin-1 the decimal
    digits are '0'..'9'. *)
Definition unicode_IsDigit_latin1 (b : Z) : bool := (r_0 <=? b) && (b <=? r_9).

(** [strings.Builder.Grow(n)]: panics on a negative count; a count of zero
    needs no room; for a positive count [alloc n] tells whether the builder
    has room for [n] more bytes or the runtime provides it.  When it does
    not, the call does not return (the runtime panics with a length out of
    range, or stops the program for lack of memory): the result is
    [Panic]. *)
Definition builder_Grow (alloc : Z -> bool) (n : Z) : result unit :=
  if n <? 0 then Panic
  else if (n =? 0) || alloc n then Ok tt
  else Panic.

(** A runtime that provides every buffer, for the examples. *)
Definition roomy : Z -> bool := fun _ => true.

(** A runtime that provides no buffer beyond [2 ^ 48] bytes, the size of
    the heap address space of the 64-bit Go runtime. *)
Definition boundedHeap : Z -> bool := fun n => n <=? 2 ^ 48.

(** ** IsNumberWithDot *)

(** [for i := 0; i < len(trimmed)-1; i++ { if !unicode.IsDigit(rune(trimmed[i])) { return false } }] *)
Fixpoint allDigitBytes (fuel : nat) (trimmed : list Z) (i : Z) : result bool :=
  match fuel with
  | O => OutOfFuel
  | S fuel' =>
      if i <? len trimmed - 1 then
        b <- index trimmed i ;;
        if negb (unicode_IsDigit_latin1 b) then Ok false
        else allDigitBytes fuel' trimmed (i + 1)
      else Ok true
  end.

Definition IsNumberWithDot (s : Text) : result bool :=
  let trimmed := utf8 (strings_TrimSpace s) in
  if len trimmed <? 2 then Ok false
  else
    last <- index trimmed (len trimmed - 1) ;;
    if negb (last =? r_dot) then Ok false
    else allDigitBytes (S (length trimmed)) trimmed 0.

(** ** ExtractCompleteSentences *)

Definition isEmpty {A : Type} (s : list A) : bool :=
  match s with [] => true | _ => false end.

(** The [range runes] loop: [i] is the index of the head of [runes]. *)
Fixpoint completeLoop (runes : Text) (i lastIndex : Z)
    (sentences : list Text) (currentSentence : Text) : list Text * Text :=
  match runes with
  | [] => (sentences, currentSentence)
  | r :: rest =>
      let currentSentence := currentSentence ++ [r] in
      if IsSentenceEndPunctuation r then
        let sentence := strings_TrimSpace currentSentence in
        let sentences :=
          if negb (isEmpty sentence) then sentences ++ [sentence] else sentences in
        completeLoop rest (i + 1) lastIndex sentences []
      else if i =? lastIndex then (sentences, currentSentence)
      else completeLoop rest (i + 1) lastIndex sentences currentSentence
  end.

Definition ExtractCompleteSentences (text : Text) : list Text * Text :=
  if isEmpty text then ([], [])
  else
    let lastIndex := len text - 1 in
    let '(sentences, currentSentence) := completeLoop text 0 lastIndex [] [] in
    (sentences, strings_TrimSpace currentSentence).

(** ** isNumberPrefix *)

Definition isBlank (r : rune) : bool := (r =? r_space) || (r =? r_tab).
Definition isAsciiDigit (r : rune) : bool := (r_0 <=? r) && (r <=? r_9).
Definition isTrimSpace (r : rune) : bool :=
  (r =? r_space) || (r =? r_tab) || (r =? r_nl).

(** [for start >= 0 && (text[start] == ' ' || text[start] == '\t') { start-- }] *)
Fixpoint skipBlanksBack (fuel : nat) (text : Text) (start : Z) : result Z :=
  match fuel with
  | O => OutOfFuel
  | S fuel' =>
      if 0 <=? start then
        r <- index text start ;;
        if isBlank r then skipBlanksBack fuel' text (start - 1) else Ok start
      else Ok start
  end.

(** The digit-counting loop; [None] is its early [return false]. *)
Fixpoint countDigitsBack (fuel : nat) (text : Text) (start digitCount : Z)
    (foundDigit : bool) : result (option (Z * bool)) :=
  match fuel with
  | O => OutOfFuel
  | S fuel' =>
      if 0 <=? start then
        r <- index text start ;;
        if isAsciiDigit r then
          let digitCount := digitCount + 1 in
          if 3 <? digitCount then Ok None
          else countDigitsBack fuel' text (start - 1) digitCount true
        else Ok (Some (start, foundDigit))
      else Ok (Some (start, foundDigit))
  end.

Definition isNumberPrefix (text : Text) (pos : Z) : result bool :=
  if pos <=? 0 then Ok false
  else
    r <- index text pos ;;
    if negb (r =? r_dot) then Ok false
    else
      let fuel := S (length text) in
      start <- skipBlanksBack fuel text (pos - 1) ;;
      st <- countDigitsBack fuel text start 0 false ;;
      match st with
      | None => Ok false
      | Some (start, foundDigit) =>
          if 0 <=? start then
            r <- index text start ;;
            if negb (r =? r_space) && negb (r =? r_tab) && negb (r =? r_nl)
            then Ok false
            else Ok foundDigit
          else Ok foundDigit
      end.

(** ** trimSpaceRunes *)

(** [for start <= end && isTrimSpace(text[start]) { start++ }] *)
Fixpoint trimScanLeft (fuel : nat) (text : Text) (start end_ : Z) : result Z :=
  match fuel with
  | O => OutOfFuel
  | S fuel' =>
      if start <=? end_ then
        r <- index text start ;;
        if isTrimSpace r then trimScanLeft fuel' text (start + 1) end_
        else Ok start
      else Ok start
  end.

(** [for end >= start && isTrimSpace(text[end]) { end-- }] *)
Fixpoint trimScanRight (fuel : nat) (text : Text) (start end_ : Z) : result Z :=
  match fuel with
  | O => OutOfFuel
  | S fuel' =>
      if start <=? end_ then
        r <- index text end_ ;;
        if isTrimSpace r then trimScanRight fuel' text start (end_ - 1)
        else Ok end_
      else Ok end_
  end.

Definition trimSpaceRunes (text : Text) : result Text :=
  let fuel := S (length text) in
  start <- trimScanLeft fuel text 0 (len text - 1) ;;
  end_ <- trimScanRight fuel text start (len text - 1) ;;
  if end_ <? start then Ok []
  else slice text start (end_ + 1).

(** ** findLastPunctuation *)

(** [for i := len(text) - 1; i >= 0; i-- { ... }] *)
Fixpoint lastPunctLoop (fuel : nat) (text : Text) (separatorMap : runeMap)
    (i : Z) : result Z :=
  match fuel with
  | O => OutOfFuel
  | S fuel' =>
      if 0 <=? i then
        r <- index text i ;;
        if mapGet separatorMap r then
          ordinal <- (if r =? r_dot then isNumberPrefix text i else Ok false) ;;
          if ordinal then lastPunctLoop fuel' text separatorMap (i - 1)
          else Ok i
        else lastPunctLoop fuel' text separatorMap (i - 1)
      else Ok (-1)
  end.

Definition findLastPunctuation (text : Text) (separatorMap : runeMap) : result Z :=
  lastPunctLoop (S (length text)) text separatorMap (len text - 1).

(** ** findNextSplitPoint *)

(** [for nextPos < endPos && (text[nextPos] == ' ' || text[nextPos] == '\t') { nextPos++ }] *)
Fixpoint skipBlanksFwd (fuel : nat) (text : Text) (endPos nextPos : Z) : result Z :=
  match fuel with
  | O => OutOfFuel
  | S fuel' =>
      if nextPos <? endPos then
        r <- index text nextPos ;;
        if isBlank r then skipBlanksFwd fuel' text endPos (nextPos + 1)
        else Ok nextPos
      else Ok nextPos
  end.

(** The scan of the window [startPos, endPos); [None] when it ends without a
    split point. *)
Fixpoint windowScan (fuel : nat) (text : Text) (endPos : Z)
    (separatorMap : runeMap) (i : Z) : result (option Z) :=
  match fuel with
  | O => OutOfFuel
  | S fuel' =>
      if i <? endPos then
        r <- index text i ;;
        if r =? r_nl then
          nextPos <- skipBlanksFwd (S (length text)) text endPos (i + 1) ;;
          isList <- (if nextPos <? endPos - 2
                     then d <- index text nextPos ;; Ok (isAsciiDigit d)
                     else Ok false) ;;
          if isList then Ok (Some i)
          else windowScan fuel' text endPos separatorMap (i + 1)
        else if mapGet separatorMap r then Ok (Some i)
        else windowScan fuel' text endPos separatorMap (i + 1)
      else Ok None
  end.

(** [for i := endPos; i < len(text); i++ { ... }; return -1] *)
Fixpoint tailScan (fuel : nat) (text : Text) (separatorMap : runeMap)
    (i : Z) : result Z :=
  match fuel with
  | O => OutOfFuel
  | S fuel' =>
      if i <? len text then
        r <- index text i ;;
        if (r =? r_nl) || mapGet separatorMap r then Ok i
        else tailScan fuel' text separatorMap (i + 1)
      else Ok (-1)
  end.

Definition findNextSplitPoint (text : Text) (startPos maxLen : Z)
    (separatorMap : runeMap) : result Z :=
  let fuel := S (length text) in
  let endPos := add64 startPos maxLen in
  let endPos := if len text <? endPos then len text else endPos in
  found <- windowScan fuel text endPos separatorMap startPos ;;
  match found with
  | Some i => Ok i
  | None =>
      if endPos <? len text then tailScan fuel text separatorMap endPos
      else Ok (-1)
  end.

(** ** ExtractSmartSentences *)

(** [for startPos < len(runes) && isTrimSpace(runes[startPos]) { startPos++ }] *)
Fixpoint skipSpaceFwd (fuel : nat) (text : Text) (startPos : Z) : result Z :=
  match fuel with
  | O => OutOfFuel
  | S fuel' =>
      if startPos <? len text then
        r <- index text startPos ;;
        if isTrimSpace r then skipSpaceFwd fuel' text (startPos + 1)
        else Ok startPos
      else Ok startPos
  end.

(** [len(segment) >= minLen && separatorMap[segment[len(segment)-1]]] *)
Definition acceptable (segment : Text) (minLen : Z) (separatorMap : runeMap)
    : result bool :=
  if minLen <=? len segment then
    r <- index segment (len segment - 1) ;;
    Ok (mapGet separatorMap r)
  else Ok false.

(** The rejected branch: the segment is appended to [remaining], after a
    single space when [remaining] is not empty. *)
Definition deferSegment (remaining segment : Text) : Text :=
  if 0 <? len segment then
    (if 0 <? len remaining then remaining ++ [r_space] else remaining) ++ segment
  else remaining.

(** The main loop, [for startPos < len(currentRunes) { ... }]. *)
Fixpoint smartLoop (fuel : nat) (currentRunes : Text) (minLen maxLen : Z)
    (separatorMap : runeMap) (startPos : Z) (sentences : list Text)
    (remaining : Text) : result (list Text * Text) :=
  match fuel with
  | O => OutOfFuel
  | S fuel' =>
      if startPos <? len currentRunes then
        startPos <- skipSpaceFwd (S (length currentRunes)) currentRunes startPos ;;
        if len currentRunes <=? startPos then Ok (sentences, remaining)
        else
          splitPos <- findNextSplitPoint currentRunes startPos maxLen separatorMap ;;
          if splitPos =? -1 then
            rest <- slice currentRunes startPos (len currentRunes) ;;
            segment <- trimSpaceRunes rest ;;
            Ok (sentences, if 0 <? len segment then segment else remaining)
          else
            candidate <- slice currentRunes startPos (splitPos + 1) ;;
            segment <- trimSpaceRunes candidate ;;
            ok <- acceptable segment minLen separatorMap ;;
            if ok then
              smartLoop fuel' currentRunes minLen maxLen separatorMap
                (splitPos + 1) (sentences ++ [segment]) remaining
            else
              smartLoop fuel' currentRunes minLen maxLen separatorMap
                (splitPos + 1) sentences (deferSegment remaining segment)
      else Ok (sentences, remaining)
  end.

Definition selectSeparators (isFirst : bool) : runeMap :=
  if isFirst then firstPunctuation else punctuationMap.

(** The capacity estimate of [sentences] and the pooled scratch slice have
    no effect on the result; of the pooled builder only [Grow] can fail. *)
Definition ExtractSmartSentences (alloc : Z -> bool) (text : Text)
    (minLen maxLen : Z) (isFirst : bool) : result (list Text * Text) :=
  let separatorMap := selectSeparators isFirst in
  _ <- builder_Grow alloc (mul64 maxLen 2) ;;
  smartLoop (S (length text)) text minLen maxLen separatorMap 0 [] [].

(** ** ContainsSentenceSeparator *)

Fixpoint ContainsSentenceSeparator (s : Text) (isFirst : bool) : bool :=
  match s with
  | [] => false
  | r :: s' =>
      if isFirst then
        if mapGet firstPunctuation r then true
        else ContainsSentenceSeparator s' isFirst
      else
        if mapGet punctuationMap r then true
        else ContainsSentenceSeparator s' isFirst
  end.

(** ** Pure counterparts used in the statements *)

(** [text[i]] when the index is in range. *)
Definition get (text : Text) (i : Z) : rune := nth (Z.to_nat i) text 0.

(** [text[lo:hi]] when the bounds are in range. *)
Definition sub (text : Text) (lo hi : Z) : Text :=
  firstn (Z.to_nat (hi - lo)) (skipn (Z.to_nat lo) text).

(** What [trimSpaceRunes] computes, on lists. *)
Definition trimList (t : Text) : Text :=
  rev (dropWhile isTrimSpace (rev (dropWhile isTrimSpace t))).

(** The first position in [lo, lo + n) that satisfies [P]. *)
Fixpoint firstFrom (P : Z -> bool) (n : nat) (lo : Z) : option Z :=
  match n with
  | O => None
  | S n' => if P lo then Some lo else firstFrom P n' (lo + 1)
  end.

(** Where the blank-skipping loop after a newline at [i] stops. *)
Definition afterBlanks (text : Text) (endPos i : Z) : Z :=
  i + 1 + len (takeWhile isBlank (sub text (i + 1) endPos)).

(** The newline at [i] is followed, after blanks, by a digit that lies at
    least three positions before the end [endPos] of the window. *)
Definition forcedNewline (text : Text) (endPos i : Z) : bool :=
  let nextPos := afterBlanks text endPos i in
  (nextPos <? endPos - 2) && isAsciiDigit (get text nextPos).

(** Position [i] is a split point of the window that ends at [endPos]. *)
Definition windowSplit (sep : runeMap) (text : Text) (endPos i : Z) : bool :=
  if get text i =? r_nl then forcedNewline text endPos i
  else mapGet sep (get text i).

(** Position [i] is a boundary for the scan past the window. *)
Definition tailSplit (sep : runeMap) (text : Text) (i : Z) : bool :=
  (get text i =? r_nl) || mapGet sep (get text i).

Definition windowEnd (text : Text) (startPos maxLen : Z) : Z :=
  Z.min (startPos + maxLen) (len text).

(** The split point that [findNextSplitPoint] finds, if any, when
    [startPos + maxLen] does not overflow. *)
Definition nextSplitOpt (text : Text) (startPos maxLen : Z) (sep : runeMap)
    : option Z :=
  let endPos := windowEnd text startPos maxLen in
  match firstFrom (windowSplit sep text endPos)
                  (Z.to_nat (endPos - startPos)) startPos with
  | Some i => Some i
  | None => firstFrom (tailSplit sep text) (Z.to_nat (len text - endPos)) endPos
  end.

Definition nextSplit (text : Text) (startPos maxLen : Z) (sep : runeMap) : Z :=
  match nextSplitOpt text startPos maxLen sep with
  | Some i => i
  | None => -1
  end.

(** Where the whitespace-skipping loop at the head of an iteration stops. *)
Definition skipWs (text : Text) (s : Z) : Z :=
  s + len (takeWhile isTrimSpace (sub text s (len text))).

(** The acceptance test on a non-empty segment. *)
Definition accepts (segment : Text) (minLen : Z) (sep : runeMap) : bool :=
  (minLen <=? len segment) && mapGet sep (get segment (len segment - 1)).

(** One iteration of the main loop, started at [s < len text]: the text is
    exhausted, or it has no further split point and [seg] is its trimmed
    tail, or the candidate [seg] ends at the split point before [next]. *)
Inductive step : Type :=
| Done
| Tail (seg : Text)
| Seg (seg : Text) (next : Z).

Definition smartStep (text : Text) (maxLen : Z) (sep : runeMap) (s : Z) : step :=
  let s' := skipWs text s in
  if len text <=? s' then Done
  else
    let r := nextSplit text s' maxLen sep in
    if r =? -1 then Tail (trimList (sub text s' (len text)))
    else Seg (trimList (sub text s' (r + 1))) (r + 1).

(** The content of a text: what is left when the runes in [ws] are removed. *)
Definition content (ws : rune -> bool) (t : Text) : Text :=
  filter (fun r => negb (ws r)) t.

(** The eager mode as the specification words it: walk the text with an
    accumulator; at a sentence-end rune emit the trimmed accumulator when it
    is not empty and reset it; what is accumulated at the end is the
    remainder. *)
Fixpoint eagerWalk (acc : Text) (text : Text) : list Text * Text :=
  match text with
  | [] => ([], acc)
  | r :: rest =>
      if IsSentenceEndPunctuation r then
        let segment := strings_TrimSpace (acc ++ [r]) in
        let '(sentences, remainder) := eagerWalk [] rest in
        (if isEmpty segment then sentences else segment :: sentences, remainder)
      else eagerWalk (acc ++ [r]) rest
  end.


(** Replays the main loop from [s] and tells whether the order of the text
    is kept: once a candidate has been rejected ([deferred]), no sentence is
    accepted any more and no unterminated tail is taken. *)
Fixpoint keepsOrder (fuel : nat) (text : Text) (minLen maxLen : Z)
    (sep : runeMap) (s : Z) (deferred : bool) : bool :=
  match fuel with
  | O => true
  | S fuel' =>
      if s <? len text then
        match smartStep text maxLen sep s with
        | Done => true
        | Tail _ => negb deferred
        | Seg seg next =>
            if accepts seg minLen sep
            then negb deferred && keepsOrder fuel' text minLen maxLen sep next false
            else keepsOrder fuel' text minLen maxLen sep next true
        end
      else true
  end.

(** The main loop as a relation between its state at the head of an
    iteration (cursor, sentences, remainder) and its result. *)
Inductive runs (minLen maxLen : Z) (sep : runeMap) (text : Text)
  : Z -> list Text -> Text -> list Text * Text -> Prop :=
| runs_end s ss rem :
    len text <= s ->
    runs minLen maxLen sep text s ss rem (ss, rem)
| runs_done s ss rem :
    s < len text -> smartStep text maxLen sep s = Done ->
    runs minLen maxLen sep text s ss rem (ss, rem)
| runs_tail s ss rem seg :
    s < len text -> smartStep text maxLen sep s = Tail seg ->
    runs minLen maxLen sep text s ss rem
      (ss, if 0 <? len seg then seg else rem)
| runs_accept s ss rem seg next out :
    s < len text -> smartStep text maxLen sep s = Seg seg next ->
    accepts seg minLen sep = true ->
    runs minLen maxLen sep text next (ss ++ [seg]) rem out ->
    runs minLen maxLen sep text s ss rem out
| runs_reject s ss rem seg next out :
    s < len text -> smartStep text maxLen sep s = Seg seg next ->
    accepts seg minLen sep = false ->
    runs minLen maxLen sep text next ss (deferSegment rem seg) out ->
    runs minLen maxLen sep text s ss rem out.

(** A step seen from a text that has [d] more runes in front. *)
Definition shiftStep (d : Z) (st : step) : step :=
  match st with
  | Seg seg next => Seg seg (d + next)
  | _ => st
  end.

(** A clause: no white space at either end, no newline, and the last rune
    is its only separator. *)
Definition clause (sep : runeMap) (r : Text) : Prop :=
  r <> []
  /\ isTrimSpace (get r 0) = false
  /\ (forall j, 0 <= j < len r -> get r j <> r_nl)
  /\ (forall j, 0 <= j < len r - 1 -> mapGet sep (get r j) = false)
  /\ mapGet sep (get r (len r - 1)) = true.

(** A remainder made of rejected clauses only. *)
Inductive joined (minLen : Z) (sep : runeMap) : Text -> Prop :=
| joined_nil : joined minLen sep []
| joined_defer rem r :
    joined minLen sep rem -> clause sep r -> accepts r minLen sep = false ->
    joined minLen sep (deferSegment rem r).

Definition noNewline (t : Text) : bool := forallb (fun r => negb (r =? r_nl)) t.

(** The text does not end in a space, a tab or a newline. *)
Definition endsClean (t : Text) : bool :=
  match rev t with
  | [] => true
  | r :: _ => negb (isTrimSpace r)
  end.

(** Modelled from the spec: the caller that receives the text in chunks
    (upstream producer): each chunk is appended to the remainder of the
    previous call and the result is extracted again, with the same
    parameters.  The result is the sentences of all calls, in order, and the
    last remainder. *)
Fixpoint feedChunks (alloc : Z -> bool) (minLen maxLen : Z) (isFirst : bool)
    (remaining : Text) (chunks : list Text) : result (list Text * Text) :=
  match chunks with
  | [] => Ok ([], remaining)
  | chunk :: rest =>
      out <- ExtractSmartSentences alloc (remaining ++ chunk) minLen maxLen
               isFirst ;;
      more <- feedChunks alloc minLen maxLen isFirst (snd out) rest ;;
      Ok (fst out ++ fst more, snd more)
  end.

(** Every chunk but the last has no newline and does not end in a space or
    a tab. *)
Fixpoint cleanCuts (chunks : list Text) : bool :=
  match chunks with
  | [] => true
  | chunk :: rest =>
      match rest with
      | [] => true
      | _ => noNewline chunk && endsClean chunk && cleanCuts rest
      end
  end.

(** What is known of the remainder [rem] once the text [P] has been fed
    chunk by chunk and the sentences [ssP] have been emitted: for whatever
    text [Y] follows, the run over the whole emits [ssP] and then what the
    run over [rem ++ Y] emits. *)
Definition fedSoFar (minLen maxLen : Z) (sep : runeMap) (P rem : Text)
    (ssP : list Text) : Prop :=
  noNewline rem = true /\ endsClean rem = true /\ len rem <= 2 * len P
  /\ forall Y outT out2,
       runs minLen maxLen sep (P ++ Y) 0 [] [] outT ->
       runs minLen maxLen sep (rem ++ Y) 0 [] [] out2 ->
       fst outT = ssP ++ fst out2 /\ len (snd out2) <= len (snd outT).

(** The period at [pos] is an ordinal marker: before it, after [blanks]
    spaces or tabs, stand one to three digits, and the digits start the text
    or follow a space, a tab or a newline. *)
Definition ordinalPeriod (text : Text) (pos : Z) : Prop :=
  get text pos = r_dot
  /\ exists blanks digits,
       0 <= blanks /\ 1 <= digits <= 3 /\ 0 <= pos - blanks - digits
       /\ (forall j, pos - blanks <= j < pos -> isBlank (get text j) = true)
       /\ (forall j, pos - blanks - digits <= j < pos - blanks ->
                     isAsciiDigit (get text j) = true)
       /\ (0 < pos - blanks - digits ->
           isTrimSpace (get text (pos - blanks - digits - 1)) = true).

(** [isNumberPrefix] says that [pos] is an ordinal period. *)
Definition isOrdinalAt (text : Text) (pos : Z) : bool :=
  match isNumberPrefix text pos with
  | Ok true => true
  | _ => false
  end.

(** A boundary for the backward scan: a separator that is not an ordinal
    period. *)
Definition backwardBoundary (sep : runeMap) (text : Text) (j : Z) : bool :=
  mapGet sep (get text j) && negb ((get text j =? r_dot) && isOrdinalAt text j).

(** The split points of the scan after ordinal-period filtering: a
    separator counts when it is not an ordinal period. *)
Definition filteredWindowSplit (sep : runeMap) (text : Text) (endPos i : Z)
    : bool :=
  if get text i =? r_nl then forcedNewline text endPos i
  else backwardBoundary sep text i.

Definition filteredTailSplit (sep : runeMap) (text : Text) (i : Z) : bool :=
  (get text i =? r_nl) || backwardBoundary sep text i.

(** [r] is the result of a scan from [startPos] in which [window] tells
    the split points of the window, from [startPos] to [endPos], and [tail]
    the boundaries of the rest of the text: the first split point of the
    window; failing that, the first boundary at or after [endPos]; failing
    that, -1. *)
Definition firstSplitPoint (window tail : Z -> bool)
    (startPos endPos textLen r : Z) : Prop :=
  (startPos <= r < endPos
   /\ window r = true
   /\ (forall j, startPos <= j < r -> window j = false))
  \/ (endPos <= r < textLen
      /\ (forall j, startPos <= j < endPos -> window j = false)
      /\ tail r = true
      /\ (forall j, endPos <= j < r -> tail j = false))
  \/ (r = -1
      /\ (forall j, startPos <= j < endPos -> window j = false)
      /\ (forall j, endPos <= j < textLen -> tail j = false)).


(** ** Definitions for the further properties *)

(** [t] is empty or has no rune of [ws] at either end. *)
Definition trimmedEnds (ws : rune -> bool) (t : Text) : bool :=
  isEmpty t || (negb (ws (get t 0)) && negb (ws (get t (len t - 1)))).

(** No rune of [t] is sentence-end punctuation. *)
Definition noTerminal (t : Text) : bool :=
  forallb (fun r => negb (IsSentenceEndPunctuation r)) t.

(** The sentences are pieces [text[lo:hi]] of the text, not empty, that
    follow one another from [s] on without overlap. *)
Inductive slicesOf (text : Text) : Z -> list Text -> Prop :=
| slices_nil s : slicesOf text s []
| slices_cons s lo hi ss :
    s <= lo -> lo < hi -> hi <= len text -> slicesOf text hi ss ->
    slicesOf text s (sub text lo hi :: ss).

(** The text is empty, or its last rune is sentence-end punctuation or is
    not white space. *)
Definition endsTight (t : Text) : bool :=
  match rev t with
  | [] => true
  | r :: _ => IsSentenceEndPunctuation r || negb (unicode_IsSpace r)
  end.

(** No rune of [t] is a comma, ASCII or full-width. *)
Definition noComma (t : Text) : bool :=
  forallb (fun r => negb ((r =? r_comma) || (r =? r_fw_comma))) t.

(** Plain prose: no newline; no strict separator other than sentence-end
    punctuation (no semicolon, no colon); no white space other than the
    space and the tab. *)
Definition plainProse (t : Text) : bool :=
  forallb (fun r => negb (r =? r_nl)
                    && negb (mapGet punctuationMap r
                             && negb (IsSentenceEndPunctuation r))
                    && negb (unicode_IsSpace r && negb (isTrimSpace r))) t.

(** The text is empty or ends in a separator that is not a newline. *)
Definition endsInSeparator (sep : runeMap) (t : Text) : bool :=
  match rev t with
  | [] => true
  | r :: _ => mapGet sep r && negb (r =? r_nl)
  end.

(** * Device detection (the browser helper)

    A JS string is its sequence of UTF-16 code units.  The browser state the
    helpers read is a record: [navigator.userAgent] and [navigator.vendor]
    are strings, [window.innerWidth] is an integer, and [opera] is the
    string that [window.opera] converts to when the regular expression is
    applied to it ("undefined" when the property is absent). *)

Definition jsString := list Z.

Record Browser : Type := {
  userAgent : jsString;
  vendor : jsString;
  opera : jsString;
  innerWidth : Z
}.

(** Case folding of an ignore-case regular expression (no [u] flag)
    against an ASCII pattern character: an ASCII letter folds to its upper
    case; a code unit above 127 never folds to an ASCII one. *)
Definition foldCase (c : Z) : Z :=
  if (97 <=? c) && (c <=? 122) then c - 32 else c.

(** The literal [word] matches at the head of [s], ignoring case. *)
Fixpoint matchesHere (word s : jsString) : bool :=
  match word, s with
  | [], _ => true
  | _ :: _, [] => false
  | p :: word', c :: s' => (foldCase c =? foldCase p) && matchesHere word' s'
  end.

(** The literal [word] matches somewhere in [s], ignoring case. *)
Fixpoint matchesIn (word s : jsString) : bool :=
  matchesHere word s
  || match s with
     | [] => false
     | _ :: s' => matchesIn word s'
     end.

(** [/w1|w2|.../i.test(s)] for literal alternatives. *)
Definition regexTest (alternatives : list jsString) (s : jsString) : bool :=
  existsb (fun word => matchesIn word s) alternatives.

(** [/Android|webOS|iPhone|iPad|iPod|BlackBerry|IEMobile|Opera Mini/i] *)
Definition mobileRegex : list jsString :=
  [ str "Android"; str "webOS"; str "iPhone"; str "iPad"; str "iPod";
    str "BlackBerry"; str "IEMobile"; str "Opera Mini" ].

(** [/iPad|Android/i] *)
Definition tabletRegex : list jsString := [ str "iPad"; str "Android" ].

(** [navigator.userAgent || navigator.vendor || window.opera]: a string is
    falsy when it is empty. *)
Definition agentString (b : Browser) : jsString :=
  if negb (isEmpty (userAgent b)) then userAgent b
  else if negb (isEmpty (vendor b)) then vendor b
  else opera b.

Definition isMobile (b : Browser) : bool :=
  let isMobileUA := regexTest mobileRegex (agentString b) in
  let isMobileWidth := innerWidth b <? 768 in
  isMobileUA || isMobileWidth.

Definition isTablet (b : Browser) : bool :=
  regexTest tabletRegex (agentString b)
  && (768 <=? innerWidth b) && (innerWidth b <? 1024).

Definition isDesktop (b : Browser) : bool :=
  negb (isMobile b) && negb (isTablet b).

Definition getDeviceType (b : Browser) : string :=
  if isMobile b then "mobile"%string
  else if isTablet b then "tablet"%string
  else "desktop"%string.

(** * Properties *)

(** ** Lists, indices and slices *)

Lemma len_nonneg {A} (s : list A) : 0 <= len s.
Proof. unfold len; lia. Qed.

Lemma len_nil {A} : len (@nil A) = 0.
Proof. reflexivity. Qed.

Lemma len_cons {A} (x : A) s : len (x :: s) = 1 + len s.
Proof. unfold len; simpl length; lia. Qed.

Lemma len_app {A} (s t : list A) : len (s ++ t) = len s + len t.
Proof. unfold len; rewrite length_app; lia. Qed.

Lemma len_zero_nil {A} (s : list A) : len s = 0 -> s = [].
Proof. destruct s; [reflexivity | rewrite len_cons; pose proof (len_nonneg s); lia]. Qed.

Lemma index_get text i : 0 <= i < len text -> index text i = Ok (get text i).
Proof.
  intros H. unfold index, get.
  destruct (Z.ltb_spec i 0); [lia|].
  destruct (nth_error text (Z.to_nat i)) eqn:E.
  - now rewrite (nth_error_nth _ _ _ E).
  - apply nth_error_None in E. unfold len in H. lia.
Qed.

Lemma index_panic text i : i < 0 \/ len text <= i -> index text i = Panic.
Proof.
  intros H. unfold index.
  destruct (Z.ltb_spec i 0); [reflexivity|].
  destruct (nth_error text (Z.to_nat i)) eqn:E; [|reflexivity].
  assert (nth_error text (Z.to_nat i) <> None) as N by congruence.
  apply nth_error_Some in N. unfold len in H. lia.
Qed.

Lemma slice_sub text lo hi :
  0 <= lo <= hi -> hi <= len text -> slice text lo hi = Ok (sub text lo hi).
Proof.
  intros H1 H2. unfold slice, sub.
  destruct (Z.leb_spec 0 lo); [|lia].
  destruct (Z.leb_spec lo hi); [|lia].
  destruct (Z.leb_spec hi (len text)); [|lia].
  reflexivity.
Qed.

Lemma get_cons_0 r t : get (r :: t) 0 = r.
Proof. reflexivity. Qed.

Lemma get_cons_S r t i : 0 < i -> get (r :: t) i = get t (i - 1).
Proof.
  intros H. unfold get.
  replace (Z.to_nat i) with (S (Z.to_nat (i - 1))) by lia. reflexivity.
Qed.

Lemma get_app_l a b i : 0 <= i < len a -> get (a ++ b) i = get a i.
Proof. intros H. unfold get. apply app_nth1. unfold len in H. lia. Qed.

Lemma get_app_r a b i : len a <= i -> get (a ++ b) i = get b (i - len a).
Proof.
  intros H. unfold get. pose proof (len_nonneg a). unfold len in *.
  rewrite app_nth2 by lia. f_equal. lia.
Qed.

Lemma sub_nil text lo hi : hi <= lo -> sub text lo hi = [].
Proof. intros H. unfold sub. replace (Z.to_nat (hi - lo)) with O by lia. reflexivity. Qed.

Lemma sub_full text : sub text 0 (len text) = text.
Proof.
  unfold sub, len. rewrite Z.sub_0_r, Nat2Z.id. simpl. apply firstn_all.
Qed.

Lemma sub_to_end text lo : 0 <= lo -> sub text lo (len text) = skipn (Z.to_nat lo) text.
Proof.
  intros H. unfold sub. apply firstn_all2. rewrite length_skipn. unfold len. lia.
Qed.

Lemma len_sub text lo hi : 0 <= lo <= hi -> hi <= len text -> len (sub text lo hi) = hi - lo.
Proof.
  intros H1 H2. unfold sub, len in *. rewrite length_firstn, length_skipn. lia.
Qed.

Lemma firstn_plus {A} (m n : nat) (l : list A) :
  firstn (m + n) l = firstn m l ++ firstn n (skipn m l).
Proof.
  revert l. induction m as [|m IH]; intros l; [reflexivity|].
  destruct l as [|x l]; simpl.
  - now rewrite firstn_nil.
  - now rewrite IH.
Qed.

Lemma sub_split text a b c :
  0 <= a <= b -> b <= c -> sub text a c = sub text a b ++ sub text b c.
Proof.
  intros H1 H2. unfold sub.
  replace (Z.to_nat (c - a)) with (Z.to_nat (b - a) + Z.to_nat (c - b))%nat by lia.
  rewrite firstn_plus. f_equal. rewrite skipn_skipn.
  replace (Z.to_nat (b - a) + Z.to_nat a)%nat with (Z.to_nat b) by lia.
  reflexivity.
Qed.

Lemma get_sub text lo hi k :
  0 <= lo -> 0 <= k < hi - lo -> get (sub text lo hi) k = get text (lo + k).
Proof.
  intros H1 H2. unfold get, sub.
  rewrite nth_firstn.
  destruct (Nat.ltb_spec (Z.to_nat k) (Z.to_nat (hi - lo))); [|lia].
  rewrite nth_skipn. f_equal. lia.
Qed.

Lemma sub_app_l a b lo hi : 0 <= lo -> hi <= len a -> sub (a ++ b) lo hi = sub a lo hi.
Proof.
  intros H1 H2. unfold sub, len in *.
  destruct (Z.le_gt_cases hi lo) as [L|L].
  { replace (Z.to_nat (hi - lo)) with O by lia. reflexivity. }
  rewrite skipn_app, firstn_app.
  replace (Z.to_nat (hi - lo) - length (skipn (Z.to_nat lo) a))%nat with O
    by (rewrite length_skipn; lia).
  simpl. now rewrite app_nil_r.
Qed.

Lemma sub_app_r a b lo hi :
  len a <= lo -> sub (a ++ b) lo hi = sub b (lo - len a) (hi - len a).
Proof.
  intros H. pose proof (len_nonneg a) as Ha. unfold sub, len in *.
  rewrite skipn_app.
  rewrite (skipn_all2 a) by lia. simpl.
  f_equal; [lia|]. f_equal. lia.
Qed.

Lemma sub_cons text i hi :
  0 <= i < hi -> hi <= len text -> sub text i hi = get text i :: sub text (i + 1) hi.
Proof.
  intros H1 H2.
  rewrite (sub_split text i (i + 1) hi) by lia.
  replace (sub text i (i + 1)) with [get text i]; [reflexivity|].
  unfold sub, get. replace (Z.to_nat (i + 1 - i)) with 1%nat by lia.
  assert (Z.to_nat i < length text)%nat as L by (unfold len in H2; lia).
  revert L. generalize (Z.to_nat i) as n. clear.
  induction text as [|x t IH]; intros n L; simpl in L; [lia|].
  destruct n; [reflexivity|]. simpl. apply IH. lia.
Qed.

Lemma sub_snoc text lo e :
  0 <= lo <= e -> e < len text -> sub text lo (e + 1) = sub text lo e ++ [get text e].
Proof.
  intros H1 H2.
  rewrite (sub_split text lo e (e + 1)) by lia.
  f_equal. rewrite sub_cons by lia. now rewrite sub_nil by lia.
Qed.

(** ** takeWhile and dropWhile *)

Section While.
Context {A : Type} (p : A -> bool).

Lemma takeWhile_dropWhile (l : list A) : takeWhile p l ++ dropWhile p l = l.
Proof.
  induction l as [|x l IH]; [reflexivity|]. simpl.
  destruct (p x); simpl; [now rewrite IH | reflexivity].
Qed.

Lemma takeWhile_forallb (l : list A) : forallb p (takeWhile p l) = true.
Proof.
  induction l as [|x l IH]; [reflexivity|]. simpl.
  destruct (p x) eqn:E; simpl; [now rewrite E | reflexivity].
Qed.

Lemma dropWhile_skipn (l : list A) :
  dropWhile p l = skipn (length (takeWhile p l)) l.
Proof.
  induction l as [|x l IH]; [reflexivity|]. simpl.
  destruct (p x); simpl; [exact IH | reflexivity].
Qed.

Lemma takeWhile_length_le (l : list A) : (length (takeWhile p l) <= length l)%nat.
Proof.
  induction l as [|x l IH]; [simpl; lia|]. simpl.
  destruct (p x); simpl; lia.
Qed.

Lemma dropWhile_stop (l : list A) x : p x = false -> dropWhile p (x :: l) = x :: l.
Proof. intros H. simpl. now rewrite H. Qed.

End While.

Lemma len_takeWhile_le {A} (p : A -> bool) l : len (takeWhile p l) <= len l.
Proof. unfold len. pose proof (takeWhile_length_le p l). lia. Qed.

(** The rune that stops a [takeWhile] over a slice. *)
Lemma takeWhile_sub_stop p text lo hi :
  0 <= lo <= hi -> hi <= len text ->
  let k := len (takeWhile p (sub text lo hi)) in
  lo + k <= hi /\ (lo + k < hi -> p (get text (lo + k)) = false).
Proof.
  intros H1 H2 k.
  pose proof (len_takeWhile_le p (sub text lo hi)) as Hk.
  rewrite len_sub in Hk by lia. fold k in Hk.
  pose proof (len_nonneg (takeWhile p (sub text lo hi))) as Hk0. fold k in Hk0.
  split; [lia|]. intros Hlt.
  pose proof (takeWhile_dropWhile p (sub text lo hi)) as E.
  rewrite <- (get_sub text lo hi k) by lia.
  rewrite <- E. rewrite get_app_r by (fold k; lia). fold k. rewrite Z.sub_diag.
  destruct (dropWhile p (sub text lo hi)) as [|x r] eqn:D.
  - exfalso. rewrite app_nil_r in E.
    assert (len (sub text lo hi) = k) by (rewrite <- E at 1; reflexivity).
    rewrite len_sub in H by lia. lia.
  - rewrite get_cons_0.
    clear - D. revert D. induction (sub text lo hi) as [|y l IH]; simpl; [discriminate|].
    destruct (p y) eqn:Ey; [exact IH|]. intros D. inversion D. now subst.
Qed.

Lemma takeWhile_sub_all p text lo hi j :
  0 <= lo -> hi <= len text ->
  lo <= j < lo + len (takeWhile p (sub text lo hi)) -> p (get text j) = true.
Proof.
  intros H1 H2 Hj.
  destruct (Z.le_gt_cases hi lo) as [L|L].
  { rewrite sub_nil in Hj by lia. simpl in Hj. rewrite len_nil in Hj. lia. }
  pose proof (len_takeWhile_le p (sub text lo hi)) as Hk.
  rewrite len_sub in Hk by lia.
  pose proof (takeWhile_forallb p (sub text lo hi)) as F.
  rewrite forallb_forall in F. apply F.
  replace (get text j) with (get (sub text lo hi) (j - lo))
    by (rewrite get_sub by lia; f_equal; lia).
  rewrite <- (takeWhile_dropWhile p (sub text lo hi)) at 1.
  rewrite get_app_l by lia.
  unfold get. apply nth_In. unfold len in Hj. lia.
Qed.

(** ** The scanning loops compute [takeWhile] *)

Ltac fuel_cases fuel IH :=
  induction fuel as [|fuel IH]; [intros; simpl in *; lia | intros; cbn [Nat.add]].

Lemma skipSpaceFwd_spec fuel : forall text s,
  0 <= s <= len text -> (Z.to_nat (len text - s) < fuel)%nat ->
  skipSpaceFwd fuel text s
  = Ok (s + len (takeWhile isTrimSpace (sub text s (len text)))).
Proof.
  fuel_cases fuel IH. simpl.
  destruct (Z.ltb_spec s (len text)).
  - rewrite index_get by lia. simpl.
    rewrite (sub_cons text s) by lia. simpl.
    destruct (isTrimSpace (get text s)).
    + rewrite IH by lia. rewrite len_cons. f_equal. lia.
    + rewrite len_nil. f_equal. lia.
  - rewrite sub_nil by lia. simpl. rewrite len_nil. f_equal. lia.
Qed.

Lemma skipBlanksFwd_spec fuel : forall text endPos n,
  0 <= n <= endPos -> endPos <= len text -> (Z.to_nat (endPos - n) < fuel)%nat ->
  skipBlanksFwd fuel text endPos n
  = Ok (n + len (takeWhile isBlank (sub text n endPos))).
Proof.
  fuel_cases fuel IH. simpl.
  destruct (Z.ltb_spec n endPos).
  - rewrite index_get by lia. simpl.
    rewrite (sub_cons text n) by lia. simpl.
    destruct (isBlank (get text n)).
    + rewrite IH by lia. rewrite len_cons. f_equal. lia.
    + rewrite len_nil. f_equal. lia.
  - rewrite sub_nil by lia. simpl. rewrite len_nil. f_equal. lia.
Qed.

Lemma trimScanLeft_spec fuel : forall text start end_,
  0 <= start <= end_ + 1 -> end_ < len text ->
  (Z.to_nat (end_ + 1 - start) < fuel)%nat ->
  trimScanLeft fuel text start end_
  = Ok (start + len (takeWhile isTrimSpace (sub text start (end_ + 1)))).
Proof.
  fuel_cases fuel IH. simpl.
  destruct (Z.leb_spec start end_).
  - rewrite index_get by lia. simpl.
    rewrite (sub_cons text start) by lia. simpl.
    destruct (isTrimSpace (get text start)).
    + rewrite IH by lia. rewrite len_cons. f_equal. lia.
    + rewrite len_nil. f_equal. lia.
  - rewrite sub_nil by lia. simpl. rewrite len_nil. f_equal. lia.
Qed.

Lemma trimScanRight_spec fuel : forall text start end_,
  0 <= start <= end_ + 1 -> end_ < len text ->
  (Z.to_nat (end_ + 1 - start) < fuel)%nat ->
  trimScanRight fuel text start end_
  = Ok (end_ - len (takeWhile isTrimSpace (rev (sub text start (end_ + 1))))).
Proof.
  fuel_cases fuel IH. simpl.
  destruct (Z.leb_spec start end_).
  - rewrite index_get by lia. simpl.
    rewrite (sub_snoc text start) by lia. rewrite rev_unit. simpl.
    destruct (isTrimSpace (get text end_)).
    + rewrite IH by lia. rewrite len_cons.
      replace (end_ - 1 + 1) with end_ by lia. f_equal. lia.
    + rewrite len_nil. f_equal. lia.
  - rewrite sub_nil by lia. simpl. rewrite len_nil. f_equal. lia.
Qed.

Lemma skipBlanksBack_spec fuel : forall text start,
  -1 <= start < len text -> (Z.to_nat (start + 1) < fuel)%nat ->
  skipBlanksBack fuel text start
  = Ok (start - len (takeWhile isBlank (rev (sub text 0 (start + 1))))).
Proof.
  fuel_cases fuel IH. simpl.
  destruct (Z.leb_spec 0 start).
  - rewrite index_get by lia. simpl.
    rewrite (sub_snoc text 0) by lia. rewrite rev_unit. simpl.
    destruct (isBlank (get text start)).
    + rewrite IH by lia. rewrite len_cons.
      replace (start - 1 + 1) with start by lia. f_equal. lia.
    + rewrite len_nil. f_equal. lia.
  - rewrite sub_nil by lia. simpl. rewrite len_nil. f_equal. lia.
Qed.

(** ** trimSpaceRunes trims *)

Lemma rev_dropWhile_rev {A} (p : A -> bool) (u : list A) :
  rev (dropWhile p (rev u))
  = firstn (length u - length (takeWhile p (rev u))) u.
Proof.
  rewrite dropWhile_skipn, skipn_rev, rev_involutive. reflexivity.
Qed.

Lemma trimSpaceRunes_spec text : trimSpaceRunes text = Ok (trimList text).
Proof.
  unfold trimSpaceRunes, trimList.
  pose proof (len_nonneg text) as L0.
  rewrite trimScanLeft_spec by (unfold len in *; lia).
  cbn [bind]. replace (len text - 1 + 1) with (len text) by lia.
  rewrite sub_full, Z.add_0_l.
  set (a := len (takeWhile isTrimSpace text)).
  assert (0 <= a <= len text) as Ha
    by (split; [apply len_nonneg | apply len_takeWhile_le]).
  rewrite trimScanRight_spec by (unfold len in *; lia).
  cbn [bind]. replace (len text - 1 + 1) with (len text) by lia.
  rewrite (dropWhile_skipn isTrimSpace text), rev_dropWhile_rev.
  rewrite sub_to_end by lia. fold a.
  replace (length (takeWhile isTrimSpace text)) with (Z.to_nat a)
    by (unfold a, len; lia).
  set (u := skipn (Z.to_nat a) text).
  set (b := takeWhile isTrimSpace (rev u)).
  assert (len b <= len text - a) as Hb.
  { unfold b. etransitivity; [apply len_takeWhile_le|].
    unfold len. rewrite length_rev. unfold u. rewrite length_skipn.
    unfold len in Ha. lia. }
  pose proof (len_nonneg b) as Hb0.
  destruct (Z.ltb_spec (len text - 1 - len b) a).
  - f_equal. replace (length u - length b)%nat with O; [reflexivity|].
    unfold u. rewrite length_skipn. unfold len in *. lia.
  - rewrite slice_sub by lia. f_equal. unfold sub. fold u.
    f_equal. unfold u. rewrite length_skipn. unfold len in *. lia.
Qed.

(** ** findNextSplitPoint *)

Lemma wrap64_id z : - 2 ^ 63 <= z <= maxInt64 -> wrap64 z = z.
Proof.
  unfold wrap64, maxInt64. intros H. rewrite Z.mod_small by lia. lia.
Qed.

Lemma firstFrom_Some P n : forall lo k,
  firstFrom P n lo = Some k ->
  lo <= k < lo + Z.of_nat n /\ P k = true /\ (forall j, lo <= j < k -> P j = false).
Proof.
  induction n as [|n IH]; intros lo k H; simpl in H; [discriminate|].
  destruct (P lo) eqn:E.
  - inversion H; subst. repeat split; try lia; auto; intros; lia.
  - apply IH in H. destruct H as (H1 & H2 & H3).
    repeat split; try lia; auto.
    intros j Hj. destruct (Z.eq_dec j lo); [now subst | apply H3; lia].
Qed.

Lemma firstFrom_None P n : forall lo,
  firstFrom P n lo = None -> forall j, lo <= j < lo + Z.of_nat n -> P j = false.
Proof.
  induction n as [|n IH]; intros lo H j Hj; simpl in H; [lia|].
  destruct (P lo) eqn:E; [discriminate|].
  destruct (Z.eq_dec j lo); [now subst | apply (IH _ H); lia].
Qed.

Lemma windowScan_spec sep fuel : forall text endPos i,
  0 <= i <= endPos -> endPos <= len text -> (Z.to_nat (endPos - i) < fuel)%nat ->
  windowScan fuel text endPos sep i
  = Ok (firstFrom (windowSplit sep text endPos) (Z.to_nat (endPos - i)) i).
Proof.
  fuel_cases fuel IH. cbn [windowScan].
  destruct (Z.ltb_spec i endPos).
  - replace (Z.to_nat (endPos - i)) with (S (Z.to_nat (endPos - (i + 1)))) by lia.
    rewrite index_get by lia. cbn [bind firstFrom]. unfold windowSplit at 1.
    destruct (Z.eqb_spec (get text i) r_nl).
    + rewrite skipBlanksFwd_spec by (unfold len in *; lia). cbn [bind].
      unfold forcedNewline, afterBlanks.
      set (np := i + 1 + len (takeWhile isBlank (sub text (i + 1) endPos))).
      destruct (Z.ltb_spec np (endPos - 2)).
      * assert (0 <= np) by (unfold np; pose proof (len_nonneg
          (takeWhile isBlank (sub text (i + 1) endPos))); lia).
        rewrite index_get by lia. cbn [bind andb].
        destruct (isAsciiDigit (get text np)); [reflexivity|].
        apply IH; lia.
      * cbn [bind andb]. apply IH; lia.
    + destruct (mapGet sep (get text i)); [reflexivity|].
      apply IH; lia.
  - replace (Z.to_nat (endPos - i)) with O by lia. reflexivity.
Qed.

Lemma tailScan_spec sep fuel : forall text i,
  0 <= i <= len text -> (Z.to_nat (len text - i) < fuel)%nat ->
  tailScan fuel text sep i
  = Ok (match firstFrom (tailSplit sep text) (Z.to_nat (len text - i)) i with
        | Some k => k
        | None => -1
        end).
Proof.
  fuel_cases fuel IH. simpl.
  destruct (Z.ltb_spec i (len text)).
  - replace (Z.to_nat (len text - i)) with (S (Z.to_nat (len text - (i + 1)))) by lia.
    rewrite index_get by lia. simpl. unfold tailSplit at 1.
    destruct ((get text i =? r_nl) || mapGet sep (get text i)); [reflexivity|].
    apply IH; lia.
  - replace (Z.to_nat (len text - i)) with O by lia. reflexivity.
Qed.

Lemma findNextSplitPoint_spec text startPos maxLen sep :
  0 <= startPos <= len text -> 0 <= maxLen -> startPos + maxLen <= maxInt64 ->
  findNextSplitPoint text startPos maxLen sep
  = Ok (nextSplit text startPos maxLen sep).
Proof.
  intros Hs Hm Ho. unfold findNextSplitPoint, nextSplit, nextSplitOpt, windowEnd, add64.
  rewrite wrap64_id by (unfold maxInt64 in *; lia).
  replace (if len text <? startPos + maxLen then len text else startPos + maxLen)
    with (Z.min (startPos + maxLen) (len text))
    by (destruct (Z.ltb_spec (len text) (startPos + maxLen)); lia).
  set (endPos := Z.min (startPos + maxLen) (len text)).
  rewrite windowScan_spec by (unfold len in *; lia). cbn [bind].
  destruct (firstFrom _ _ startPos); [reflexivity|].
  destruct (Z.ltb_spec endPos (len text)).
  - apply tailScan_spec; unfold len in *; lia.
  - replace (Z.to_nat (len text - endPos)) with O by lia. reflexivity.
Qed.

Lemma nextSplit_range text startPos maxLen sep :
  0 <= startPos <= len text -> 0 <= maxLen ->
  let r := nextSplit text startPos maxLen sep in
  r = -1 \/ startPos <= r < len text.
Proof.
  intros Hs Hm. unfold nextSplit, nextSplitOpt, windowEnd.
  set (endPos := Z.min (startPos + maxLen) (len text)).
  destruct (firstFrom _ _ startPos) eqn:E1.
  - apply firstFrom_Some in E1. right. lia.
  - destruct (firstFrom _ _ endPos) eqn:E2; [|now left].
    apply firstFrom_Some in E2. right. lia.
Qed.

(** ** One iteration of the main loop *)

Lemma skipWs_range text s :
  0 <= s <= len text ->
  s <= skipWs text s <= len text
  /\ (skipWs text s < len text -> isTrimSpace (get text (skipWs text s)) = false).
Proof.
  intros H. unfold skipWs.
  pose proof (takeWhile_sub_stop isTrimSpace text s (len text)) as T.
  cbv zeta in T. specialize (T ltac:(lia) ltac:(lia)).
  pose proof (len_nonneg (takeWhile isTrimSpace (sub text s (len text)))).
  destruct T as [T1 T2]. repeat split; try lia. exact T2.
Qed.

Lemma skipWs_blank text s j :
  0 <= s <= len text -> s <= j < skipWs text s -> isTrimSpace (get text j) = true.
Proof.
  intros H Hj. unfold skipWs in Hj.
  eapply takeWhile_sub_all; [| |exact Hj]; lia.
Qed.

Lemma dropWhile_snoc_stop {A} (p : A -> bool) l x :
  p x = false -> dropWhile p (l ++ [x]) = dropWhile p l ++ [x].
Proof.
  intros Hx. induction l as [|y l IH]; simpl.
  - now rewrite Hx.
  - destruct (p y); [exact IH | reflexivity].
Qed.

Lemma trimList_head x l :
  isTrimSpace x = false -> exists l', trimList (x :: l) = x :: l'.
Proof.
  intros Hx. unfold trimList. rewrite dropWhile_stop by exact Hx.
  simpl rev. rewrite dropWhile_snoc_stop by exact Hx. rewrite rev_unit.
  eexists; reflexivity.
Qed.

Lemma trimList_sub_nonempty text lo hi :
  0 <= lo < hi -> hi <= len text -> isTrimSpace (get text lo) = false ->
  trimList (sub text lo hi) <> [].
Proof.
  intros H1 H2 Hx. rewrite sub_cons by lia.
  destruct (trimList_head _ (sub text (lo + 1) hi) Hx) as [l' E].
  rewrite E. discriminate.
Qed.

Lemma acceptable_spec seg minLen sep :
  seg <> [] -> acceptable seg minLen sep = Ok (accepts seg minLen sep).
Proof.
  intros Hne. unfold acceptable, accepts.
  assert (0 < len seg) as L.
  { destruct seg; [congruence|]. rewrite len_cons. pose proof (len_nonneg seg). lia. }
  destruct (minLen <=? len seg); [|reflexivity].
  rewrite index_get by lia. reflexivity.
Qed.

Lemma smartStep_Seg text maxLen sep s seg next :
  0 <= s <= len text -> 0 <= maxLen ->
  smartStep text maxLen sep s = Seg seg next ->
  let s' := skipWs text s in
  s <= s' < next /\ next <= len text /\ seg <> []
  /\ seg = trimList (sub text s' next)
  /\ next = nextSplit text s' maxLen sep + 1.
Proof.
  intros Hs Hm E s'. unfold smartStep in E. fold s' in E.
  destruct (skipWs_range text s Hs) as [R1 R2]. fold s' in R1, R2.
  destruct (Z.leb_spec (len text) s'); [discriminate|].
  pose proof (nextSplit_range text s' maxLen sep ltac:(lia) Hm) as N. cbv zeta in N.
  destruct (Z.eqb_spec (nextSplit text s' maxLen sep) (-1)); [discriminate|].
  inversion E; subst; clear E.
  destruct N as [N|N]; [lia|].
  repeat split; try lia.
  apply trimList_sub_nonempty; try lia. apply R2; lia.
Qed.

Lemma smartStep_Tail text maxLen sep s seg :
  0 <= s <= len text -> 0 <= maxLen ->
  smartStep text maxLen sep s = Tail seg ->
  let s' := skipWs text s in
  s <= s' < len text /\ seg <> [] /\ seg = trimList (sub text s' (len text))
  /\ nextSplit text s' maxLen sep = -1.
Proof.
  intros Hs Hm E s'. unfold smartStep in E. fold s' in E.
  destruct (skipWs_range text s Hs) as [R1 R2]. fold s' in R1, R2.
  destruct (Z.leb_spec (len text) s'); [discriminate|].
  destruct (Z.eqb_spec (nextSplit text s' maxLen sep) (-1)); [|discriminate].
  inversion E; subst; clear E.
  repeat split; try lia.
  apply trimList_sub_nonempty; try lia. apply R2; lia.
Qed.

Lemma smartStep_Done text maxLen sep s :
  0 <= s <= len text ->
  smartStep text maxLen sep s = Done -> skipWs text s = len text.
Proof.
  intros Hs E. unfold smartStep in E.
  destruct (skipWs_range text s Hs) as [R1 R2].
  destruct (Z.leb_spec (len text) (skipWs text s)); [lia|].
  destruct (nextSplit text (skipWs text s) maxLen sep =? -1); discriminate.
Qed.

(** The loop body, iteration by iteration, when no addition overflows. *)
Lemma smartLoop_unfold fuel text minLen maxLen sep s ss rem :
  0 <= s <= len text -> 0 <= maxLen -> len text + maxLen <= maxInt64 ->
  smartLoop (S fuel) text minLen maxLen sep s ss rem
  = if s <? len text then
      match smartStep text maxLen sep s with
      | Done => Ok (ss, rem)
      | Tail seg => Ok (ss, if 0 <? len seg then seg else rem)
      | Seg seg next =>
          if accepts seg minLen sep
          then smartLoop fuel text minLen maxLen sep next (ss ++ [seg]) rem
          else smartLoop fuel text minLen maxLen sep next ss (deferSegment rem seg)
      end
    else Ok (ss, rem).
Proof.
  intros Hs Hm Ho. cbn [smartLoop].
  destruct (Z.ltb_spec s (len text)); [|reflexivity].
  rewrite skipSpaceFwd_spec by (unfold len in *; lia). cbn [bind].
  fold (skipWs text s).
  destruct (smartStep text maxLen sep s) as [|seg|seg next] eqn:E.
  - apply smartStep_Done in E; [|lia]. rewrite E.
    destruct (Z.leb_spec (len text) (len text)); [reflexivity | lia].
  - destruct (smartStep_Tail _ _ _ _ _ Hs Hm E) as (R & Hne & Hseg & Hn).
    destruct (Z.leb_spec (len text) (skipWs text s)); [lia|].
    rewrite findNextSplitPoint_spec by lia. cbn [bind]. rewrite Hn.
    rewrite Z.eqb_refl. rewrite slice_sub by lia. cbn [bind].
    rewrite trimSpaceRunes_spec. cbn [bind]. now rewrite <- Hseg.
  - destruct (smartStep_Seg _ _ _ _ _ _ Hs Hm E) as (R & Hn & Hne & Hseg & Hnext).
    destruct (Z.leb_spec (len text) (skipWs text s)); [lia|].
    rewrite findNextSplitPoint_spec by lia. cbn [bind].
    destruct (Z.eqb_spec (nextSplit text (skipWs text s) maxLen sep) (-1)); [lia|].
    rewrite <- Hnext.
    rewrite slice_sub by lia. cbn [bind].
    rewrite trimSpaceRunes_spec. cbn [bind]. rewrite <- Hseg.
    rewrite acceptable_spec by exact Hne. cbn [bind]. reflexivity.
Qed.

(** ** Termination of the main loop *)

Section MainLoop.
Variables (text : Text) (minLen maxLen : Z) (sep : runeMap).
Hypothesis maxLen_nonneg : 0 <= maxLen.
Hypothesis no_overflow : len text + maxLen <= maxInt64.

Lemma smartLoop_returns fuel : forall s ss rem,
  0 <= s <= len text -> (Z.to_nat (len text - s) < fuel)%nat ->
  exists out, smartLoop fuel text minLen maxLen sep s ss rem = Ok out.
Proof.
  induction fuel as [|fuel IH]; intros s ss rem Hs Hf; [lia|].
  rewrite smartLoop_unfold by assumption.
  destruct (Z.ltb_spec s (len text)); [|eexists; reflexivity].
  destruct (smartStep text maxLen sep s) as [|seg|seg next] eqn:E;
    try (eexists; reflexivity).
  destruct (smartStep_Seg _ _ _ _ _ _ Hs maxLen_nonneg E) as (R & Hn & _).
  destruct (accepts seg minLen sep); apply IH; lia.
Qed.

Lemma smartLoop_fuel fuel : forall fuel' s ss rem,
  0 <= s <= len text ->
  (Z.to_nat (len text - s) < fuel)%nat -> (Z.to_nat (len text - s) < fuel')%nat ->
  smartLoop fuel text minLen maxLen sep s ss rem
  = smartLoop fuel' text minLen maxLen sep s ss rem.
Proof.
  induction fuel as [|fuel IH]; intros fuel' s ss rem Hs Hf Hf'; [lia|].
  destruct fuel' as [|fuel']; [lia|].
  rewrite !smartLoop_unfold by assumption.
  destruct (Z.ltb_spec s (len text)); [|reflexivity].
  destruct (smartStep text maxLen sep s) as [|seg|seg next] eqn:E;
    try reflexivity.
  destruct (smartStep_Seg _ _ _ _ _ _ Hs maxLen_nonneg E) as (R & Hn & _).
  destruct (accepts seg minLen sep); apply IH; lia.
Qed.
End MainLoop.

Lemma mul64_small maxLen : 0 <= maxLen < 2 ^ 62 -> mul64 maxLen 2 = maxLen * 2.
Proof. intros H. unfold mul64. apply wrap64_id. unfold maxInt64. lia. Qed.

Lemma ExtractSmartSentences_loop alloc text minLen maxLen isFirst :
  0 <= maxLen < 2 ^ 62 -> alloc (maxLen * 2) = true ->
  ExtractSmartSentences alloc text minLen maxLen isFirst
  = smartLoop (S (length text)) text minLen maxLen (selectSeparators isFirst) 0 [] [].
Proof.
  intros H Ha. unfold ExtractSmartSentences, builder_Grow.
  rewrite mul64_small by exact H. rewrite Ha, orb_true_r.
  destruct (Z.ltb_spec (maxLen * 2) 0); [lia | reflexivity].
Qed.

Lemma ExtractSmartSentences_returns alloc text minLen maxLen isFirst :
  0 <= maxLen < 2 ^ 62 -> alloc (maxLen * 2) = true -> len text <= 2 ^ 62 ->
  exists out, ExtractSmartSentences alloc text minLen maxLen isFirst = Ok out.
Proof.
  intros H Ha L. rewrite ExtractSmartSentences_loop by assumption.
  apply smartLoop_returns; unfold maxInt64, len in *; lia.
Qed.

(** ** The other fallible functions return *)

Lemma allDigitBytes_returns fuel : forall trimmed i,
  0 <= i -> (Z.to_nat (len trimmed - 1 - i) < fuel)%nat ->
  exists b, allDigitBytes fuel trimmed i = Ok b.
Proof.
  induction fuel as [|fuel IH]; intros trimmed i Hi Hf; [lia|].
  cbn [allDigitBytes].
  destruct (Z.ltb_spec i (len trimmed - 1)); [|eexists; reflexivity].
  rewrite index_get by lia. cbn [bind].
  destruct (negb (unicode_IsDigit_latin1 (get trimmed i))); [eexists; reflexivity|].
  apply IH; lia.
Qed.

Lemma IsNumberWithDot_returns s : exists b, IsNumberWithDot s = Ok b.
Proof.
  unfold IsNumberWithDot.
  set (trimmed := utf8 (strings_TrimSpace s)).
  destruct (Z.ltb_spec (len trimmed) 2); [eexists; reflexivity|].
  rewrite index_get by lia. cbn [bind].
  destruct (negb (get trimmed (len trimmed - 1) =? r_dot)); [eexists; reflexivity|].
  apply allDigitBytes_returns; unfold len in *; lia.
Qed.

Lemma skipBlanksBack_range text start :
  -1 <= start < len text ->
  exists start', skipBlanksBack (S (length text)) text start = Ok start'
                 /\ -1 <= start' <= start.
Proof.
  intros H. rewrite skipBlanksBack_spec by (unfold len in *; lia).
  eexists; split; [reflexivity|].
  pose proof (len_takeWhile_le isBlank (rev (sub text 0 (start + 1)))) as L.
  pose proof (len_nonneg (takeWhile isBlank (rev (sub text 0 (start + 1))))).
  unfold len at 2 in L. rewrite length_rev in L. fold (len (sub text 0 (start + 1))) in L.
  rewrite len_sub in L by lia. lia.
Qed.

Lemma countDigitsBack_returns fuel : forall text start digitCount foundDigit,
  -1 <= start < len text -> (Z.to_nat (start + 1) < fuel)%nat ->
  exists st, countDigitsBack fuel text start digitCount foundDigit = Ok st
             /\ forall s' fd, st = Some (s', fd) -> -1 <= s' <= start.
Proof.
  induction fuel as [|fuel IH]; intros text start dc fd Hs Hf; [lia|].
  cbn [countDigitsBack].
  destruct (Z.leb_spec 0 start).
  - rewrite index_get by lia. cbn [bind].
    destruct (isAsciiDigit (get text start)).
    + destruct (3 <? dc + 1).
      * eexists; split; [reflexivity|]. intros; discriminate.
      * destruct (IH text (start - 1) (dc + 1) true) as (st & E & B); try lia.
        exists st; split; [exact E|]. intros s' fd' Hst.
        specialize (B _ _ Hst). lia.
    + eexists; split; [reflexivity|]. intros s' fd' Hst. inversion Hst. lia.
  - eexists; split; [reflexivity|]. intros s' fd' Hst. inversion Hst. lia.
Qed.

Lemma isNumberPrefix_returns text pos :
  pos < len text -> exists b, isNumberPrefix text pos = Ok b.
Proof.
  intros H. unfold isNumberPrefix.
  destruct (Z.leb_spec pos 0); [eexists; reflexivity|].
  rewrite index_get by lia. cbn [bind].
  destruct (negb (get text pos =? r_dot)); [eexists; reflexivity|].
  destruct (skipBlanksBack_range text (pos - 1)) as (start & E1 & B1); [lia|].
  rewrite E1. cbn [bind].
  destruct (countDigitsBack_returns (S (length text)) text start 0 false)
    as (st & E2 & B2); [lia | unfold len in *; lia |].
  rewrite E2. cbn [bind].
  destruct st as [[s' fd]|]; [|eexists; reflexivity].
  specialize (B2 _ _ eq_refl).
  destruct (Z.leb_spec 0 s'); [|eexists; reflexivity].
  rewrite index_get by lia. cbn [bind].
  destruct (negb (get text s' =? r_space) && negb (get text s' =? r_tab)
            && negb (get text s' =? r_nl)); eexists; reflexivity.
Qed.

Lemma lastPunctLoop_returns sep fuel : forall text i,
  -1 <= i < len text -> (Z.to_nat (i + 1) < fuel)%nat ->
  exists r, lastPunctLoop fuel text sep i = Ok r /\ -1 <= r <= i.
Proof.
  induction fuel as [|fuel IH]; intros text i Hi Hf; [lia|].
  cbn [lastPunctLoop].
  destruct (Z.leb_spec 0 i); [|exists (-1); split; [reflexivity | lia]].
  rewrite index_get by lia. cbn [bind].
  assert (exists r, lastPunctLoop fuel text sep (i - 1) = Ok r /\ -1 <= r <= i) as Next.
  { destruct (IH text (i - 1)) as (r & E & B); try lia. exists r. split; [exact E | lia]. }
  destruct (mapGet sep (get text i)); [|exact Next].
  destruct (get text i =? r_dot).
  - destruct (isNumberPrefix_returns text i) as (b & E); [lia|].
    rewrite E. cbn [bind]. destruct b; [exact Next|].
    exists i; split; [reflexivity | lia].
  - cbn [bind]. exists i; split; [reflexivity | lia].
Qed.

Lemma findLastPunctuation_returns text sep :
  exists r, findLastPunctuation text sep = Ok r /\ -1 <= r < len text.
Proof.
  unfold findLastPunctuation.
  destruct (lastPunctLoop_returns sep (S (length text)) text (len text - 1))
    as (r & E & B); try (unfold len; lia).
  exists r. split; [exact E | lia].
Qed.

(** ** Content is kept by trimming and skipping *)

Lemma content_app ws a b : content ws (a ++ b) = content ws a ++ content ws b.
Proof. apply filter_app. Qed.

Lemma content_all ws t : forallb ws t = true -> content ws t = [].
Proof.
  induction t as [|x t IH]; [reflexivity|]. simpl.
  destruct (ws x); [|discriminate]. simpl. exact IH.
Qed.

Lemma content_dropWhile ws t : content ws (dropWhile ws t) = content ws t.
Proof.
  induction t as [|x t IH]; [reflexivity|]. simpl.
  destruct (ws x) eqn:E; simpl; [exact IH | now rewrite E].
Qed.

Lemma content_trim ws t :
  content ws (rev (dropWhile ws (rev (dropWhile ws t)))) = content ws t.
Proof.
  unfold content at 1. rewrite filter_rev. fold (content ws (dropWhile ws (rev (dropWhile ws t)))).
  rewrite content_dropWhile. unfold content at 1. rewrite filter_rev, rev_involutive.
  apply content_dropWhile.
Qed.

Lemma content_trimList t : content isTrimSpace (trimList t) = content isTrimSpace t.
Proof. apply content_trim. Qed.

Lemma content_TrimSpace t :
  content unicode_IsSpace (strings_TrimSpace t) = content unicode_IsSpace t.
Proof. apply content_trim. Qed.

Lemma sub_takeWhile ws text s :
  0 <= s <= len text ->
  sub text s (s + len (takeWhile ws (sub text s (len text))))
  = takeWhile ws (sub text s (len text)).
Proof.
  intros H.
  set (u := sub text s (len text)).
  pose proof (takeWhile_dropWhile ws u) as E.
  pose proof (len_takeWhile_le ws u) as L. unfold u in L at 2.
  rewrite len_sub in L by lia.
  pose proof (len_nonneg (takeWhile ws u)) as L0.
  unfold sub. replace (s + len (takeWhile ws u) - s) with (len (takeWhile ws u)) by lia.
  rewrite <- (sub_to_end text s) by lia. fold u.
  rewrite <- E at 2. unfold len. rewrite Nat2Z.id.
  rewrite firstn_app, firstn_all, Nat.sub_diag. simpl. now rewrite app_nil_r.
Qed.

Lemma content_skipWs text s :
  0 <= s <= len text -> content isTrimSpace (sub text s (skipWs text s)) = [].
Proof.
  intros H. unfold skipWs. rewrite sub_takeWhile by lia.
  apply content_all, takeWhile_forallb.
Qed.

Lemma content_after_skip text s hi :
  0 <= s <= len text -> skipWs text s <= hi ->
  content isTrimSpace (sub text s hi)
  = content isTrimSpace (sub text (skipWs text s) hi).
Proof.
  intros H Hhi. destruct (skipWs_range text s H) as [R _].
  rewrite (sub_split text s (skipWs text s) hi) by lia.
  rewrite content_app, content_skipWs by lia. reflexivity.
Qed.

Lemma content_deferSegment rem seg :
  content isTrimSpace (deferSegment rem seg)
  = content isTrimSpace rem ++ content isTrimSpace seg.
Proof.
  unfold deferSegment. destruct (Z.ltb_spec 0 (len seg)).
  - destruct (0 <? len rem); rewrite !content_app; [|reflexivity].
    simpl. now rewrite app_nil_r.
  - assert (seg = []) as -> by (apply len_zero_nil; pose proof (len_nonneg seg); lia).
    simpl. now rewrite app_nil_r.
Qed.

Lemma len_pos_nonempty {A} (seg : list A) : seg <> [] -> (0 <? len seg) = true.
Proof.
  intros H. destruct seg; [congruence|]. rewrite len_cons.
  pose proof (len_nonneg seg). apply Z.ltb_lt. lia.
Qed.

(** ** Reconstruction *)

Lemma completeLoop_walk : forall rs i lastIndex sentences current,
  lastIndex = i + len rs - 1 ->
  completeLoop rs i lastIndex sentences current
  = (sentences ++ fst (eagerWalk current rs), snd (eagerWalk current rs)).
Proof.
  induction rs as [|r rest IH]; intros i lastIndex sentences current Hl.
  - simpl. now rewrite app_nil_r.
  - rewrite len_cons in Hl. cbn [completeLoop eagerWalk].
    destruct (IsSentenceEndPunctuation r).
    + rewrite IH by lia.
      destruct (eagerWalk [] rest) as [ss rem]. cbn [fst snd].
      destruct (isEmpty (strings_TrimSpace (current ++ [r]))); cbn [negb fst snd];
        [reflexivity | now rewrite <- app_assoc].
    + destruct (Z.eqb_spec i lastIndex).
      * assert (rest = []) as -> by (apply len_zero_nil; lia).
        simpl. now rewrite app_nil_r.
      * apply IH. lia.
Qed.

Lemma ExtractCompleteSentences_walk_eq text :
  ExtractCompleteSentences text
  = (fst (eagerWalk [] text), strings_TrimSpace (snd (eagerWalk [] text))).
Proof.
  unfold ExtractCompleteSentences.
  destruct text as [|r t]; [reflexivity|]. cbn [isEmpty].
  rewrite completeLoop_walk by lia. reflexivity.
Qed.

Lemma eagerWalk_content : forall text acc,
  content unicode_IsSpace (concat (fst (eagerWalk acc text)) ++ snd (eagerWalk acc text))
  = content unicode_IsSpace (acc ++ text).
Proof.
  induction text as [|r rest IH]; intros acc.
  - simpl. now rewrite app_nil_r.
  - cbn [eagerWalk]. destruct (IsSentenceEndPunctuation r).
    + specialize (IH []). destruct (eagerWalk [] rest) as [ss rem].
      cbn [fst snd] in *. cbn [app] in IH.
      replace (acc ++ r :: rest) with ((acc ++ [r]) ++ rest)
        by (rewrite <- app_assoc; reflexivity).
      rewrite (content_app _ (acc ++ [r]) rest), <- IH.
      rewrite <- (content_TrimSpace (acc ++ [r])).
      destruct (strings_TrimSpace (acc ++ [r])) as [|x seg]; cbn [isEmpty].
      * reflexivity.
      * cbn [concat]. rewrite <- app_assoc. now rewrite !content_app.
    + rewrite IH. now rewrite <- app_assoc.
Qed.

Lemma ExtractCompleteSentences_content text :
  content unicode_IsSpace
    (concat (fst (ExtractCompleteSentences text))
     ++ snd (ExtractCompleteSentences text))
  = content unicode_IsSpace text.
Proof.
  rewrite ExtractCompleteSentences_walk_eq. cbn [fst snd].
  rewrite content_app, content_TrimSpace, <- content_app.
  apply (eagerWalk_content text []).
Qed.

Section Reconstruction.
Variables (text : Text) (minLen maxLen : Z) (sep : runeMap).
Hypothesis maxLen_nonneg : 0 <= maxLen.
Hypothesis no_overflow : len text + maxLen <= maxInt64.

Lemma smartLoop_content fuel : forall s ss rem deferred,
  0 <= s <= len text -> (Z.to_nat (len text - s) < fuel)%nat ->
  (deferred = false -> rem = []) ->
  keepsOrder fuel text minLen maxLen sep s deferred = true ->
  content isTrimSpace (concat ss ++ rem) = content isTrimSpace (sub text 0 s) ->
  exists ss' rem',
    smartLoop fuel text minLen maxLen sep s ss rem = Ok (ss', rem')
    /\ content isTrimSpace (concat ss' ++ rem') = content isTrimSpace text.
Proof.
  induction fuel as [|fuel IH]; intros s ss rem deferred Hs Hf Hd Hk Hc; [lia|].
  rewrite smartLoop_unfold by assumption. cbn [keepsOrder] in Hk.
  destruct (Z.ltb_spec s (len text)).
  2:{ exists ss, rem. split; [reflexivity|].
      rewrite Hc. replace s with (len text) by lia. now rewrite sub_full. }
  assert (content isTrimSpace text
          = content isTrimSpace (sub text 0 s)
            ++ content isTrimSpace (sub text (skipWs text s) (len text))) as Hall.
  { rewrite <- (sub_full text) at 1.
    rewrite (sub_split text 0 s (len text)), content_app by lia.
    f_equal. apply content_after_skip; [lia|].
    apply (skipWs_range text s); lia. }
  destruct (smartStep text maxLen sep s) as [|seg|seg next] eqn:E.
  - exists ss, rem. split; [reflexivity|].
    apply smartStep_Done in E; [|lia].
    rewrite Hall, E, (sub_nil text (len text)) by lia. simpl.
    now rewrite app_nil_r.
  - destruct (smartStep_Tail _ _ _ _ _ Hs maxLen_nonneg E) as (R & Hne & Hseg & _).
    destruct deferred; [discriminate|]. rewrite (Hd eq_refl) in *.
    rewrite len_pos_nonempty by exact Hne.
    exists ss, seg. split; [reflexivity|].
    rewrite app_nil_r in Hc.
    rewrite Hall, content_app, Hc, Hseg, content_trimList. reflexivity.
  - destruct (smartStep_Seg _ _ _ _ _ _ Hs maxLen_nonneg E) as (R & Hn & Hne & Hseg & _).
    assert (content isTrimSpace (sub text 0 next)
            = content isTrimSpace (sub text 0 s) ++ content isTrimSpace seg) as Hnext.
    { rewrite (sub_split text 0 s next), content_app by lia.
      rewrite (content_after_skip text s next) by lia.
      now rewrite Hseg, content_trimList. }
    destruct (accepts seg minLen sep).
    + apply andb_true_iff in Hk. destruct Hk as [Hk1 Hk2].
      destruct deferred; [discriminate|]. rewrite (Hd eq_refl) in *.
      apply (IH next (ss ++ [seg]) [] false);
        [lia | lia | reflexivity | exact Hk2 |].
      rewrite app_nil_r in *. rewrite concat_app, content_app, Hc. simpl.
      rewrite app_nil_r. now rewrite Hnext.
    + apply (IH next ss (deferSegment rem seg) true);
        [lia | lia | intros; discriminate | exact Hk |].
      rewrite content_app, content_deferSegment, app_assoc.
      rewrite <- content_app, Hc. now rewrite Hnext.
Qed.
End Reconstruction.

(** ** The main loop as a relation *)

Section Runs.
Variables (minLen maxLen : Z) (sep : runeMap).
Hypothesis maxLen_nonneg : 0 <= maxLen.

Local Abbreviation run := (runs minLen maxLen sep).

Lemma smartLoop_runs text fuel : forall s ss rem out,
  len text + maxLen <= maxInt64 -> 0 <= s <= len text ->
  smartLoop fuel text minLen maxLen sep s ss rem = Ok out ->
  run text s ss rem out.
Proof.
  induction fuel as [|fuel IH]; intros s ss rem out Ho Hs E; [discriminate|].
  rewrite smartLoop_unfold in E by assumption.
  destruct (Z.ltb_spec s (len text)).
  2:{ inversion E. apply runs_end. lia. }
  destruct (smartStep text maxLen sep s) as [|seg|seg next] eqn:St.
  - inversion E. now apply runs_done.
  - inversion E. now apply runs_tail.
  - destruct (smartStep_Seg _ _ _ _ _ _ Hs maxLen_nonneg St) as (R & Hn & _).
    destruct (accepts seg minLen sep) eqn:A.
    + eapply runs_accept; eauto. apply IH; [assumption | lia | assumption].
    + eapply runs_reject; eauto. apply IH; [assumption | lia | assumption].
Qed.

Lemma runs_total_aux text n : forall s ss rem,
  0 <= s -> (Z.to_nat (len text - s) <= n)%nat ->
  exists out, run text s ss rem out.
Proof.
  induction n as [|n IH]; intros s ss rem Hs Hn.
  - eexists. apply runs_end. lia.
  - destruct (Z.le_gt_cases (len text) s) as [L|L].
    { eexists. apply runs_end. lia. }
    destruct (smartStep text maxLen sep s) as [|seg|seg next] eqn:St.
    + eexists. apply runs_done; [lia | assumption].
    + eexists. apply runs_tail; [lia | eassumption].
    + destruct (smartStep_Seg text maxLen sep s seg next ltac:(lia)
                  maxLen_nonneg St) as (R & Hnx & _).
      destruct (accepts seg minLen sep) eqn:A.
      * destruct (IH next (ss ++ [seg]) rem) as [out Ro]; try lia.
        exists out. eapply runs_accept; eauto; lia.
      * destruct (IH next ss (deferSegment rem seg)) as [out Ro]; try lia.
        exists out. eapply runs_reject; eauto; lia.
Qed.

Lemma runs_total text s ss rem : 0 <= s -> exists out, run text s ss rem out.
Proof. intros H. eapply runs_total_aux; [exact H | apply Nat.le_refl]. Qed.

Lemma runs_det text s ss rem out1 :
  run text s ss rem out1 -> forall out2, run text s ss rem out2 -> out1 = out2.
Proof.
  induction 1 as [s ss rem L|s ss rem L St|s ss rem seg L St
                 |s ss rem seg next out L St A R IH
                 |s ss rem seg next out L St A R IH];
    intros out2 R2; inversion R2; subst; try lia; try congruence.
  - assert (seg0 = seg) as -> by congruence. reflexivity.
  - assert (Seg seg0 next0 = Seg seg next) as E by congruence.
    inversion E; subst. now apply IH.
  - assert (Seg seg0 next0 = Seg seg next) as E by congruence.
    inversion E; subst. now apply IH.
Qed.

Lemma len_deferSegment rem seg :
  len (deferSegment rem seg)
  = len rem + (if 0 <? len seg
               then (if 0 <? len rem then 1 else 0) + len seg else 0).
Proof.
  unfold deferSegment. destruct (0 <? len seg); [|lia].
  destruct (0 <? len rem); rewrite !len_app; try rewrite len_cons, len_nil; lia.
Qed.

(** The sentences a run adds do not depend on the state it starts from, and
    a shorter remainder at the start gives a remainder that is not longer
    at the end. *)
Lemma runs_sentences text s ss rem out :
  run text s ss rem out ->
  exists new,
    fst out = ss ++ new
    /\ forall ss0 rem0, exists rem0',
         run text s ss0 rem0 (ss0 ++ new, rem0')
         /\ (len rem0 <= len rem -> len rem0' <= len (snd out)).
Proof.
  induction 1 as [s ss rem L|s ss rem L St|s ss rem seg L St
                 |s ss rem seg next out L St A R IH
                 |s ss rem seg next out L St A R IH].
  - exists []. split; [now rewrite app_nil_r|]. intros ss0 rem0.
    exists rem0. rewrite app_nil_r. split; [now apply runs_end | auto].
  - exists []. split; [now rewrite app_nil_r|]. intros ss0 rem0.
    exists rem0. rewrite app_nil_r. split; [now apply runs_done | auto].
  - exists []. split; [now rewrite app_nil_r|]. intros ss0 rem0.
    exists (if 0 <? len seg then seg else rem0). rewrite app_nil_r.
    split; [now apply runs_tail|]. simpl. destruct (0 <? len seg); lia.
  - destruct IH as (new & E & F). exists (seg :: new).
    split; [rewrite E, <- app_assoc; reflexivity|]. intros ss0 rem0.
    destruct (F (ss0 ++ [seg]) rem0) as (rem0' & R0 & M).
    exists rem0'. rewrite <- app_assoc in R0. split; [|exact M].
    eapply runs_accept; eauto.
  - destruct IH as (new & E & F). exists new.
    split; [exact E|]. intros ss0 rem0.
    destruct (F ss0 (deferSegment rem0 seg)) as (rem0' & R0 & M).
    exists rem0'. split; [eapply runs_reject; eauto|].
    intros Hl. apply M. rewrite !len_deferSegment.
    pose proof (len_nonneg rem0).
    destruct (0 <? len seg); [|lia].
    destruct (Z.ltb_spec 0 (len rem0)), (Z.ltb_spec 0 (len rem)); lia.
Qed.

Lemma trimList_len_le t : len (trimList t) <= len t.
Proof.
  unfold trimList. rewrite rev_dropWhile_rev, dropWhile_skipn.
  unfold len. rewrite length_firstn, length_skipn. lia.
Qed.

(** The remainder is never longer than twice the text that was scanned. *)
Lemma runs_remainder_bound text s ss rem out :
  run text s ss rem out -> 0 <= s <= len text ->
  len rem <= 2 * s -> len (snd out) <= 2 * len text.
Proof.
  induction 1 as [s ss rem L|s ss rem L St|s ss rem seg L St
                 |s ss rem seg next out L St A R IH
                 |s ss rem seg next out L St A R IH]; intros Hs Hb; cbn [snd].
  - lia.
  - lia.
  - destruct (smartStep_Tail _ _ _ _ _ Hs maxLen_nonneg St) as (Rg & Hne & Hseg & _).
    destruct (0 <? len seg); [|lia].
    pose proof (trimList_len_le (sub text (skipWs text s) (len text))) as T.
    rewrite <- Hseg, len_sub in T by lia. lia.
  - destruct (smartStep_Seg _ _ _ _ _ _ Hs maxLen_nonneg St) as (Rg & Hn & _).
    apply IH; lia.
  - destruct (smartStep_Seg _ _ _ _ _ _ Hs maxLen_nonneg St)
      as (Rg & Hn & Hne & Hseg & _).
    apply IH; [lia|]. rewrite len_deferSegment.
    pose proof (trimList_len_le (sub text (skipWs text s) next)) as T.
    rewrite <- Hseg, len_sub in T by lia.
    assert (0 < len seg).
    { destruct seg; [congruence|]. rewrite len_cons. pose proof (len_nonneg seg). lia. }
    destruct (0 <? len seg); [|lia]. destruct (0 <? len rem); lia.
Qed.
End Runs.

(** ** A prefix in front of the text shifts the run *)

Lemma firstFrom_shift P Q d n : forall lo,
  (forall j, lo <= j < lo + Z.of_nat n -> P (d + j) = Q j) ->
  firstFrom P n (d + lo) = option_map (Z.add d) (firstFrom Q n lo).
Proof.
  induction n as [|n IH]; intros lo H; simpl; [reflexivity|].
  rewrite (H lo) by lia. destruct (Q lo); [reflexivity|].
  replace (d + lo + 1) with (d + (lo + 1)) by lia.
  apply IH. intros; apply H; lia.
Qed.

Section Shift.
Variables (pre X : Text) (maxLen : Z) (sep : runeMap).
Hypothesis maxLen_nonneg : 0 <= maxLen.

Local Abbreviation lp := (len pre).

Lemma get_shift j : 0 <= j -> get (pre ++ X) (lp + j) = get X j.
Proof.
  intros H. pose proof (len_nonneg pre).
  rewrite get_app_r by lia. f_equal. lia.
Qed.

Lemma sub_shift lo hi : 0 <= lo -> sub (pre ++ X) (lp + lo) (lp + hi) = sub X lo hi.
Proof.
  intros H. pose proof (len_nonneg pre).
  rewrite sub_app_r by lia. f_equal; lia.
Qed.

Lemma skipWs_shift s : 0 <= s -> skipWs (pre ++ X) (lp + s) = lp + skipWs X s.
Proof.
  intros H. unfold skipWs. rewrite len_app, sub_shift by lia. lia.
Qed.

Lemma windowSplit_shift e i :
  0 <= i -> windowSplit sep (pre ++ X) (lp + e) (lp + i) = windowSplit sep X e i.
Proof.
  intros H. unfold windowSplit. rewrite get_shift by lia.
  destruct (get X i =? r_nl); [|reflexivity].
  unfold forcedNewline, afterBlanks.
  replace (lp + i + 1) with (lp + (i + 1)) by lia.
  rewrite sub_shift by lia.
  set (k := len (takeWhile isBlank (sub X (i + 1) e))).
  assert (0 <= k) by apply len_nonneg.
  replace (lp + (i + 1) + k) with (lp + (i + 1 + k)) by lia.
  rewrite get_shift by lia. f_equal.
  destruct (Z.ltb_spec (lp + (i + 1 + k)) (lp + e - 2)),
           (Z.ltb_spec (i + 1 + k) (e - 2)); reflexivity || lia.
Qed.

Lemma tailSplit_shift i :
  0 <= i -> tailSplit sep (pre ++ X) (lp + i) = tailSplit sep X i.
Proof. intros H. unfold tailSplit. now rewrite get_shift. Qed.

Lemma nextSplitOpt_shift s :
  0 <= s ->
  nextSplitOpt (pre ++ X) (lp + s) maxLen sep
  = option_map (Z.add lp) (nextSplitOpt X s maxLen sep).
Proof.
  intros H. unfold nextSplitOpt, windowEnd. rewrite len_app.
  replace (Z.min (lp + s + maxLen) (lp + len X))
    with (lp + Z.min (s + maxLen) (len X)) by lia.
  set (e := Z.min (s + maxLen) (len X)).
  replace (lp + e - (lp + s)) with (e - s) by lia.
  replace (lp + len X - (lp + e)) with (len X - e) by lia.
  rewrite (firstFrom_shift _ (windowSplit sep X e))
    by (intros; apply windowSplit_shift; lia).
  destruct (firstFrom (windowSplit sep X e) _ s); [reflexivity|]. simpl.
  apply firstFrom_shift. intros. apply tailSplit_shift.
  pose proof (len_nonneg X). unfold e in *. lia.
Qed.
End Shift.

Lemma nextSplitOpt_range text s maxLen sep r :
  0 <= s <= len text -> 0 <= maxLen ->
  nextSplitOpt text s maxLen sep = Some r -> s <= r < len text.
Proof.
  intros Hs Hm E. unfold nextSplitOpt, windowEnd in E.
  destruct (firstFrom _ _ s) eqn:E1.
  - inversion E; subst. apply firstFrom_Some in E1. lia.
  - apply firstFrom_Some in E. lia.
Qed.

(** One iteration, in terms of the split point found. *)
Lemma smartStep_opt text maxLen sep s :
  0 <= s <= len text -> 0 <= maxLen ->
  smartStep text maxLen sep s
  = let s' := skipWs text s in
    if len text <=? s' then Done
    else match nextSplitOpt text s' maxLen sep with
         | None => Tail (trimList (sub text s' (len text)))
         | Some r => Seg (trimList (sub text s' (r + 1))) (r + 1)
         end.
Proof.
  intros Hs Hm. unfold smartStep. cbv zeta.
  destruct (skipWs_range text s Hs) as [R _].
  destruct (Z.leb_spec (len text) (skipWs text s)); [reflexivity|].
  unfold nextSplit.
  destruct (nextSplitOpt text (skipWs text s) maxLen sep) as [r|] eqn:E;
    [|reflexivity].
  apply nextSplitOpt_range in E; [|lia|lia].
  destruct (Z.eqb_spec r (-1)); [lia | reflexivity].
Qed.

Lemma smartStep_shift pre X maxLen sep s :
  0 <= s <= len X -> 0 <= maxLen ->
  smartStep (pre ++ X) maxLen sep (len pre + s)
  = shiftStep (len pre) (smartStep X maxLen sep s).
Proof.
  intros Hs Hm. pose proof (len_nonneg pre) as Hp.
  rewrite !smartStep_opt by (rewrite ?len_app; lia). cbv zeta.
  rewrite skipWs_shift, len_app by lia.
  destruct (skipWs_range X s Hs) as [R _].
  destruct (Z.leb_spec (len pre + len X) (len pre + skipWs X s)),
           (Z.leb_spec (len X) (skipWs X s)); try lia; [reflexivity|].
  rewrite nextSplitOpt_shift by lia.
  destruct (nextSplitOpt X (skipWs X s) maxLen sep) as [r|]; simpl.
  - replace (len pre + r + 1) with (len pre + (r + 1)) by lia.
    now rewrite sub_shift by lia.
  - now rewrite sub_shift by lia.
Qed.

Lemma runs_shift minLen maxLen sep pre X s ss rem out :
  0 <= maxLen ->
  runs minLen maxLen sep X s ss rem out -> 0 <= s ->
  runs minLen maxLen sep (pre ++ X) (len pre + s) ss rem out.
Proof.
  intros Hm. pose proof (len_nonneg pre) as Hp.
  induction 1 as [s ss rem L|s ss rem L St|s ss rem seg L St
                 |s ss rem seg next out L St A R IH
                 |s ss rem seg next out L St A R IH]; intros Hs.
  - apply runs_end. rewrite len_app. lia.
  - apply runs_done; [rewrite len_app; lia|].
    rewrite smartStep_shift, St by lia. reflexivity.
  - apply runs_tail; [rewrite len_app; lia|].
    rewrite smartStep_shift, St by lia. reflexivity.
  - destruct (smartStep_Seg X maxLen sep s seg next ltac:(lia) Hm St) as (Rg & _).
    eapply runs_accept; [rewrite len_app; lia | | exact A | apply IH; lia].
    rewrite smartStep_shift, St by lia. reflexivity.
  - destruct (smartStep_Seg X maxLen sep s seg next ltac:(lia) Hm St) as (Rg & _).
    eapply runs_reject; [rewrite len_app; lia | | exact A | apply IH; lia].
    rewrite smartStep_shift, St by lia. reflexivity.
Qed.

(** ** The run from a cursor and from the next non-space rune agree *)

Lemma skipWs_fixed text s :
  0 <= s <= len text -> skipWs text (skipWs text s) = skipWs text s.
Proof.
  intros Hs. destruct (skipWs_range text s Hs) as [R1 R2].
  unfold skipWs at 1.
  destruct (Z.eq_dec (skipWs text s) (len text)) as [E|E].
  - rewrite E, sub_nil by lia. simpl. rewrite len_nil. lia.
  - rewrite sub_cons by lia. simpl. rewrite R2 by lia. rewrite len_nil. lia.
Qed.

Lemma smartStep_skip text maxLen sep s :
  0 <= s <= len text ->
  smartStep text maxLen sep (skipWs text s) = smartStep text maxLen sep s.
Proof. intros Hs. unfold smartStep. now rewrite skipWs_fixed. Qed.

Lemma runs_skip minLen maxLen sep text s ss rem out :
  0 <= s <= len text ->
  runs minLen maxLen sep text (skipWs text s) ss rem out ->
  runs minLen maxLen sep text s ss rem out.
Proof.
  intros Hs R. destruct (skipWs_range text s Hs) as [R1 _].
  destruct (Z.eq_dec (skipWs text s) (len text)) as [E|E].
  - rewrite E in R. inversion R; subst; try lia.
    destruct (Z.eq_dec s (len text)); [apply runs_end; lia|].
    apply runs_done; [lia|]. unfold smartStep. rewrite E.
    destruct (Z.leb_spec (len text) (len text)); [reflexivity | lia].
  - pose proof (smartStep_skip text maxLen sep s Hs) as Sk.
    inversion R; subst; try lia; rewrite Sk in *.
    + apply runs_done; [lia | assumption].
    + apply runs_tail; [lia | assumption].
    + eapply runs_accept; eauto; lia.
    + eapply runs_reject; eauto; lia.
Qed.

(** ** Split points of a text without newlines *)

Lemma firstFrom_found P n : forall lo p,
  lo <= p < lo + Z.of_nat n -> P p = true ->
  (forall j, lo <= j < p -> P j = false) ->
  firstFrom P n lo = Some p.
Proof.
  induction n as [|n IH]; intros lo p Hp Pp Hj; [lia|]. simpl.
  destruct (Z.eq_dec lo p) as [->|Ne]; [now rewrite Pp|].
  rewrite Hj by lia. apply IH; [lia | assumption | intros; apply Hj; lia].
Qed.

Lemma firstFrom_none P n : forall lo,
  (forall j, lo <= j < lo + Z.of_nat n -> P j = false) ->
  firstFrom P n lo = None.
Proof.
  induction n as [|n IH]; intros lo Hj; [reflexivity|]. simpl.
  rewrite Hj by lia. apply IH. intros; apply Hj; lia.
Qed.

Section Plain.
Variables (text : Text) (maxLen : Z) (sep : runeMap).
Hypothesis maxLen_nonneg : 0 <= maxLen.

Lemma windowSplit_plain e j :
  get text j <> r_nl -> windowSplit sep text e j = mapGet sep (get text j).
Proof.
  intros H. unfold windowSplit.
  destruct (Z.eqb_spec (get text j) r_nl); [contradiction | reflexivity].
Qed.

Lemma tailSplit_plain j :
  get text j <> r_nl -> tailSplit sep text j = mapGet sep (get text j).
Proof.
  intros H. unfold tailSplit.
  destruct (Z.eqb_spec (get text j) r_nl); [contradiction | reflexivity].
Qed.

Lemma nextSplitOpt_first s p :
  0 <= s <= p -> p < len text ->
  (forall j, s <= j <= p -> get text j <> r_nl) ->
  (forall j, s <= j < p -> mapGet sep (get text j) = false) ->
  mapGet sep (get text p) = true ->
  nextSplitOpt text s maxLen sep = Some p.
Proof.
  intros Hs Hp Hnl Hno Hyes. unfold nextSplitOpt, windowEnd.
  set (e := Z.min (s + maxLen) (len text)).
  destruct (Z.lt_ge_cases p e).
  - rewrite (firstFrom_found _ _ s p); [reflexivity | lia | |].
    + rewrite windowSplit_plain by (apply Hnl; lia). exact Hyes.
    + intros j Hj. rewrite windowSplit_plain by (apply Hnl; lia). apply Hno; lia.
  - rewrite firstFrom_none.
    + apply firstFrom_found; [unfold e in *; lia | |].
      * rewrite tailSplit_plain by (apply Hnl; lia). exact Hyes.
      * intros j Hj. rewrite tailSplit_plain by (apply Hnl; unfold e in *; lia).
        apply Hno. unfold e in *. lia.
    + intros j Hj. rewrite windowSplit_plain by (apply Hnl; lia). apply Hno; lia.
Qed.

Lemma nextSplitOpt_Some_plain s p :
  0 <= s <= len text ->
  (forall j, s <= j < len text -> get text j <> r_nl) ->
  nextSplitOpt text s maxLen sep = Some p ->
  s <= p < len text
  /\ mapGet sep (get text p) = true
  /\ (forall j, s <= j < p -> mapGet sep (get text j) = false).
Proof.
  intros Hs Hnl E.
  pose proof (nextSplitOpt_range _ _ _ _ _ Hs maxLen_nonneg E) as R.
  unfold nextSplitOpt, windowEnd in E.
  set (e := Z.min (s + maxLen) (len text)) in *.
  destruct (firstFrom (windowSplit sep text e) _ s) as [k|] eqn:E1.
  - inversion E; subst k. apply firstFrom_Some in E1. destruct E1 as (B & Pk & N).
    rewrite windowSplit_plain in Pk by (apply Hnl; lia).
    repeat split; try lia; [exact Pk|].
    intros j Hj. rewrite <- (windowSplit_plain e) by (apply Hnl; lia). apply N; lia.
  - pose proof (firstFrom_None _ _ _ E1) as N1.
    apply firstFrom_Some in E. destruct E as (B & Pk & N).
    rewrite tailSplit_plain in Pk by (apply Hnl; lia).
    repeat split; try lia; [exact Pk|].
    intros j Hj. destruct (Z.lt_ge_cases j e).
    + rewrite <- (windowSplit_plain e) by (apply Hnl; lia). apply N1. lia.
    + rewrite <- tailSplit_plain by (apply Hnl; lia). apply N. lia.
Qed.

End Plain.

Lemma skipWs_unique text s t :
  0 <= s <= t -> t <= len text ->
  (forall j, s <= j < t -> isTrimSpace (get text j) = true) ->
  (t < len text -> isTrimSpace (get text t) = false) ->
  skipWs text s = t.
Proof.
  intros Hs Ht Hws Hstop.
  destruct (skipWs_range text s ltac:(lia)) as [R1 R2].
  destruct (Z.lt_trichotomy (skipWs text s) t) as [L|[E|G]]; [|exact E|].
  - specialize (Hws (skipWs text s) ltac:(lia)).
    rewrite R2 in Hws by lia. discriminate.
  - pose proof (skipWs_blank text s t ltac:(lia) ltac:(lia)) as B.
    rewrite Hstop in B by lia. discriminate.
Qed.

Lemma last_split (r : Text) : r <> [] -> exists r0, r = r0 ++ [get r (len r - 1)].
Proof.
  intros H. destruct (exists_last H) as (r0 & c & ->).
  exists r0. f_equal. rewrite len_app, len_cons, len_nil.
  pose proof (len_nonneg r0).
  rewrite get_app_r by lia. replace (len r0 + (1 + 0) - 1 - len r0) with 0 by lia.
  reflexivity.
Qed.

Lemma trimList_id r :
  r <> [] -> isTrimSpace (get r 0) = false ->
  isTrimSpace (get r (len r - 1)) = false -> trimList r = r.
Proof.
  intros Hne H0 Hl. unfold trimList.
  destruct r as [|x r']; [congruence|]. rewrite get_cons_0 in H0.
  rewrite dropWhile_stop by exact H0.
  destruct (last_split (x :: r') Hne) as [r0 E].
  rewrite E at 1. rewrite rev_unit, dropWhile_stop by exact Hl.
  rewrite <- rev_unit, <- E. apply rev_involutive.
Qed.

(** ** Clauses and remainders made of clauses *)

Lemma get_mid A r Y k : 0 <= k < len r -> get (A ++ r ++ Y) (len A + k) = get r k.
Proof.
  intros H. pose proof (len_nonneg A).
  rewrite get_app_r by lia. replace (len A + k - len A) with k by lia.
  now rewrite get_app_l.
Qed.

Lemma sub_mid A r Y : sub (A ++ r ++ Y) (len A) (len A + len r) = r.
Proof.
  pose proof (len_nonneg A). pose proof (len_nonneg r).
  rewrite sub_app_r by lia.
  replace (len A - len A) with 0 by lia.
  replace (len A + len r - len A) with (len r) by lia.
  rewrite sub_app_l by lia. apply sub_full.
Qed.

Lemma nonempty_len {A} (r : list A) : r <> [] -> 0 < len r.
Proof.
  destruct r; [congruence|]. rewrite len_cons. pose proof (len_nonneg r). lia.
Qed.

Lemma isTrimSpace_split c : isTrimSpace c = isBlank c || (c =? r_nl).
Proof. reflexivity. Qed.

Section Clauses.
Variables (minLen maxLen : Z) (sep : runeMap).
Hypothesis maxLen_nonneg : 0 <= maxLen.
Hypothesis sep_not_blank : forall c, mapGet sep c = true -> isBlank c = false.

Local Abbreviation run := (runs minLen maxLen sep).

Lemma clause_last r : clause sep r -> isTrimSpace (get r (len r - 1)) = false.
Proof.
  intros (Hne & H0 & Hnl & Hno & Hyes).
  pose proof (nonempty_len r Hne).
  rewrite isTrimSpace_split, (sep_not_blank _ Hyes). simpl.
  apply Z.eqb_neq. apply Hnl. lia.
Qed.

Lemma clause_trim r : clause sep r -> trimList r = r.
Proof.
  intros C. pose proof (clause_last r C). destruct C as (Hne & H0 & _).
  now apply trimList_id.
Qed.

(** A clause that follows white space is the next candidate, whatever
    comes after it. *)
Lemma step_clause A r Y s :
  0 <= s <= len A ->
  (forall j, s <= j < len A -> isTrimSpace (get A j) = true) ->
  clause sep r ->
  smartStep (A ++ r ++ Y) maxLen sep s = Seg r (len A + len r).
Proof.
  intros Hs Hws C. pose proof (clause_trim r C) as Tr.
  destruct C as (Hne & H0 & Hnl & Hno & Hyes).
  pose proof (nonempty_len r Hne) as Lr.
  pose proof (len_nonneg A) as LA. pose proof (len_nonneg Y) as LY.
  assert (len (A ++ r ++ Y) = len A + len r + len Y) as Lt
    by (rewrite !len_app; lia).
  assert (skipWs (A ++ r ++ Y) s = len A) as Sk.
  { apply skipWs_unique; try lia.
    - intros j Hj. rewrite get_app_l by lia. now apply Hws.
    - intros _. rewrite <- (Z.add_0_r (len A)), get_mid by lia. exact H0. }
  rewrite smartStep_opt by lia. cbv zeta. rewrite Sk.
  destruct (Z.leb_spec (len (A ++ r ++ Y)) (len A)); [lia|].
  rewrite (nextSplitOpt_first _ _ _ maxLen_nonneg (len A) (len A + (len r - 1)));
    try lia.
  - replace (len A + (len r - 1) + 1) with (len A + len r) by lia.
    now rewrite sub_mid, Tr.
  - intros j Hj. replace j with (len A + (j - len A)) by lia.
    rewrite get_mid by lia. apply Hnl. lia.
  - intros j Hj. replace j with (len A + (j - len A)) by lia.
    rewrite get_mid by lia. apply Hno. lia.
  - rewrite get_mid by lia. exact Hyes.
Qed.

Lemma deferSegment_nonempty rem r :
  r <> [] ->
  deferSegment rem r = (if isEmpty rem then [] else rem ++ [r_space]) ++ r.
Proof.
  intros Hne. unfold deferSegment. rewrite len_pos_nonempty by exact Hne.
  destruct rem as [|x rem]; [reflexivity|].
  rewrite len_pos_nonempty by discriminate. reflexivity.
Qed.

(** Extracting again from a remainder made of rejected clauses rejects
    them again and leaves the same remainder. *)
Lemma runs_rejoin rem :
  joined minLen sep rem ->
  forall Y ss out,
    run (rem ++ Y) (len rem) ss rem out -> run (rem ++ Y) 0 ss [] out.
Proof.
  induction 1 as [|rem r J IH C A]; intros Y ss out R; [exact R|].
  pose proof C as (Hne & _). pose proof (nonempty_len r Hne) as Lr.
  pose proof (len_nonneg Y) as LY.
  destruct rem as [|x rem].
  - assert (deferSegment [] r = r) as D
      by (rewrite deferSegment_nonempty by exact Hne; reflexivity).
    rewrite D in *.
    eapply runs_reject; [rewrite len_app; lia | | exact A | ].
    + apply (step_clause [] r Y 0); [cbn; lia | | exact C].
      intros j Hj. cbn in Hj. lia.
    + change (len (@nil Z) + len r) with (len r). rewrite D. exact R.
  - set (rem0 := x :: rem) in *. pose proof (len_nonneg rem0) as L0.
    assert (deferSegment rem0 r = (rem0 ++ [r_space]) ++ r) as D
      by (rewrite deferSegment_nonempty by exact Hne; reflexivity).
    rewrite D in *.
    assert (((rem0 ++ [r_space]) ++ r) ++ Y = rem0 ++ ([r_space] ++ r ++ Y)) as E
      by (rewrite <- !app_assoc; reflexivity).
    rewrite E in *. apply IH.
    assert (rem0 ++ ([r_space] ++ r ++ Y) = (rem0 ++ [r_space]) ++ r ++ Y) as E2
      by (rewrite <- !app_assoc; reflexivity).
    rewrite E2 in *.
    assert (len (rem0 ++ [r_space]) = len rem0 + 1) as L1
      by (rewrite len_app; reflexivity).
    eapply runs_reject;
      [rewrite !len_app; change (len [r_space]) with 1; lia | | exact A | ].
    + apply (step_clause (rem0 ++ [r_space]) r Y (len rem0)); [lia | | exact C].
      intros j Hj. replace j with (len rem0) by lia.
      rewrite get_app_r by lia. rewrite Z.sub_diag. reflexivity.
    + rewrite D.
      replace (len (rem0 ++ [r_space]) + len r)
        with (len ((rem0 ++ [r_space]) ++ r))
        by (rewrite (len_app (rem0 ++ [r_space]) r); reflexivity).
      exact R.
Qed.
End Clauses.

(** ** Texts without newlines that do not end in white space *)

Lemma noNewline_get t :
  noNewline t = true -> forall j, 0 <= j < len t -> get t j <> r_nl.
Proof.
  unfold noNewline. rewrite forallb_forall. intros H j Hj E.
  assert (In (get t j) t) as I by (apply nth_In; unfold len in Hj; lia).
  apply H in I. rewrite E in I. discriminate.
Qed.

Lemma noNewline_intro t :
  (forall j, 0 <= j < len t -> get t j <> r_nl) -> noNewline t = true.
Proof.
  induction t as [|x t IH]; intros H; [reflexivity|]. simpl.
  pose proof (len_nonneg t) as L.
  apply andb_true_iff. split.
  - apply negb_true_iff, Z.eqb_neq. apply (H 0). rewrite len_cons. lia.
  - apply IH. intros j Hj. specialize (H (j + 1)).
    rewrite get_cons_S in H by lia. replace (j + 1 - 1) with j in H by lia.
    apply H. rewrite len_cons. lia.
Qed.

Lemma noNewline_app a b : noNewline (a ++ b) = noNewline a && noNewline b.
Proof. apply forallb_app. Qed.

Lemma endsClean_get t :
  endsClean t = true -> t <> [] -> isTrimSpace (get t (len t - 1)) = false.
Proof.
  intros H Hne. destruct (last_split t Hne) as [t0 E].
  unfold endsClean in H. rewrite E, rev_unit in H.
  now apply negb_true_iff in H.
Qed.

Lemma endsClean_intro t :
  t <> [] -> isTrimSpace (get t (len t - 1)) = false -> endsClean t = true.
Proof.
  intros Hne H. destruct (last_split t Hne) as [t0 E].
  unfold endsClean. rewrite E, rev_unit. now rewrite H.
Qed.

Lemma endsClean_app a b : b <> [] -> endsClean (a ++ b) = endsClean b.
Proof.
  intros Hne. destruct (last_split b Hne) as [b0 E]. rewrite E.
  unfold endsClean. rewrite app_assoc, !rev_unit. reflexivity.
Qed.

Lemma skipWs_app_l x Y s :
  0 <= s <= len x -> skipWs x s < len x -> skipWs (x ++ Y) s = skipWs x s.
Proof.
  intros Hs Hlt. destruct (skipWs_range x s Hs) as [R1 R2].
  pose proof (len_nonneg Y).
  apply skipWs_unique; rewrite ?len_app; try lia.
  - intros j Hj. rewrite get_app_l by lia. now apply (skipWs_blank x s).
  - intros _. rewrite get_app_l by lia. apply R2, Hlt.
Qed.

Section PlainSteps.
Variables (minLen maxLen : Z) (sep : runeMap).
Hypothesis maxLen_nonneg : 0 <= maxLen.
Hypothesis sep_not_blank : forall c, mapGet sep c = true -> isBlank c = false.
Variable x : Text.
Hypothesis x_plain : noNewline x = true.

Lemma step_Seg_plain s seg next :
  0 <= s < len x -> smartStep x maxLen sep s = Seg seg next ->
  clause sep seg
  /\ x = sub x 0 (skipWs x s) ++ seg ++ sub x next (len x)
  /\ next = skipWs x s + len seg
  /\ skipWs x s < len x.
Proof.
  intros Hs St. rewrite smartStep_opt in St by lia. cbv zeta in St.
  destruct (skipWs_range x s ltac:(lia)) as [R1 R2].
  set (s' := skipWs x s) in *.
  destruct (Z.leb_spec (len x) s'); [discriminate|].
  destruct (nextSplitOpt x s' maxLen sep) as [p|] eqn:E; [|discriminate].
  destruct (nextSplitOpt_Some_plain x maxLen sep maxLen_nonneg s' p) as (Rp & Pp & Np);
    [lia | intros; apply (noNewline_get x x_plain); lia | exact E |].
  assert (clause sep (sub x s' (p + 1))) as C.
  { assert (len (sub x s' (p + 1)) = p + 1 - s') as L by (apply len_sub; lia).
    repeat split.
    - intros N. rewrite N in L. cbn in L. lia.
    - rewrite get_sub by lia. rewrite Z.add_0_r. apply R2. lia.
    - intros j Hj. rewrite get_sub by lia. apply (noNewline_get x x_plain). lia.
    - intros j Hj. rewrite get_sub by lia. apply Np. lia.
    - rewrite get_sub by lia. replace (s' + (len (sub x s' (p + 1)) - 1)) with p by lia.
      exact Pp. }
  rewrite (clause_trim sep sep_not_blank _ C) in St.
  inversion St; subst seg next; clear St.
  repeat split; try apply C; try lia.
  - rewrite <- (sub_split x s' (p + 1) (len x)) by lia.
    rewrite <- (sub_split x 0 s' (len x)) by lia. now rewrite sub_full.
  - rewrite len_sub by lia. lia.
Qed.

Hypothesis x_ends : endsClean x = true.

Lemma step_Tail_plain s seg :
  0 <= s < len x -> smartStep x maxLen sep s = Tail seg ->
  seg = sub x (skipWs x s) (len x) /\ seg <> []
  /\ skipWs x s < len x
  /\ noNewline seg = true /\ endsClean seg = true.
Proof.
  intros Hs St. rewrite smartStep_opt in St by lia. cbv zeta in St.
  destruct (skipWs_range x s ltac:(lia)) as [R1 R2].
  set (s' := skipWs x s) in *.
  destruct (Z.leb_spec (len x) s'); [discriminate|].
  destruct (nextSplitOpt x s' maxLen sep) as [p|] eqn:E; [discriminate|].
  assert (x <> []) as Hx by (intros N; rewrite N in Hs; cbn in Hs; lia).
  pose proof (endsClean_get x x_ends Hx) as Hl.
  assert (len (sub x s' (len x)) = len x - s') as L by (apply len_sub; lia).
  assert (sub x s' (len x) <> []) as Hne
    by (intros N; rewrite N in L; cbn in L; lia).
  assert (isTrimSpace (get (sub x s' (len x)) (len (sub x s' (len x)) - 1)) = false)
    as Hlast.
  { rewrite get_sub by lia. replace (s' + (len (sub x s' (len x)) - 1))
      with (len x - 1) by lia. exact Hl. }
  rewrite trimList_id in St; [| exact Hne | | exact Hlast].
  2:{ rewrite get_sub by lia. rewrite Z.add_0_r. apply R2. lia. }
  inversion St; subst seg. repeat split; try assumption.
  - apply noNewline_intro. intros j Hj. rewrite get_sub by lia.
    apply (noNewline_get x x_plain). lia.
  - now apply endsClean_intro.
Qed.

Lemma step_Done_plain s :
  0 <= s < len x -> smartStep x maxLen sep s <> Done.
Proof.
  intros Hs St. apply smartStep_Done in St; [|lia].
  assert (x <> []) as Hx by (intros N; rewrite N in Hs; cbn in Hs; lia).
  pose proof (endsClean_get x x_ends Hx) as Hl.
  rewrite (skipWs_blank x s (len x - 1)) in Hl by lia. discriminate.
Qed.

Lemma joined_clean rem :
  joined minLen sep rem -> noNewline rem = true /\ endsClean rem = true.
Proof.
  induction 1 as [|rem r J [IH1 IH2] C A]; [split; reflexivity|].
  pose proof C as (Hne & H0 & Hnl & _).
  rewrite deferSegment_nonempty by exact Hne.
  split.
  - rewrite noNewline_app. apply andb_true_iff. split.
    + destruct rem; [reflexivity|]. cbn [isEmpty].
      rewrite noNewline_app, IH1. reflexivity.
    + now apply noNewline_intro.
  - rewrite endsClean_app by exact Hne.
    apply endsClean_intro; [exact Hne|]. apply (clause_last sep sep_not_blank r C).
Qed.
End PlainSteps.

(** ** Cutting a text after a clean chunk *)

Section TwoChunks.
Variables (minLen maxLen : Z) (sep : runeMap).
Hypothesis maxLen_nonneg : 0 <= maxLen.
Hypothesis sep_not_blank : forall c, mapGet sep c = true -> isBlank c = false.
Variables (x Y : Text).
Hypothesis x_plain : noNewline x = true.
Hypothesis x_ends : endsClean x = true.

Local Abbreviation run := (runs minLen maxLen sep).

(** A candidate found in [x] is found in [x ++ Y] as well. *)
Lemma step_Seg_extends s seg next :
  0 <= s < len x -> smartStep x maxLen sep s = Seg seg next ->
  smartStep (x ++ Y) maxLen sep s = Seg seg next /\ clause sep seg.
Proof.
  intros Hs St.
  destruct (step_Seg_plain maxLen sep maxLen_nonneg sep_not_blank x x_plain
              s seg next Hs St) as (C & Ex & En & Hlt).
  destruct (skipWs_range x s ltac:(lia)) as [R1 _].
  split; [|exact C].
  set (A0 := sub x 0 (skipWs x s)) in *. set (Z0 := sub x next (len x)) in *.
  assert (len A0 = skipWs x s) as LA
    by (unfold A0; rewrite len_sub by lia; lia).
  assert (x ++ Y = A0 ++ seg ++ (Z0 ++ Y)) as ET
    by (rewrite Ex at 1; rewrite <- !app_assoc; reflexivity).
  rewrite ET.
  rewrite (step_clause maxLen sep maxLen_nonneg sep_not_blank A0 seg (Z0 ++ Y) s);
    [f_equal; lia | lia | | exact C].
  intros j Hj. unfold A0. rewrite <- (Z.add_0_l j), get_sub by lia.
  apply (skipWs_blank x s); lia.
Qed.

(** The run over [x] alone, then over its remainder followed by [Y], emits
    what the run over [x ++ Y] emits, and leaves no more. *)
Lemma chunk_runs s ss rem out1 :
  run x s ss rem out1 -> 0 <= s <= len x -> joined minLen sep rem ->
  noNewline (snd out1) = true /\ endsClean (snd out1) = true
  /\ forall outT out2,
       run (x ++ Y) s ss rem outT -> run (snd out1 ++ Y) 0 [] [] out2 ->
       fst outT = fst out1 ++ fst out2 /\ len (snd out2) <= len (snd outT).
Proof.
  induction 1 as [s ss rem L|s ss rem L St|s ss rem seg L St
                 |s ss rem seg next out L St A R IH
                 |s ss rem seg next out L St A R IH]; intros Hs J.
  - destruct (joined_clean minLen sep sep_not_blank rem J) as [C1 C2].
    cbn [fst snd]. repeat split; try assumption.
    + destruct (runs_total minLen maxLen sep maxLen_nonneg Y 0 ss rem) as [outY RY];
        [lia|].
      pose proof (runs_shift minLen maxLen sep x Y 0 ss rem outY
                    maxLen_nonneg RY ltac:(lia)) as RS.
      rewrite Z.add_0_r in RS. replace s with (len x) in H by lia.
      rewrite (runs_det _ _ _ _ _ _ _ _ H _ RS).
      destruct (runs_sentences _ _ _ _ _ _ _ _ RY) as (new & E & F).
      destruct (F [] rem) as (rem0 & R0 & M).
      pose proof (runs_shift minLen maxLen sep rem Y 0 [] rem _
                    maxLen_nonneg R0 ltac:(lia)) as RS2.
      rewrite Z.add_0_r in RS2.
      apply (runs_rejoin minLen maxLen sep maxLen_nonneg sep_not_blank rem J) in RS2.
      rewrite (runs_det _ _ _ _ _ _ _ _ H0 _ RS2). cbn [fst app]. exact E.
    + destruct (runs_total minLen maxLen sep maxLen_nonneg Y 0 ss rem) as [outY RY];
        [lia|].
      pose proof (runs_shift minLen maxLen sep x Y 0 ss rem outY
                    maxLen_nonneg RY ltac:(lia)) as RS.
      rewrite Z.add_0_r in RS. replace s with (len x) in H by lia.
      rewrite (runs_det _ _ _ _ _ _ _ _ H _ RS).
      destruct (runs_sentences _ _ _ _ _ _ _ _ RY) as (new & E & F).
      destruct (F [] rem) as (rem0 & R0 & M).
      pose proof (runs_shift minLen maxLen sep rem Y 0 [] rem _
                    maxLen_nonneg R0 ltac:(lia)) as RS2.
      rewrite Z.add_0_r in RS2.
      apply (runs_rejoin minLen maxLen sep maxLen_nonneg sep_not_blank rem J) in RS2.
      rewrite (runs_det _ _ _ _ _ _ _ _ H0 _ RS2). cbn [snd]. apply M. lia.
  - exfalso. apply (step_Done_plain maxLen sep x x_ends s); [lia | exact St].
  - destruct (step_Tail_plain maxLen sep maxLen_nonneg x x_plain x_ends s seg
                ltac:(lia) St) as (Hseg & Hne & Hlt & C1 & C2).
    rewrite len_pos_nonempty by exact Hne. cbn [fst snd].
    split; [exact C1|]. split; [exact C2|].
    intros outT out2 RT R2.
    destruct (skipWs_range x s Hs) as [R1 _].
    destruct (runs_total minLen maxLen sep maxLen_nonneg (seg ++ Y) 0 ss rem)
      as [outX RX]; [lia|].
    pose proof (runs_shift minLen maxLen sep (sub x 0 (skipWs x s)) (seg ++ Y)
                  0 ss rem outX maxLen_nonneg RX ltac:(lia)) as RS.
    rewrite Z.add_0_r, len_sub in RS by lia. rewrite Z.sub_0_r in RS.
    assert (sub x 0 (skipWs x s) ++ seg ++ Y = x ++ Y) as E.
    { rewrite app_assoc. f_equal. rewrite Hseg.
      rewrite <- (sub_split x 0 (skipWs x s) (len x)) by lia. apply sub_full. }
    rewrite E in RS.
    rewrite <- (skipWs_app_l x Y s Hs Hlt) in RS.
    apply runs_skip in RS; [|rewrite len_app; pose proof (len_nonneg Y); lia].
    rewrite (runs_det _ _ _ _ _ _ _ _ RT _ RS).
    destruct (runs_sentences _ _ _ _ _ _ _ _ RX) as (new & En & F).
    destruct (F [] []) as (rem0 & R0 & M).
    rewrite (runs_det _ _ _ _ _ _ _ _ R2 _ R0). cbn [fst snd app].
    split; [exact En|]. apply M. cbn. apply len_nonneg.
  - destruct (step_Seg_extends s seg next ltac:(lia) St) as [StT C].
    destruct (smartStep_Seg x maxLen sep s seg next Hs maxLen_nonneg St)
      as (Rg & Hn & _).
    destruct (IH ltac:(lia) J) as (C1 & C2 & K).
    split; [exact C1|]. split; [exact C2|].
    intros outT out2 RT R2.
    destruct (runs_total minLen maxLen sep maxLen_nonneg (x ++ Y) next
                (ss ++ [seg]) rem) as [outN RN]; [lia|].
    assert (run (x ++ Y) s ss rem outN) as RT'.
    { eapply runs_accept; [rewrite len_app; pose proof (len_nonneg Y); lia
                          | exact StT | exact A | exact RN]. }
    rewrite (runs_det _ _ _ _ _ _ _ _ RT _ RT'). now apply K.
  - destruct (step_Seg_extends s seg next ltac:(lia) St) as [StT C].
    destruct (smartStep_Seg x maxLen sep s seg next Hs maxLen_nonneg St)
      as (Rg & Hn & _).
    destruct (IH ltac:(lia) (joined_defer minLen sep rem seg J C A))
      as (C1 & C2 & K).
    split; [exact C1|]. split; [exact C2|].
    intros outT out2 RT R2.
    destruct (runs_total minLen maxLen sep maxLen_nonneg (x ++ Y) next
                ss (deferSegment rem seg)) as [outN RN]; [lia|].
    assert (run (x ++ Y) s ss rem outN) as RT'.
    { eapply runs_reject; [rewrite len_app; pose proof (len_nonneg Y); lia
                          | exact StT | exact A | exact RN]. }
    rewrite (runs_det _ _ _ _ _ _ _ _ RT _ RT'). now apply K.
Qed.
End TwoChunks.

(** ** Feeding chunks *)

Lemma selectSeparators_not_blank isFirst c :
  mapGet (selectSeparators isFirst) c = true -> isBlank c = false.
Proof.
  unfold isBlank, r_space, r_tab.
  destruct (Z.eqb_spec c 32) as [->|]; [destruct isFirst; discriminate|].
  destruct (Z.eqb_spec c 9) as [->|]; [destruct isFirst; discriminate|].
  reflexivity.
Qed.

Lemma ExtractSmartSentences_runs alloc text minLen maxLen isFirst :
  0 <= maxLen < 2 ^ 62 -> alloc (maxLen * 2) = true ->
  len text + maxLen <= maxInt64 ->
  exists out,
    ExtractSmartSentences alloc text minLen maxLen isFirst = Ok out
    /\ runs minLen maxLen (selectSeparators isFirst) text 0 [] [] out.
Proof.
  intros Hm Ha Ho. rewrite ExtractSmartSentences_loop by assumption.
  pose proof (len_nonneg text) as L.
  destruct (smartLoop_returns text minLen maxLen (selectSeparators isFirst)
              ltac:(lia) Ho (S (length text)) 0 [] [])
    as [out E]; [lia | unfold len; lia |].
  exists out. split; [exact E|].
  eapply smartLoop_runs; [lia | exact Ho | | exact E]. lia.
Qed.

Section Feed.
Variables (alloc : Z -> bool) (minLen maxLen : Z) (isFirst : bool).
Hypothesis maxLen_range : 0 <= maxLen < 2 ^ 62.
Hypothesis buffer_provided : alloc (maxLen * 2) = true.

Local Abbreviation sep := (selectSeparators isFirst).
Local Abbreviation run := (runs minLen maxLen sep).

Local Abbreviation fed := (fedSoFar minLen maxLen sep).

Lemma feedChunks_whole : forall chunks P rem ssP,
  chunks <> [] -> cleanCuts chunks = true -> fed P rem ssP ->
  2 * len (P ++ concat chunks) + maxLen <= maxInt64 ->
  exists ss' rem',
    feedChunks alloc minLen maxLen isFirst rem chunks = Ok (ss', rem')
    /\ exists remT, run (P ++ concat chunks) 0 [] [] (ssP ++ ss', remT).
Proof.
  assert (0 <= maxLen) as Hm by lia.
  induction chunks as [|c rest IH]; intros P rem ssP Hne Hc F Hb; [congruence|].
  destruct F as (F1 & F2 & F3 & F4).
  pose proof (len_nonneg P) as LP. pose proof (len_nonneg c) as Lc.
  pose proof (len_nonneg (concat rest)) as Lr.
  cbn [concat] in Hb. rewrite !len_app in Hb.
  destruct (ExtractSmartSentences_runs alloc (rem ++ c) minLen maxLen isFirst
              maxLen_range buffer_provided) as ([ss1 rem1] & E1 & R1);
    [rewrite len_app; lia|].
  cbn [feedChunks]. rewrite E1. cbn [bind fst snd].
  destruct rest as [|c2 rest'].
  - cbn [feedChunks bind fst snd concat]. exists (ss1 ++ []), rem1.
    split; [reflexivity|]. rewrite !app_nil_r.
    destruct (runs_total minLen maxLen sep Hm (P ++ c) 0 [] []) as [outT RT]; [lia|].
    destruct (F4 c outT (ss1, rem1) RT R1) as [Es _]. cbn [fst] in Es.
    exists (snd outT). rewrite <- Es. now destruct outT.
  - cbn [cleanCuts] in Hc.
    apply andb_true_iff in Hc. destruct Hc as [Hc Hrest].
    apply andb_true_iff in Hc. destruct Hc as [Hc1 Hc2].
    assert (noNewline (rem ++ c) = true) as X1
      by (rewrite noNewline_app, F1, Hc1; reflexivity).
    assert (endsClean (rem ++ c) = true) as X2.
    { destruct c as [|y c']; [now rewrite app_nil_r|].
      rewrite endsClean_app by discriminate. exact Hc2. }
    assert (fed (P ++ c) rem1 (ssP ++ ss1)) as F'.
    { destruct (chunk_runs minLen maxLen sep Hm (selectSeparators_not_blank isFirst)
                  (rem ++ c) [] X1 X2 0 [] [] (ss1, rem1) R1
                  ltac:(rewrite len_app; pose proof (len_nonneg rem); lia)
                  (joined_nil minLen sep)) as (C1 & C2 & _).
      cbn [snd] in C1, C2. repeat split; try assumption.
      - destruct (runs_total minLen maxLen sep Hm (P ++ c) 0 [] []) as [outT RT];
          [lia|].
        destruct (F4 c outT (ss1, rem1) RT R1) as [_ Hl]. cbn [snd] in Hl.
        assert (len (snd outT) <= 2 * len (P ++ c)) as B.
        { apply (runs_remainder_bound minLen maxLen sep Hm (P ++ c) 0 [] [] outT RT);
            [rewrite len_app; lia | rewrite len_nil; lia]. }
        lia.
      - destruct (runs_total minLen maxLen sep Hm ((rem ++ c) ++ Y) 0 [] [])
          as [outM RM]; [lia|].
        rewrite <- app_assoc in H.
        pose proof RM as RM'. rewrite <- app_assoc in RM'.
        destruct (F4 (c ++ Y) outT outM H RM') as [Es _].
        destruct (chunk_runs minLen maxLen sep Hm (selectSeparators_not_blank isFirst)
                    (rem ++ c) Y X1 X2 0 [] [] (ss1, rem1) R1
                    ltac:(rewrite len_app; pose proof (len_nonneg rem); lia)
                    (joined_nil minLen sep)) as (_ & _ & K).
        destruct (K outM out2 RM H0) as [Es2 _]. cbn [fst] in Es2.
        rewrite Es, Es2. now rewrite app_assoc.
      - destruct (runs_total minLen maxLen sep Hm ((rem ++ c) ++ Y) 0 [] [])
          as [outM RM]; [lia|].
        rewrite <- app_assoc in H.
        pose proof RM as RM'. rewrite <- app_assoc in RM'.
        destruct (F4 (c ++ Y) outT outM H RM') as [_ Hl1].
        destruct (chunk_runs minLen maxLen sep Hm (selectSeparators_not_blank isFirst)
                    (rem ++ c) Y X1 X2 0 [] [] (ss1, rem1) R1
                    ltac:(rewrite len_app; pose proof (len_nonneg rem); lia)
                    (joined_nil minLen sep)) as (_ & _ & K).
        destruct (K outM out2 RM H0) as [_ Hl2]. lia. }
    destruct (IH (P ++ c) rem1 (ssP ++ ss1) ltac:(discriminate) Hrest F')
      as (ss' & rem' & Ef & remT & RT).
    { rewrite <- app_assoc, !len_app. lia. }
    rewrite Ef. cbn [bind fst snd]. exists (ss1 ++ ss'), rem'.
    split; [reflexivity|]. exists remT.
    replace (P ++ concat (c :: c2 :: rest'))
      with ((P ++ c) ++ concat (c2 :: rest'))
      by (rewrite (concat_cons c), app_assoc; reflexivity).
    rewrite (app_assoc ssP ss1 ss'). exact RT.
Qed.
End Feed.

(** ** The ordinal guard and the backward scan *)

Lemma skipBlanksBack_stop fuel : forall text start,
  -1 <= start < len text -> (Z.to_nat (start + 1) < fuel)%nat ->
  exists s1,
    skipBlanksBack fuel text start = Ok s1
    /\ -1 <= s1 <= start
    /\ (forall j, s1 < j <= start -> isBlank (get text j) = true)
    /\ (0 <= s1 -> isBlank (get text s1) = false).
Proof.
  induction fuel as [|fuel IH]; intros text start Hs Hf; [lia|].
  cbn [skipBlanksBack].
  destruct (Z.leb_spec 0 start).
  - rewrite index_get by lia. cbn [bind].
    destruct (isBlank (get text start)) eqn:B.
    + destruct (IH text (start - 1)) as (s1 & E & R & Hb & Hn); try lia.
      exists s1. repeat split; try lia; try assumption.
      intros j Hj. destruct (Z.eq_dec j start); [now subst | apply Hb; lia].
    + exists start. repeat split; try reflexivity; try lia;
        intros; (lia || assumption).
  - exists start. repeat split; try reflexivity; try lia;
      intros; (lia || assumption).
Qed.

Lemma countDigitsBack_stop fuel : forall text start digitCount foundDigit,
  -1 <= start < len text -> (Z.to_nat (start + 1) < fuel)%nat ->
  0 <= digitCount <= 3 ->
  (countDigitsBack fuel text start digitCount foundDigit = Ok None
   /\ 0 <= start - (3 - digitCount)
   /\ forall j, start - (3 - digitCount) <= j <= start ->
                isAsciiDigit (get text j) = true)
  \/ (exists s2,
        countDigitsBack fuel text start digitCount foundDigit
        = Ok (Some (s2, foundDigit || (s2 <? start)))
        /\ -1 <= s2 <= start /\ start - s2 + digitCount <= 3
        /\ (forall j, s2 < j <= start -> isAsciiDigit (get text j) = true)
        /\ (0 <= s2 -> isAsciiDigit (get text s2) = false)).
Proof.
  induction fuel as [|fuel IH]; intros text start dc fd Hs Hf Hd; [lia|].
  cbn [countDigitsBack].
  destruct (Z.leb_spec 0 start).
  - rewrite index_get by lia. cbn [bind].
    destruct (isAsciiDigit (get text start)) eqn:D.
    + destruct (Z.ltb_spec 3 (dc + 1)).
      * left. repeat split; try reflexivity; try lia.
        intros j Hj. replace j with start by lia. exact D.
      * destruct (IH text (start - 1) (dc + 1) true) as [(E & R & Hall)|(s2 & E & R & Hc & Hall & Hn)];
          try lia.
        -- left. repeat split; [exact E | lia |].
           intros j Hj. destruct (Z.eq_dec j start); [now subst | apply Hall; lia].
        -- right. exists s2. rewrite E. repeat split; try lia; try assumption.
           ++ f_equal. f_equal. f_equal.
              destruct (Z.ltb_spec s2 start); [|lia]. now rewrite orb_true_r.
           ++ intros j Hj. destruct (Z.eq_dec j start); [now subst | apply Hall; lia].
    + right. exists start. rewrite Z.ltb_irrefl, orb_false_r.
      repeat split; try reflexivity; try lia; intros; (lia || assumption).
  - right. exists start. rewrite Z.ltb_irrefl, orb_false_r.
    repeat split; try reflexivity; try lia; intros; (lia || assumption).
Qed.

Lemma digit_not_blank c : isAsciiDigit c = true -> isTrimSpace c = false.
Proof.
  unfold isAsciiDigit, isTrimSpace, r_0, r_9, r_space, r_tab, r_nl. intros H.
  apply andb_true_iff in H. destruct H as [H1 H2].
  apply Z.leb_le in H1. apply Z.leb_le in H2.
  destruct (Z.eqb_spec c 32), (Z.eqb_spec c 9), (Z.eqb_spec c 10); lia || reflexivity.
Qed.

Lemma blank_is_space c : isBlank c = true -> isTrimSpace c = true.
Proof. intros H. rewrite isTrimSpace_split, H. reflexivity. Qed.

(** [isNumberPrefix] recognises exactly the ordinal periods. *)
Lemma isNumberPrefix_ordinal text pos :
  0 <= pos < len text ->
  (isNumberPrefix text pos = Ok true <-> ordinalPeriod text pos).
Proof.
  intros Hp. unfold isNumberPrefix, ordinalPeriod.
  destruct (Z.leb_spec pos 0) as [Lp|Lp].
  { split; [discriminate|]. intros (_ & b & d & Hb & Hd & H0 & _). lia. }
  rewrite index_get by lia. cbn [bind].
  destruct (Z.eqb_spec (get text pos) r_dot) as [Dot|Dot]; cbn [negb].
  2:{ split; [discriminate|]. intros (D & _). contradiction. }
  destruct (skipBlanksBack_stop (S (length text)) text (pos - 1))
    as (s1 & E1 & R1 & B1 & N1); [lia | unfold len in *; lia |].
  rewrite E1. cbn [bind].
  destruct (countDigitsBack_stop (S (length text)) text s1 0 false)
    as [(E2 & R2 & A2)|(s2 & E2 & R2 & C2 & A2 & N2)];
    [lia | unfold len in *; lia | lia | |]; rewrite E2; cbn [bind orb].
  - (* four digits or more *)
    split; [discriminate|].
    intros (_ & b & d & Hb & Hd & H0 & Bl & Dg & Pre). exfalso.
    assert (s1 = pos - b - 1) as ->.
    { destruct (Z.lt_trichotomy s1 (pos - b - 1)) as [L|[Eq|G]]; [|exact Eq|].
      - specialize (B1 (pos - b - 1) ltac:(lia)).
        specialize (Dg (pos - b - 1) ltac:(lia)).
        apply digit_not_blank in Dg. apply blank_is_space in B1. congruence.
      - specialize (Bl s1 ltac:(lia)). rewrite N1 in Bl by lia. discriminate. }
    destruct (Z.eq_dec (pos - b - d) 0) as [Z0|NZ]; [lia|].
    specialize (Pre ltac:(lia)).
    specialize (A2 (pos - b - d - 1) ltac:(lia)).
    apply digit_not_blank in A2. congruence.
  - split.
    + intros Hr. split; [exact Dot|].
      exists (pos - 1 - s1), (s1 - s2).
      assert ((s2 <? s1) = true /\ (0 <= s2 -> isTrimSpace (get text s2) = true))
        as [Fd Pre].
      { destruct (Z.leb_spec 0 s2).
        - rewrite index_get in Hr by lia. cbn [bind] in Hr.
          unfold isTrimSpace.
          destruct (get text s2 =? r_space), (get text s2 =? r_tab),
                   (get text s2 =? r_nl); cbn in Hr |- *;
            try discriminate; inversion Hr as [Hfd]; rewrite Hfd; auto.
        - inversion Hr as [Hfd]. rewrite Hfd. split; [reflexivity | lia]. }
      apply Z.ltb_lt in Fd.
      repeat split; try lia.
      * intros j Hj. apply B1. lia.
      * intros j Hj. apply A2. lia.
      * intros Hpos. replace (pos - (pos - 1 - s1) - (s1 - s2) - 1) with s2 by lia.
        apply Pre. lia.
    + intros (_ & b & d & Hb & Hd & H0 & Bl & Dg & Pre).
      assert (s1 = pos - b - 1) as ->.
      { destruct (Z.lt_trichotomy s1 (pos - b - 1)) as [L|[Eq|G]]; [|exact Eq|].
        - specialize (B1 (pos - b - 1) ltac:(lia)).
          specialize (Dg (pos - b - 1) ltac:(lia)).
          apply digit_not_blank in Dg. apply blank_is_space in B1. congruence.
        - specialize (Bl s1 ltac:(lia)). rewrite N1 in Bl by lia. discriminate. }
      assert (s2 = pos - b - d - 1) as ->.
      { destruct (Z.lt_trichotomy s2 (pos - b - d - 1)) as [L|[Eq|G]]; [|exact Eq|].
        - specialize (A2 (pos - b - d - 1) ltac:(lia)).
          specialize (Pre ltac:(lia)).
          apply digit_not_blank in A2. congruence.
        - specialize (Dg s2 ltac:(lia)). rewrite N2 in Dg by lia. discriminate. }
      destruct (Z.ltb_spec (pos - b - d - 1) (pos - b - 1)); [|lia].
      destruct (Z.leb_spec 0 (pos - b - d - 1)); [|reflexivity].
      rewrite index_get by lia. cbn [bind].
      specialize (Pre ltac:(lia)). unfold isTrimSpace in Pre.
      destruct (get text (pos - b - d - 1) =? r_space),
               (get text (pos - b - d - 1) =? r_tab),
               (get text (pos - b - d - 1) =? r_nl); cbn in Pre |- *;
        try reflexivity; discriminate.
Qed.

(** The backward scan returns the last separator that is not an ordinal
    period, or -1 when there is none. *)
Lemma lastPunctLoop_scan sep fuel : forall text i,
  -1 <= i < len text -> (Z.to_nat (i + 1) < fuel)%nat ->
  exists r, lastPunctLoop fuel text sep i = Ok r
            /\ (r = -1 \/ (0 <= r <= i /\ backwardBoundary sep text r = true))
            /\ forall j, r < j <= i -> backwardBoundary sep text j = false.
Proof.
  induction fuel as [|fuel IH]; intros text i Hi Hf; [lia|].
  cbn [lastPunctLoop].
  destruct (Z.leb_spec 0 i).
  2:{ exists (-1). repeat split; [now left | intros; lia]. }
  rewrite index_get by lia. cbn [bind].
  assert (backwardBoundary sep text i = false ->
          exists r, lastPunctLoop fuel text sep (i - 1) = Ok r
            /\ (r = -1 \/ (0 <= r <= i /\ backwardBoundary sep text r = true))
            /\ forall j, r < j <= i -> backwardBoundary sep text j = false) as Next.
  { intros Bf. destruct (IH text (i - 1)) as (r & E & B & N); try lia.
    exists r. repeat split; [exact E | | ].
    - destruct B as [B|[B1 B2]]; [now left | right; split; [lia | exact B2]].
    - intros j Hj. destruct (Z.eq_dec j i); [now subst | apply N; lia]. }
  destruct (mapGet sep (get text i)) eqn:M.
  2:{ apply Next. unfold backwardBoundary. now rewrite M. }
  destruct (get text i =? r_dot) eqn:D.
  - destruct (isNumberPrefix_returns text i) as (b & E); [lia|].
    rewrite E. cbn [bind]. destruct b.
    + apply Next. unfold backwardBoundary, isOrdinalAt. now rewrite M, D, E.
    + exists i. repeat split; [| intros; lia].
      right. split; [lia|]. unfold backwardBoundary, isOrdinalAt.
      now rewrite M, D, E.
  - cbn [bind]. exists i. repeat split; [| intros; lia].
    right. split; [lia|]. unfold backwardBoundary. now rewrite M, D.
Qed.

Lemma findLastPunctuation_scan text sep :
  exists r, findLastPunctuation text sep = Ok r
            /\ (r = -1 \/ (0 <= r < len text /\ backwardBoundary sep text r = true))
            /\ forall j, r < j < len text -> backwardBoundary sep text j = false.
Proof.
  unfold findLastPunctuation.
  destruct (lastPunctLoop_scan sep (S (length text)) text (len text - 1))
    as (r & E & B & N); try (unfold len; lia).
  exists r. repeat split; [exact E | | intros j Hj; apply N; lia].
  destruct B as [B|[B1 B2]]; [now left | right; split; [lia | exact B2]].
Qed.

(** * Further properties of the code

    Where [ExtractSmartSentences] is to return a result, [maxLen] is taken
    in [0, 2^62) and the text has at most 2^62 runes, so that [maxLen * 2]
    and [startPos + maxLen] stay inside 64 bits, and the runtime provides
    the buffer of [maxLen * 2] bytes ([alloc (maxLen * 2) = true]). *)

(** ** IsNumberWithDot *)

Lemma utf8_rune_ascii r : 0 <= r < 128 -> utf8_rune r = [r].
Proof.
  intros H. unfold utf8_rune.
  replace (r <? 0) with false by (symmetry; apply Z.ltb_ge; lia).
  replace (1114111 <? r) with false by (symmetry; apply Z.ltb_ge; lia).
  replace (55296 <=? r) with false by (symmetry; apply Z.leb_gt; lia).
  cbn [orb andb].
  replace (r <? 128) with true by (symmetry; apply Z.ltb_lt; lia).
  reflexivity.
Qed.

(** The encoding of a rune outside ASCII starts with a byte above 127. *)
Lemma utf8_rune_high r :
  ~ (0 <= r < 128) -> exists b bs, utf8_rune r = b :: bs /\ 128 <= b.
Proof.
  intros H. unfold utf8_rune.
  destruct ((r <? 0) || (1114111 <? r) || ((55296 <=? r) && (r <=? 57343))) eqn:E.
  - eexists _, _; split; [reflexivity | lia].
  - apply orb_false_iff in E. destruct E as [E _].
    apply orb_false_iff in E. destruct E as [E1 E2].
    apply Z.ltb_ge in E1. apply Z.ltb_ge in E2.
    destruct (Z.ltb_spec r 128); [lia|].
    destruct (Z.ltb_spec r 2048).
    + eexists _, _; split; [reflexivity|].
      assert (0 <= r / 64) by (apply Z.div_pos; lia). lia.
    + destruct (Z.ltb_spec r 65536).
      * eexists _, _; split; [reflexivity|].
        assert (0 <= r / 4096) by (apply Z.div_pos; lia). lia.
      * eexists _, _; split; [reflexivity|].
        assert (0 <= r / 262144) by (apply Z.div_pos; lia). lia.
Qed.

Lemma utf8_ascii t :
  forallb (fun r => (0 <=? r) && (r <? 128)) t = true -> utf8 t = t.
Proof.
  induction t as [|r t IH]; [reflexivity|]. cbn [forallb].
  intros H. apply andb_true_iff in H. destruct H as [H1 H2].
  apply andb_true_iff in H1. destruct H1 as [Ha Hb].
  apply Z.leb_le in Ha. apply Z.ltb_lt in Hb.
  unfold utf8 in *. cbn [flat_map]. rewrite IH by exact H2.
  rewrite utf8_rune_ascii by lia. reflexivity.
Qed.

Lemma utf8_low t :
  forallb (fun b => b <? 128) (utf8 t) = true ->
  forallb (fun r => (0 <=? r) && (r <? 128)) t = true.
Proof.
  induction t as [|r t IH]; [reflexivity|].
  unfold utf8 in *. cbn [flat_map]. rewrite forallb_app.
  intros H. apply andb_true_iff in H. destruct H as [H1 H2].
  cbn [forallb]. rewrite (IH H2), andb_true_r.
  destruct (Z.leb_spec 0 r); destruct (Z.ltb_spec r 128); try reflexivity; exfalso.
  - destruct (utf8_rune_high r) as (b & bs & E & Hb); [lia|].
    rewrite E in H1. cbn [forallb] in H1. apply andb_true_iff in H1.
    destruct H1 as [H1 _]. apply Z.ltb_lt in H1. lia.
  - destruct (utf8_rune_high r) as (b & bs & E & Hb); [lia|].
    rewrite E in H1. cbn [forallb] in H1. apply andb_true_iff in H1.
    destruct H1 as [H1 _]. apply Z.ltb_lt in H1. lia.
  - destruct (utf8_rune_high r) as (b & bs & E & Hb); [lia|].
    rewrite E in H1. cbn [forallb] in H1. apply andb_true_iff in H1.
    destruct H1 as [H1 _]. apply Z.ltb_lt in H1. lia.
Qed.

(** The digit loop tests the bytes before the last. *)
Lemma allDigitBytes_spec fuel : forall trimmed i,
  0 <= i <= len trimmed - 1 -> (Z.to_nat (len trimmed - 1 - i) < fuel)%nat ->
  allDigitBytes fuel trimmed i
  = Ok (forallb unicode_IsDigit_latin1 (sub trimmed i (len trimmed - 1))).
Proof.
  induction fuel as [|fuel IH]; intros trimmed i Hi Hf; [lia|].
  cbn [allDigitBytes].
  destruct (Z.ltb_spec i (len trimmed - 1)).
  - rewrite index_get by lia. cbn [bind].
    rewrite (sub_cons trimmed i (len trimmed - 1)) by lia. cbn [forallb].
    destruct (unicode_IsDigit_latin1 (get trimmed i)); cbn [negb andb]; [|reflexivity].
    apply IH; lia.
  - rewrite sub_nil by lia. reflexivity.
Qed.

Lemma digit_is_ascii r : isAsciiDigit r = true -> (0 <=? r) && (r <? 128) = true.
Proof.
  unfold isAsciiDigit, r_0, r_9. intros H. apply andb_true_iff in H.
  destruct H as [H1 H2]. apply Z.leb_le in H1. apply Z.leb_le in H2.
  apply andb_true_iff. split; [apply Z.leb_le | apply Z.ltb_lt]; lia.
Qed.

Lemma forallb_impl {A} (p q : A -> bool) l :
  (forall x, p x = true -> q x = true) -> forallb p l = true -> forallb q l = true.
Proof.
  intros Hpq. induction l as [|x l IH]; [reflexivity|]. cbn [forallb].
  intros H. apply andb_true_iff in H. destruct H as [H1 H2].
  rewrite (Hpq _ H1), (IH H2). reflexivity.
Qed.

Lemma sub_init_last (t : Text) :
  t <> [] -> t = sub t 0 (len t - 1) ++ [get t (len t - 1)].
Proof.
  intros Hne. pose proof (nonempty_len t Hne).
  rewrite <- (sub_snoc t 0 (len t - 1)) by lia.
  replace (len t - 1 + 1) with (len t) by lia. symmetry. apply sub_full.
Qed.

Lemma IsNumberWithDot_label (s : Text) :
  IsNumberWithDot s = Ok true <->
  exists digits,
    digits <> [] /\ forallb isAsciiDigit digits = true
    /\ strings_TrimSpace s = digits ++ [r_dot].
Proof.
  unfold IsNumberWithDot. set (t := strings_TrimSpace s). split.
  - destruct (Z.ltb_spec (len (utf8 t)) 2) as [|L]; [discriminate|].
    rewrite index_get by lia. cbn [bind].
    destruct (Z.eqb_spec (get (utf8 t) (len (utf8 t) - 1)) r_dot) as [El|];
      cbn [negb]; [|discriminate].
    rewrite allDigitBytes_spec by (unfold len in *; lia).
    intros H. injection H as H.
    assert (utf8 t <> []) as Hne by (intros E; rewrite E in L; cbn in L; lia).
    pose proof (sub_init_last _ Hne) as Eb. rewrite El in Eb.
    assert (forallb (fun b => b <? 128) (utf8 t) = true) as Hlow.
    { rewrite Eb, forallb_app. apply andb_true_iff. split; [|reflexivity].
      revert H. apply forallb_impl. intros x Hx.
      apply digit_is_ascii in Hx. apply andb_true_iff in Hx. tauto. }
    rewrite (utf8_ascii t (utf8_low t Hlow)) in *.
    exists (sub t 0 (len t - 1)). split; [|split; [exact H | exact Eb]].
    intros E. rewrite E in Eb. rewrite Eb in L. cbn in L. lia.
  - intros (digits & Hne & Hd & Et).
    assert (utf8 t = t) as Eu.
    { apply utf8_ascii. rewrite Et, forallb_app. apply andb_true_iff.
      split; [|reflexivity]. revert Hd. apply forallb_impl, digit_is_ascii. }
    rewrite Eu. pose proof (nonempty_len digits Hne) as Ld.
    assert (len t = len digits + 1) as Lt by (rewrite Et, len_app; reflexivity).
    destruct (Z.ltb_spec (len t) 2); [lia|].
    rewrite index_get by lia. cbn [bind].
    assert (get t (len t - 1) = r_dot) as El.
    { rewrite Lt, Et, get_app_r by lia.
      replace (len digits + 1 - 1 - len digits) with 0 by lia. reflexivity. }
    rewrite El, Z.eqb_refl. cbn [negb].
    rewrite allDigitBytes_spec by (unfold len in *; lia).
    f_equal. rewrite Et at 1. rewrite sub_app_l by lia.
    replace (len t - 1) with (len digits) by lia. rewrite sub_full. exact Hd.
Qed.

(** X1: [IsNumberWithDot] accepts exactly the strings that, trimmed of
    white space, are one or more ASCII digits followed by a period.  The
    digits are tested byte by byte, so no rune outside ASCII passes (a
    full-width digit is not accepted). *)
Theorem IsNumberWithDot_digits_then_dot (s : Text) :
  IsNumberWithDot s = Ok true <->
  exists digits,
    digits <> [] /\ forallb isAsciiDigit digits = true
    /\ strings_TrimSpace s = digits ++ [r_dot].
Proof. exact (IsNumberWithDot_label s). Qed.

(** ** Trimming at both ends *)

Lemma dropWhile_head {A} (p : A -> bool) l x l' :
  dropWhile p l = x :: l' -> p x = false.
Proof.
  induction l as [|y l IH]; cbn [dropWhile]; [discriminate|].
  destruct (p y) eqn:E; [exact IH|]. intros H. injection H as -> _. exact E.
Qed.

Lemma dropWhile_idem {A} (p : A -> bool) l :
  dropWhile p (dropWhile p l) = dropWhile p l.
Proof.
  destruct (dropWhile p l) as [|x l'] eqn:E; [reflexivity|].
  apply dropWhile_stop. exact (dropWhile_head _ _ _ _ E).
Qed.

Lemma forallb_rev {A} (p : A -> bool) l : forallb p (rev l) = forallb p l.
Proof.
  induction l as [|x l IH]; [reflexivity|]. cbn [rev forallb].
  rewrite forallb_app, IH. cbn [forallb]. rewrite andb_true_r. apply andb_comm.
Qed.

Lemma get_last_snoc (l : Text) x : get (l ++ [x]) (len (l ++ [x]) - 1) = x.
Proof.
  rewrite len_app, get_app_r by (cbn; lia).
  replace (len l + len [x] - 1 - len l) with 0 by (cbn; lia). reflexivity.
Qed.

Lemma get_rev_head (l : Text) x l' : rev l = x :: l' -> get l (len l - 1) = x.
Proof.
  intros E. apply (f_equal (@rev _)) in E. rewrite rev_involutive in E.
  cbn [rev] in E. rewrite E. apply get_last_snoc.
Qed.

(** What is left of [t] when the runes of [ws] are removed at both ends. *)
Lemma trim_decompose (ws : rune -> bool) (t : Text) :
  let seg := rev (dropWhile ws (rev (dropWhile ws t))) in
  exists lead trail,
    t = lead ++ seg ++ trail
    /\ forallb ws lead = true /\ forallb ws trail = true
    /\ trimmedEnds ws seg = true.
Proof.
  intros seg0. remember seg0 as seg eqn:Eseg. unfold seg0 in Eseg. clear seg0.
  exists (takeWhile ws t), (rev (takeWhile ws (rev (dropWhile ws t)))).
  split; [|split; [|split]].
  - rewrite Eseg. rewrite <- rev_app_distr, takeWhile_dropWhile, rev_involutive.
    symmetry. apply takeWhile_dropWhile.
  - apply takeWhile_forallb.
  - rewrite forallb_rev. apply takeWhile_forallb.
  - unfold trimmedEnds. destruct seg as [|x seg']; [reflexivity|].
    cbn [isEmpty orb]. rewrite get_cons_0.
    assert (ws x = false) as Hx.
    { (* the first rune of [seg] is the first of [dropWhile ws t] *)
      pose proof (takeWhile_dropWhile ws (rev (dropWhile ws t))) as E.
      apply (f_equal (@rev _)) in E. rewrite rev_app_distr, rev_involutive in E.
      rewrite <- Eseg in E. cbn [app] in E.
      exact (dropWhile_head ws t x _ (eq_sym E)). }
    assert (ws (get (x :: seg') (len (x :: seg') - 1)) = false) as Hl.
    { destruct (dropWhile ws (rev (dropWhile ws t))) as [|y l] eqn:Ed.
      - discriminate Eseg.
      - rewrite Eseg.
        rewrite (get_rev_head _ y (rev (rev l))).
        + exact (dropWhile_head _ _ _ _ Ed).
        + rewrite !rev_involutive. reflexivity. }
    rewrite Hx, Hl. reflexivity.
Qed.

Lemma trimmedEnds_fixed (ws : rune -> bool) (t : Text) :
  trimmedEnds ws t = true -> rev (dropWhile ws (rev (dropWhile ws t))) = t.
Proof.
  unfold trimmedEnds. destruct t as [|x t']; [reflexivity|].
  cbn [isEmpty orb]. intros H. apply andb_true_iff in H. destruct H as [H1 H2].
  apply negb_true_iff in H1, H2. rewrite get_cons_0 in H1.
  rewrite (dropWhile_stop ws t' x H1).
  destruct (rev (x :: t')) as [|y l] eqn:Er.
  - apply (f_equal (@rev _)) in Er. rewrite rev_involutive in Er. discriminate Er.
  - rewrite (get_rev_head _ _ _ Er) in H2.
    rewrite (dropWhile_stop ws l y H2), <- Er. apply rev_involutive.
Qed.

Lemma trimList_fixed t : trimmedEnds isTrimSpace t = true -> trimList t = t.
Proof. apply trimmedEnds_fixed. Qed.

(** ** trimSpaceRunes *)

(** X2: [trimSpaceRunes] returns the text without its leading and trailing
    spaces, tabs and newlines, and nothing else is removed: the text is the
    removed lead, the result and the removed trail; the result is empty or
    has no space, tab or newline at either end; trimming it again returns it
    unchanged. *)
Theorem trimSpaceRunes_strips_both_ends (text : Text) :
  exists lead segment trail,
    trimSpaceRunes text = Ok segment
    /\ text = lead ++ segment ++ trail
    /\ forallb isTrimSpace lead = true
    /\ forallb isTrimSpace trail = true
    /\ trimmedEnds isTrimSpace segment = true
    /\ trimSpaceRunes segment = Ok segment.
Proof.
  destruct (trim_decompose isTrimSpace text) as (lead & trail & E & Hl & Ht & Hs).
  exists lead, (trimList text), trail.
  split; [apply trimSpaceRunes_spec|].
  split; [exact E|]. split; [exact Hl|]. split; [exact Ht|]. split; [exact Hs|].
  rewrite trimSpaceRunes_spec. f_equal. apply trimList_fixed. exact Hs.
Qed.

(** ** isNumberPrefix *)

Lemma ordinalPeriod_pos text pos : ordinalPeriod text pos -> 0 < pos.
Proof. intros (_ & blanks & digits & H). lia. Qed.

(** X3: [isNumberPrefix] answers true exactly at the positions inside the
    text that hold an ordinal period (a period after one to three digits,
    blanks allowed in between, the digits at the start of the text or after
    a space, tab or newline); it panics exactly when the position is
    positive and past the end of the text; a position of zero or below is
    answered false without reading the text. *)
Theorem isNumberPrefix_decides_ordinal text pos :
  (isNumberPrefix text pos = Ok true <-> pos < len text /\ ordinalPeriod text pos)
  /\ (isNumberPrefix text pos = Panic <-> 0 < pos /\ len text <= pos)
  /\ isNumberPrefix text pos <> OutOfFuel.
Proof.
  destruct (Z.lt_ge_cases pos (len text)) as [Hp|Hp].
  - destruct (isNumberPrefix_returns text pos Hp) as [b E]. rewrite E.
    split; [|split; [split; [discriminate | lia] | discriminate]].
    destruct (Z.leb_spec pos 0) as [Hn|Hn].
    + unfold isNumberPrefix in E.
      replace (pos <=? 0) with true in E by (symmetry; apply Z.leb_le; lia).
      injection E as <-. split; [discriminate|].
      intros [_ H]. apply ordinalPeriod_pos in H. lia.
    + pose proof (isNumberPrefix_ordinal text pos ltac:(lia)) as I.
      rewrite E in I. split.
      * intros H. split; [exact Hp | apply I, H].
      * intros [_ H]. apply I, H.
  - unfold isNumberPrefix. destruct (Z.leb_spec pos 0) as [Hn|Hn].
    + split; [|split; [split; [discriminate | lia] | discriminate]].
      split; [discriminate | lia].
    + rewrite index_panic by lia. cbn [bind].
      split; [|split; [split; [lia | reflexivity] | discriminate]].
      split; [discriminate | lia].
Qed.

(** ** findLastPunctuation *)

Lemma backwardBoundary_iff sep text j :
  0 <= j < len text ->
  (backwardBoundary sep text j = true
   <-> mapGet sep (get text j) = true /\ ~ ordinalPeriod text j).
Proof.
  intros Hj. unfold backwardBoundary, isOrdinalAt.
  pose proof (isNumberPrefix_ordinal text j Hj) as I.
  destruct (mapGet sep (get text j)); cbn [andb]; [|split; [discriminate | tauto]].
  destruct (Z.eqb_spec (get text j) r_dot) as [Ed|Ed]; cbn [andb negb].
  - destruct (isNumberPrefix text j) as [[|]| |]; cbn [negb].
    + split; [discriminate|]. intros [_ H]. exfalso. apply H, I. reflexivity.
    + split; [|reflexivity]. intros _. split; [reflexivity|].
      intros H. apply I in H. discriminate H.
    + split; [|reflexivity]. intros _. split; [reflexivity|].
      intros H. apply I in H. discriminate H.
    + split; [|reflexivity]. intros _. split; [reflexivity|].
      intros H. apply I in H. discriminate H.
  - split; [|reflexivity]. intros _. split; [reflexivity|].
    intros (H & _). contradiction.
Qed.

Lemma ordinalPeriod_dec text j :
  0 <= j < len text -> ordinalPeriod text j \/ ~ ordinalPeriod text j.
Proof.
  intros Hj. pose proof (isNumberPrefix_ordinal text j Hj) as I.
  destruct (isNumberPrefix text j) as [[|]| |].
  - left. apply I. reflexivity.
  - right. intros H. apply I in H. discriminate H.
  - right. intros H. apply I in H. discriminate H.
  - right. intros H. apply I in H. discriminate H.
Qed.

(** X4: [findLastPunctuation] returns the last position of the text that
    holds a rune of the separator set and is not an ordinal period, or -1
    when there is none: every separator after the returned position is an
    ordinal period. *)
Theorem findLastPunctuation_last_boundary text sep :
  exists r,
    findLastPunctuation text sep = Ok r
    /\ (r = -1
        \/ (0 <= r < len text
            /\ mapGet sep (get text r) = true /\ ~ ordinalPeriod text r))
    /\ (forall j, r < j < len text ->
          mapGet sep (get text j) = true -> ordinalPeriod text j).
Proof.
  destruct (findLastPunctuation_scan text sep) as (r & E & Hr & Hj).
  exists r. split; [exact E|]. split.
  - destruct Hr as [Hr|[Hr Hb]]; [left; exact Hr|]. right.
    split; [exact Hr|]. apply backwardBoundary_iff; assumption.
  - intros j Hlt Hm.
    assert (0 <= j < len text) as Hjr by (destruct Hr as [->|[Hr _]]; lia).
    pose proof (Hj j Hlt) as Hb.
    destruct (ordinalPeriod_dec text j Hjr) as [Ho|Ho]; [exact Ho | exfalso].
    assert (backwardBoundary sep text j = true) as Hb'
      by (apply backwardBoundary_iff; [exact Hjr | split; assumption]).
    rewrite Hb in Hb'. discriminate Hb'.
Qed.

(** ** Eager extraction: the walk *)

Lemma eagerWalk_plain : forall t acc rest,
  noTerminal t = true -> eagerWalk acc (t ++ rest) = eagerWalk (acc ++ t) rest.
Proof.
  induction t as [|r t IH]; intros acc rest H.
  - rewrite app_nil_r. reflexivity.
  - cbn [noTerminal forallb] in H. apply andb_true_iff in H. destruct H as [H1 H2].
    apply negb_true_iff in H1. cbn [app eagerWalk]. rewrite H1.
    rewrite (IH (acc ++ [r]) rest H2), <- app_assoc. reflexivity.
Qed.

Lemma eagerWalk_app : forall a acc b,
  eagerWalk acc (a ++ b)
  = (fst (eagerWalk acc a) ++ fst (eagerWalk (snd (eagerWalk acc a)) b),
     snd (eagerWalk (snd (eagerWalk acc a)) b)).
Proof.
  induction a as [|r a IH]; intros acc b.
  - cbn [app eagerWalk fst snd]. destruct (eagerWalk acc b); reflexivity.
  - cbn [app eagerWalk]. destruct (IsSentenceEndPunctuation r).
    + rewrite (IH [] b). destruct (eagerWalk [] a) as [sa ra]. cbn [fst snd].
      destruct (isEmpty (strings_TrimSpace (acc ++ [r]))); reflexivity.
    + apply IH.
Qed.

Lemma noTerminal_app a b : noTerminal (a ++ b) = noTerminal a && noTerminal b.
Proof. apply forallb_app. Qed.

(** What the walk leaves in the accumulator is the end of the text read,
    after its last sentence-end rune. *)
Lemma eagerWalk_remainder : forall text acc,
  noTerminal acc = true ->
  noTerminal (snd (eagerWalk acc text)) = true
  /\ exists pre, acc ++ text = pre ++ snd (eagerWalk acc text).
Proof.
  induction text as [|r text IH]; intros acc Ha.
  - cbn [eagerWalk snd]. split; [exact Ha|]. exists []. apply app_nil_r.
  - cbn [eagerWalk]. destruct (IsSentenceEndPunctuation r) eqn:Er.
    + destruct (IH [] eq_refl) as (Hn & pre & E).
      destruct (eagerWalk [] text) as [ss rem]. cbn [snd] in *.
      split; [exact Hn|]. exists (acc ++ [r] ++ pre).
      cbn [app] in E. rewrite E, <- !app_assoc. reflexivity.
    + destruct (IH (acc ++ [r])) as (Hn & pre & E).
      { rewrite noTerminal_app, Ha. cbn [noTerminal forallb]. rewrite Er. reflexivity. }
      split; [exact Hn|]. exists pre. rewrite <- E, <- app_assoc. reflexivity.
Qed.

Lemma forallb_app_l {A} (p : A -> bool) a b :
  forallb p (a ++ b) = true -> forallb p a = true.
Proof. rewrite forallb_app. intros H. apply andb_true_iff in H. tauto. Qed.

Lemma forallb_app_r {A} (p : A -> bool) a b :
  forallb p (a ++ b) = true -> forallb p b = true.
Proof. rewrite forallb_app. intros H. apply andb_true_iff in H. tauto. Qed.

Lemma snoc_eq_app_cons {A} (acc : list A) r l x m :
  acc ++ [r] = l ++ x :: m ->
  (m = [] /\ acc = l /\ r = x) \/ (exists m', m = m' ++ [r] /\ acc = l ++ x :: m').
Proof.
  intros E. destruct (exists_last (l:=x :: m)) as (u & z & Eu); [discriminate|].
  rewrite Eu, app_assoc in E. apply app_inj_tail in E. destruct E as [Ea Er].
  subst z. destruct m as [|y m].
  - left. destruct u as [|u0 u].
    + cbn in Eu. injection Eu as ->. rewrite app_nil_r in Ea. auto.
    + cbn in Eu. injection Eu as _ Eu. destruct u; discriminate Eu.
  - right. destruct u as [|u0 u].
    + cbn in Eu. discriminate Eu.
    + cbn in Eu. injection Eu as <- Eu. exists u. split; [exact Eu|]. exact Ea.
Qed.

Lemma sub_init (s0 : Text) x : sub (s0 ++ [x]) 0 (len (s0 ++ [x]) - 1) = s0.
Proof.
  rewrite len_app. replace (len s0 + len [x] - 1) with (len s0) by (cbn; lia).
  rewrite sub_app_l by (pose proof (len_nonneg s0); lia). apply sub_full.
Qed.

(** A segment closed by a rune [r] after text without sentence-end runes:
    trimmed, it holds no sentence-end rune before its last position. *)
Lemma segment_shape acc r :
  noTerminal acc = true ->
  trimmedEnds unicode_IsSpace (strings_TrimSpace (acc ++ [r])) = true
  /\ noTerminal (sub (strings_TrimSpace (acc ++ [r])) 0
                     (len (strings_TrimSpace (acc ++ [r])) - 1)) = true.
Proof.
  intros Ha.
  destruct (trim_decompose unicode_IsSpace (acc ++ [r]))
    as (lead & trail & E & _ & _ & Ht).
  fold (strings_TrimSpace (acc ++ [r])) in E, Ht.
  split; [exact Ht|].
  destruct (strings_TrimSpace (acc ++ [r])) as [|y seg] eqn:Es; [reflexivity|].
  destruct (exists_last (l:=y :: seg)) as (s0 & x & Eq); [discriminate|].
  rewrite Eq in *. rewrite sub_init.
  rewrite <- app_assoc in E. cbn [app] in E. rewrite app_assoc in E.
  apply snoc_eq_app_cons in E. destruct E as [(_ & Ea & _)|(m' & _ & Ea)];
    rewrite Ea in Ha.
  - apply forallb_app_r in Ha. exact Ha.
  - apply forallb_app_l, forallb_app_r in Ha. exact Ha.
Qed.

Lemma eagerWalk_sentences : forall text acc,
  noTerminal acc = true ->
  Forall (fun sentence =>
            sentence <> []
            /\ trimmedEnds unicode_IsSpace sentence = true
            /\ noTerminal (sub sentence 0 (len sentence - 1)) = true)
         (fst (eagerWalk acc text)).
Proof.
  induction text as [|r text IH]; intros acc Ha; [constructor|].
  cbn [eagerWalk]. destruct (IsSentenceEndPunctuation r) eqn:Er.
  - pose proof (IH [] eq_refl) as Hrest.
    destruct (eagerWalk [] text) as [ss rem]. cbn [fst] in *.
    destruct (strings_TrimSpace (acc ++ [r])) as [|y seg] eqn:Es; [exact Hrest|].
    cbn [isEmpty]. constructor; [|exact Hrest].
    split; [discriminate|]. rewrite <- Es. apply segment_shape, Ha.
  - apply IH. rewrite noTerminal_app, Ha. cbn [noTerminal forallb].
    rewrite Er. reflexivity.
Qed.

(** X5: every sentence that [ExtractCompleteSentences] emits is not empty,
    has no white space at either end, and holds no sentence-end punctuation
    before its last rune. *)
Theorem ExtractCompleteSentences_sentence_shape (text : Text) :
  Forall (fun sentence =>
            sentence <> []
            /\ trimmedEnds unicode_IsSpace sentence = true
            /\ noTerminal (sub sentence 0 (len sentence - 1)) = true)
         (fst (ExtractCompleteSentences text)).
Proof.
  rewrite ExtractCompleteSentences_walk_eq. cbn [fst].
  apply eagerWalk_sentences. reflexivity.
Qed.

Lemma TrimSpace_trimmed t : trimmedEnds unicode_IsSpace (strings_TrimSpace t) = true.
Proof.
  destruct (trim_decompose unicode_IsSpace t) as (lead & trail & _ & _ & _ & H).
  exact H.
Qed.

Lemma TrimSpace_fixed t :
  trimmedEnds unicode_IsSpace t = true -> strings_TrimSpace t = t.
Proof. apply trimmedEnds_fixed. Qed.

Lemma noTerminal_TrimSpace t :
  noTerminal t = true -> noTerminal (strings_TrimSpace t) = true.
Proof.
  intros H. destruct (trim_decompose unicode_IsSpace t) as (lead & trail & E & _).
  fold (strings_TrimSpace t) in E. rewrite E in H.
  apply forallb_app_r, forallb_app_l in H. exact H.
Qed.

Lemma ExtractCompleteSentences_plain text :
  noTerminal text = true ->
  ExtractCompleteSentences text = ([], strings_TrimSpace text).
Proof.
  intros H. rewrite ExtractCompleteSentences_walk_eq.
  rewrite <- (app_nil_r text) at 1 2. rewrite (eagerWalk_plain text [] [] H).
  reflexivity.
Qed.

(** X6: the remainder of [ExtractCompleteSentences] holds no sentence-end
    punctuation and no white space at either end, and extracting from it
    again emits nothing and returns it unchanged. *)
Theorem ExtractCompleteSentences_remainder_final (text : Text) :
  noTerminal (snd (ExtractCompleteSentences text)) = true
  /\ trimmedEnds unicode_IsSpace (snd (ExtractCompleteSentences text)) = true
  /\ ExtractCompleteSentences (snd (ExtractCompleteSentences text))
     = ([], snd (ExtractCompleteSentences text)).
Proof.
  rewrite ExtractCompleteSentences_walk_eq. cbn [snd].
  destruct (eagerWalk_remainder text [] eq_refl) as (Hn & _).
  pose proof (noTerminal_TrimSpace _ Hn) as Hn'.
  split; [exact Hn'|]. split; [apply TrimSpace_trimmed|].
  rewrite (ExtractCompleteSentences_plain _ Hn'). f_equal.
  apply TrimSpace_fixed, TrimSpace_trimmed.
Qed.

(** X7: on a text without sentence-end punctuation
    [ExtractCompleteSentences] emits nothing and returns the text, trimmed
    of white space, as the remainder; commas, semicolons and colons do not
    end a sentence in this mode. *)
Theorem ExtractCompleteSentences_without_terminal (text : Text) :
  noTerminal text = true ->
  ExtractCompleteSentences text = ([], strings_TrimSpace text).
Proof. exact (ExtractCompleteSentences_plain text). Qed.

(** A text with a semicolon, a colon and commas only. *)
Lemma ExtractCompleteSentences_without_terminal_witness :
  ExtractCompleteSentences (str "  wait; then: go, ")
  = ([], strings_TrimSpace (str "  wait; then: go, ")).
Proof.
  apply (ExtractCompleteSentences_without_terminal (str "  wait; then: go, ")).
  vm_compute; reflexivity.
Defined.

(** ** Eager extraction resumed on the remainder *)

Lemma dropWhile_lead {A} (p : A -> bool) lead y :
  forallb p lead = true -> dropWhile p (lead ++ y) = dropWhile p y.
Proof.
  induction lead as [|x lead IH]; [reflexivity|]. cbn [forallb app dropWhile].
  intros H. apply andb_true_iff in H. destruct H as [H1 H2].
  rewrite H1. apply IH, H2.
Qed.

Lemma TrimSpace_lead lead y :
  forallb unicode_IsSpace lead = true ->
  strings_TrimSpace (lead ++ y) = strings_TrimSpace y.
Proof. intros H. unfold strings_TrimSpace. rewrite dropWhile_lead by exact H. reflexivity. Qed.

(** Text that does not end in white space is its trimmed form after
    leading white space. *)
Lemma TrimSpace_tight acc :
  (forall x l, rev acc = x :: l -> unicode_IsSpace x = false) ->
  exists lead, forallb unicode_IsSpace lead = true
               /\ acc = lead ++ strings_TrimSpace acc.
Proof.
  intros H. exists (takeWhile unicode_IsSpace acc).
  split; [apply takeWhile_forallb|].
  assert (strings_TrimSpace acc = dropWhile unicode_IsSpace acc) as ->;
    [|symmetry; apply takeWhile_dropWhile].
  unfold strings_TrimSpace.
  destruct (rev (dropWhile unicode_IsSpace acc)) as [|x l] eqn:Er.
  - apply (f_equal (@rev _)) in Er. rewrite rev_involutive in Er. rewrite Er. reflexivity.
  - rewrite dropWhile_stop; [rewrite <- Er; apply rev_involutive|].
    apply (H x (l ++ rev (takeWhile unicode_IsSpace acc))).
    rewrite <- (takeWhile_dropWhile unicode_IsSpace acc) at 1.
    rewrite rev_app_distr, Er. reflexivity.
Qed.

Lemma eagerWalk_cong : forall b c1 c2,
  (forall x, strings_TrimSpace (c1 ++ x) = strings_TrimSpace (c2 ++ x)) ->
  fst (eagerWalk c1 b) = fst (eagerWalk c2 b)
  /\ strings_TrimSpace (snd (eagerWalk c1 b))
     = strings_TrimSpace (snd (eagerWalk c2 b)).
Proof.
  induction b as [|r b IH]; intros c1 c2 H.
  - cbn [eagerWalk fst snd]. split; [reflexivity|].
    pose proof (H []) as E. rewrite !app_nil_r in E. exact E.
  - cbn [eagerWalk]. destruct (IsSentenceEndPunctuation r).
    + rewrite (H [r]). split; reflexivity.
    + apply IH. intros x. rewrite <- !app_assoc. apply H.
Qed.

Lemma endsTight_remainder a :
  endsTight a = true ->
  forall x l, rev (snd (eagerWalk [] a)) = x :: l -> unicode_IsSpace x = false.
Proof.
  intros Ht x l Er.
  destruct (eagerWalk_remainder a [] eq_refl) as (Hn & pre & E).
  cbn [app] in E.
  assert (rev a = x :: l ++ rev pre) as Ea
    by (rewrite E, rev_app_distr, Er; reflexivity).
  unfold endsTight in Ht. rewrite Ea in Ht.
  apply (f_equal (@rev _)) in Er. rewrite rev_involutive in Er. cbn [rev] in Er.
  rewrite Er in Hn. apply forallb_app_r in Hn. cbn [noTerminal forallb] in Hn.
  rewrite andb_true_r in Hn. apply negb_true_iff in Hn. rewrite Hn in Ht.
  cbn [orb] in Ht. apply negb_true_iff in Ht. exact Ht.
Qed.

(** X8: eager extraction can be resumed on its remainder.  When the text
    [a] is empty or ends in sentence-end punctuation or in a rune that is
    not white space, extracting from [a ++ b] gives the sentences of [a]
    followed by the sentences of the remainder of [a] with [b] appended, and
    the remainder of that second call. *)
Theorem ExtractCompleteSentences_resume (a b : Text) :
  endsTight a = true ->
  ExtractCompleteSentences (a ++ b)
  = (fst (ExtractCompleteSentences a)
       ++ fst (ExtractCompleteSentences (snd (ExtractCompleteSentences a) ++ b)),
     snd (ExtractCompleteSentences (snd (ExtractCompleteSentences a) ++ b))).
Proof.
  intros Ht. rewrite !ExtractCompleteSentences_walk_eq. cbn [fst snd].
  rewrite (eagerWalk_app a [] b).
  destruct (eagerWalk_remainder a [] eq_refl) as (Hn & _).
  destruct (TrimSpace_tight _ (endsTight_remainder a Ht)) as (lead & Hl & Ea).
  set (acc := snd (eagerWalk [] a)) in *.
  rewrite (eagerWalk_plain (strings_TrimSpace acc) [] b (noTerminal_TrimSpace _ Hn)).
  cbn [app fst snd].
  destruct (eagerWalk_cong b acc (strings_TrimSpace acc)) as [E1 E2].
  { intros x. rewrite Ea at 1. rewrite <- app_assoc. apply TrimSpace_lead, Hl. }
  rewrite E1, E2. reflexivity.
Qed.

(** A cut inside the word "three". *)
Lemma ExtractCompleteSentences_resume_witness :
  ExtractCompleteSentences (str "One. Two, thr" ++ str "ee! Four")
  = (fst (ExtractCompleteSentences (str "One. Two, thr"))
       ++ fst (ExtractCompleteSentences
                 (snd (ExtractCompleteSentences (str "One. Two, thr")) ++ str "ee! Four")),
     snd (ExtractCompleteSentences
            (snd (ExtractCompleteSentences (str "One. Two, thr")) ++ str "ee! Four"))).
Proof.
  apply (ExtractCompleteSentences_resume (str "One. Two, thr") (str "ee! Four")).
  vm_compute; reflexivity.
Defined.

(** ** Smart extraction: what the sentences and the remainder look like *)

Lemma app_inj_len {A} : forall (l1 l2 r1 r2 : list A),
  length l1 = length l2 -> l1 ++ r1 = l2 ++ r2 -> l1 = l2 /\ r1 = r2.
Proof.
  induction l1 as [|x l1 IH]; intros [|y l2] r1 r2 L E; try discriminate L.
  - split; [reflexivity | exact E].
  - cbn [app] in E. injection E as -> E. cbn [length] in L. injection L as L.
    destruct (IH l2 r1 r2 L E) as [-> ->]. split; reflexivity.
Qed.

(** The middle of a slice is a slice. *)
Lemma sub_middle text a b (l1 l2 l3 : Text) :
  0 <= a <= b -> b <= len text -> sub text a b = l1 ++ l2 ++ l3 ->
  a + len l1 + len l2 <= b
  /\ l2 = sub text (a + len l1) (a + len l1 + len l2).
Proof.
  intros Ha Hb E.
  pose proof (len_sub text a b Ha Hb) as L.
  rewrite E, !len_app in L.
  pose proof (len_nonneg l1). pose proof (len_nonneg l2). pose proof (len_nonneg l3).
  split; [lia|].
  rewrite (sub_split text a (a + len l1) b) in E by lia.
  rewrite (sub_split text (a + len l1) (a + len l1 + len l2) b) in E by lia.
  apply app_inj_len in E.
  2:{ apply Nat2Z.inj. fold (len (sub text a (a + len l1))). fold (len l1).
      rewrite len_sub by lia. lia. }
  destruct E as [_ E]. apply app_inj_len in E.
  2:{ apply Nat2Z.inj.
      fold (len (sub text (a + len l1) (a + len l1 + len l2))). fold (len l2).
      rewrite len_sub by lia. lia. }
  destruct E as [E _]. symmetry. exact E.
Qed.

(** A trimmed slice is a slice. *)
Lemma trimList_slice text a b :
  0 <= a <= b -> b <= len text ->
  exists lo hi,
    a <= lo /\ lo <= hi /\ hi <= b
    /\ trimList (sub text a b) = sub text lo hi
    /\ len (trimList (sub text a b)) = hi - lo.
Proof.
  intros Ha Hb.
  destruct (trim_decompose isTrimSpace (sub text a b)) as (lead & trail & E & _).
  fold (trimList (sub text a b)) in E.
  destruct (sub_middle text a b _ _ _ Ha Hb E) as [L S].
  pose proof (len_nonneg lead). pose proof (len_nonneg (trimList (sub text a b))).
  exists (a + len lead), (a + len lead + len (trimList (sub text a b))).
  repeat split; try lia. exact S.
Qed.

Lemma trimList_trimmed t : trimmedEnds isTrimSpace (trimList t) = true.
Proof.
  destruct (trim_decompose isTrimSpace t) as (lead & trail & _ & _ & _ & H).
  exact H.
Qed.

(** The candidate of an iteration is a piece of the text between the cursor
    and the next cursor. *)
Lemma step_Seg_slice text maxLen sep s seg next :
  0 <= s <= len text -> 0 <= maxLen ->
  smartStep text maxLen sep s = Seg seg next ->
  s < next /\ next <= len text
  /\ trimmedEnds isTrimSpace seg = true
  /\ exists lo hi, s <= lo /\ lo < hi /\ hi <= next /\ seg = sub text lo hi.
Proof.
  intros Hs Hm St.
  destruct (smartStep_Seg text maxLen sep s seg next Hs Hm St)
    as (R & Hn & Hne & Hseg & _).
  split; [lia|]. split; [exact Hn|].
  split; [rewrite Hseg; apply trimList_trimmed|].
  destruct (trimList_slice text (skipWs text s) next) as (lo & hi & H1 & H2 & H3 & E & L);
    try lia.
  exists lo, hi. rewrite <- Hseg in E, L.
  pose proof (nonempty_len seg Hne).
  repeat split; try lia. exact E.
Qed.

Lemma slicesOf_weaken text s s' ss : slicesOf text s ss -> s' <= s -> slicesOf text s' ss.
Proof.
  intros H L. destruct H as [s|s lo hi ss H1 H2 H3 H]; [constructor|].
  apply slices_cons; try assumption. lia.
Qed.

Lemma runs_slices minLen maxLen sep text s ss rem out :
  0 <= maxLen ->
  runs minLen maxLen sep text s ss rem out -> 0 <= s <= len text ->
  exists new, fst out = ss ++ new /\ slicesOf text s new.
Proof.
  intros Hm.
  induction 1 as [s ss rem L|s ss rem L St|s ss rem seg L St
                 |s ss rem seg next out L St A R IH
                 |s ss rem seg next out L St A R IH]; intros Hs.
  - exists []. split; [symmetry; apply app_nil_r | constructor].
  - exists []. split; [symmetry; apply app_nil_r | constructor].
  - exists []. split; [symmetry; apply app_nil_r | constructor].
  - destruct (step_Seg_slice text maxLen sep s seg next Hs Hm St)
      as (H1 & H2 & _ & lo & hi & Hlo & Hlt & Hhi & ->).
    destruct (IH ltac:(lia)) as (new & E & Sl).
    exists (sub text lo hi :: new).
    split; [rewrite E, <- app_assoc; reflexivity|].
    apply slices_cons; try lia. apply (slicesOf_weaken text next); [exact Sl | lia].
  - destruct (step_Seg_slice text maxLen sep s seg next Hs Hm St)
      as (H1 & H2 & _).
    destruct (IH ltac:(lia)) as (new & E & Sl).
    exists new. split; [exact E|].
    apply (slicesOf_weaken text next); [exact Sl | lia].
Qed.

Lemma deferSegment_trimmed rem seg :
  trimmedEnds isTrimSpace rem = true -> seg <> [] ->
  trimmedEnds isTrimSpace seg = true ->
  trimmedEnds isTrimSpace (deferSegment rem seg) = true.
Proof.
  intros Hr Hne Hs. rewrite deferSegment_nonempty by exact Hne.
  destruct rem as [|x rem]; [exact Hs|]. cbn [isEmpty].
  unfold trimmedEnds in *. cbn [isEmpty orb] in Hr.
  destruct seg as [|y seg]; [congruence|]. cbn [isEmpty orb] in Hs.
  apply andb_true_iff in Hr, Hs. destruct Hr as [Hr _]. destruct Hs as [_ Hs].
  replace (isEmpty (((x :: rem) ++ [r_space]) ++ y :: seg)) with false by reflexivity.
  cbn [orb]. apply andb_true_iff. split.
  - rewrite get_cons_0 in Hr. cbn [app]. rewrite get_cons_0. exact Hr.
  - rewrite len_app.
    rewrite get_app_r by (pose proof (len_nonneg seg); rewrite len_cons; lia).
    replace (len ((x :: rem) ++ [r_space]) + len (y :: seg) - 1
             - len ((x :: rem) ++ [r_space])) with (len (y :: seg) - 1) by lia.
    exact Hs.
Qed.

Lemma runs_shape minLen maxLen sep text s ss rem out (P : Text -> Prop) :
  0 <= maxLen ->
  (forall s0 seg next,
     0 <= s0 <= len text -> smartStep text maxLen sep s0 = Seg seg next ->
     accepts seg minLen sep = true -> P seg) ->
  runs minLen maxLen sep text s ss rem out -> 0 <= s <= len text ->
  Forall P ss -> trimmedEnds isTrimSpace rem = true ->
  Forall P (fst out) /\ trimmedEnds isTrimSpace (snd out) = true.
Proof.
  intros Hm HP.
  induction 1 as [s ss rem L|s ss rem L St|s ss rem seg L St
                 |s ss rem seg next out L St A R IH
                 |s ss rem seg next out L St A R IH]; intros Hs Hss Hrem.
  - split; assumption.
  - split; assumption.
  - split; [assumption|]. cbn [snd].
    destruct (smartStep_Tail text maxLen sep s seg Hs Hm St) as (_ & _ & -> & _).
    match goal with |- context [if ?c then _ else _] => destruct c end;
      [apply trimList_trimmed | exact Hrem].
  - destruct (step_Seg_slice text maxLen sep s seg next Hs Hm St) as (H1 & H2 & _).
    apply IH; [lia | | exact Hrem].
    apply Forall_app. split; [exact Hss|]. constructor; [|constructor].
    exact (HP s seg next Hs St A).
  - destruct (step_Seg_slice text maxLen sep s seg next Hs Hm St)
      as (H1 & H2 & Ht & lo & hi & Hlo & Hlt & Hhi & E).
    apply IH; [lia | exact Hss |]. apply deferSegment_trimmed; try assumption.
    intros En. rewrite En in E. apply (f_equal len) in E.
    rewrite len_sub in E by lia. cbn in E. lia.
Qed.

Lemma bound_62 (text : Text) maxLen :
  0 <= maxLen < 2 ^ 62 -> len text <= 2 ^ 62 -> len text + maxLen <= maxInt64.
Proof. unfold maxInt64. lia. Qed.

(** X9: every sentence that [ExtractSmartSentences] emits is not empty,
    is at least [minLen] runes long, ends in a rune of the active separator
    set, and has no space, tab or newline at either end; the remainder is
    empty or has no space, tab or newline at either end. *)
Theorem ExtractSmartSentences_output_shape alloc text minLen maxLen isFirst :
  0 <= maxLen < 2 ^ 62 -> alloc (maxLen * 2) = true -> len text <= 2 ^ 62 ->
  exists sentences remaining,
    ExtractSmartSentences alloc text minLen maxLen isFirst = Ok (sentences, remaining)
    /\ Forall (fun sentence =>
                 sentence <> []
                 /\ minLen <= len sentence
                 /\ mapGet (selectSeparators isFirst)
                           (get sentence (len sentence - 1)) = true
                 /\ trimmedEnds isTrimSpace sentence = true) sentences
    /\ trimmedEnds isTrimSpace remaining = true.
Proof.
  intros Hm Ha Hl.
  destruct (ExtractSmartSentences_runs alloc text minLen maxLen isFirst Hm Ha
              (bound_62 text maxLen Hm Hl)) as ([ss rem] & E & R).
  exists ss, rem. split; [exact E|].
  pose proof (len_nonneg text).
  apply (runs_shape minLen maxLen (selectSeparators isFirst) text 0 [] [] (ss, rem));
    [lia | | exact R | lia | constructor | reflexivity].
  intros c seg next Hs St A.
  destruct (smartStep_Seg text maxLen _ c seg next Hs ltac:(lia) St)
    as (_ & _ & Hne & Hseg & _).
  unfold accepts in A. apply andb_true_iff in A. destruct A as [A1 A2].
  apply Z.leb_le in A1.
  repeat split; try assumption. rewrite Hseg. apply trimList_trimmed.
Qed.

(** With [minLen = 4], "No?" is withheld and two sentences are emitted. *)
Lemma ExtractSmartSentences_output_shape_witness :
  exists sentences remaining,
    ExtractSmartSentences roomy (str " Yes. No?  Well, maybe not; who knows") 4 12 false
    = Ok (sentences, remaining)
    /\ Forall (fun sentence =>
                 sentence <> []
                 /\ 4 <= len sentence
                 /\ mapGet (selectSeparators false)
                           (get sentence (len sentence - 1)) = true
                 /\ trimmedEnds isTrimSpace sentence = true) sentences
    /\ trimmedEnds isTrimSpace remaining = true.
Proof.
  apply (ExtractSmartSentences_output_shape roomy (str " Yes. No?  Well, maybe not; who knows") 4 12 false).
  - lia.
  - reflexivity.
  - vm_compute; discriminate.
Defined.

(** X10: the sentences that [ExtractSmartSentences] emits are pieces
    [text[lo:hi]] of the text, taken from left to right without overlap:
    sentences are never reordered among themselves, repeated or altered
    inside. *)
Theorem ExtractSmartSentences_sentences_are_slices alloc text minLen maxLen isFirst :
  0 <= maxLen < 2 ^ 62 -> alloc (maxLen * 2) = true -> len text <= 2 ^ 62 ->
  exists sentences remaining,
    ExtractSmartSentences alloc text minLen maxLen isFirst = Ok (sentences, remaining)
    /\ slicesOf text 0 sentences.
Proof.
  intros Hm Ha Hl.
  destruct (ExtractSmartSentences_runs alloc text minLen maxLen isFirst Hm Ha
              (bound_62 text maxLen Hm Hl)) as ([ss rem] & E & R).
  exists ss, rem. split; [exact E|].
  pose proof (len_nonneg text).
  destruct (runs_slices minLen maxLen _ text 0 [] [] (ss, rem) ltac:(lia) R ltac:(lia))
    as (new & En & Sl).
  cbn [fst app] in En. rewrite En. exact Sl.
Qed.

(** Two sentences are emitted, "Hi." and "Ok." are withheld. *)
Lemma ExtractSmartSentences_sentences_are_slices_witness :
  exists sentences remaining,
    ExtractSmartSentences roomy (str "Hi. Hello  world. Ok. See you soon!") 5 50 false
    = Ok (sentences, remaining)
    /\ slicesOf (str "Hi. Hello  world. Ok. See you soon!") 0 sentences.
Proof.
  apply (ExtractSmartSentences_sentences_are_slices roomy (str "Hi. Hello  world. Ok. See you soon!") 5 50 false).
  - lia.
  - reflexivity.
  - vm_compute; discriminate.
Defined.

(** ** Smart extraction: texts that yield no sentence *)

(** X11: a text shorter than [minLen] yields no sentence. *)
Theorem ExtractSmartSentences_short_text alloc text minLen maxLen isFirst :
  0 <= maxLen < 2 ^ 62 -> alloc (maxLen * 2) = true -> len text <= 2 ^ 62 -> len text < minLen ->
  exists remaining,
    ExtractSmartSentences alloc text minLen maxLen isFirst = Ok ([], remaining).
Proof.
  intros Hm Ha Hl Hshort.
  destruct (ExtractSmartSentences_runs alloc text minLen maxLen isFirst Hm Ha
              (bound_62 text maxLen Hm Hl)) as ([ss rem] & E & R).
  exists rem. rewrite E. f_equal. f_equal.
  pose proof (len_nonneg text).
  destruct (runs_shape minLen maxLen (selectSeparators isFirst) text 0 [] []
              (ss, rem) (fun _ => False)) as [F _];
    [lia | | exact R | lia | constructor | reflexivity |].
  - intros c seg next Hs St A.
    destruct (step_Seg_slice text maxLen _ c seg next Hs ltac:(lia) St)
      as (_ & Hn & _ & lo & hi & Hlo & Hlt & Hhi & Es).
    unfold accepts in A. apply andb_true_iff in A. destruct A as [A _].
    apply Z.leb_le in A. rewrite Es, len_sub in A by lia. lia.
  - cbn [fst] in F. destruct ss as [|x ss]; [reflexivity|].
    inversion F as [|? ? Fx _]. destruct Fx.
Qed.

(** Thirteen runes, [minLen = 20]. *)
Lemma ExtractSmartSentences_short_text_witness :
  exists remaining,
    ExtractSmartSentences roomy (str "Hi. Ok. Go on") 20 50 true = Ok ([], remaining).
Proof.
  apply (ExtractSmartSentences_short_text roomy (str "Hi. Ok. Go on") 20 50 true).
  - lia.
  - reflexivity.
  - vm_compute; discriminate.
  - vm_compute; reflexivity.
Defined.

Lemma ContainsSentenceSeparator_scan : forall s isFirst,
  ContainsSentenceSeparator s isFirst
  = existsb (mapGet (selectSeparators isFirst)) s.
Proof.
  induction s as [|r s IH]; intros isFirst; [reflexivity|].
  cbn [ContainsSentenceSeparator existsb]. rewrite IH.
  destruct isFirst; cbn [selectSeparators];
    match goal with |- context [if ?c then _ else _] => destruct c end; reflexivity.
Qed.

Lemma existsb_false_get (p : rune -> bool) (t : Text) :
  existsb p t = false -> forall j, 0 <= j < len t -> p (get t j) = false.
Proof.
  induction t as [|x t IH]; intros H j Hj; [cbn in Hj; lia|].
  cbn [existsb] in H. apply orb_false_iff in H. destruct H as [H1 H2].
  destruct (Z.eq_dec j 0) as [->|]; [rewrite get_cons_0; exact H1|].
  rewrite get_cons_S by lia. apply IH; [exact H2|]. rewrite len_cons in Hj. lia.
Qed.

Lemma separator_newline isFirst : mapGet (selectSeparators isFirst) r_nl = true.
Proof. destruct isFirst; reflexivity. Qed.

Lemma nextSplitOpt_no_separator text s maxLen sep :
  0 <= s <= len text -> 0 <= maxLen -> mapGet sep r_nl = true ->
  (forall j, 0 <= j < len text -> mapGet sep (get text j) = false) ->
  nextSplitOpt text s maxLen sep = None.
Proof.
  intros Hs Hm Hnl Hno.
  assert (forall j, 0 <= j < len text -> get text j <> r_nl) as Hn
    by (intros j Hj E; specialize (Hno j Hj); rewrite E, Hnl in Hno; discriminate).
  unfold nextSplitOpt, windowEnd. set (e := Z.min (s + maxLen) (len text)).
  rewrite firstFrom_none.
  - apply firstFrom_none. intros j Hj.
    rewrite tailSplit_plain by (apply Hn; lia). apply Hno. lia.
  - intros j Hj. rewrite windowSplit_plain by (apply Hn; lia). apply Hno. lia.
Qed.

Lemma trimList_after_skip text :
  trimList (sub text (skipWs text 0) (len text)) = trimList text.
Proof.
  unfold skipWs. rewrite sub_full, Z.add_0_l.
  rewrite sub_to_end by apply len_nonneg. unfold len. rewrite Nat2Z.id.
  replace (skipn (length (takeWhile isTrimSpace text)) text)
    with (dropWhile isTrimSpace text) by apply dropWhile_skipn.
  unfold trimList. rewrite dropWhile_idem. reflexivity.
Qed.

Lemma trimList_blank text : skipWs text 0 = len text -> trimList text = [].
Proof.
  unfold skipWs. rewrite sub_full, Z.add_0_l. intros E.
  unfold trimList. rewrite (dropWhile_skipn isTrimSpace text).
  apply Nat2Z.inj in E. rewrite E, skipn_all. reflexivity.
Qed.

(** X12: when [ContainsSentenceSeparator] finds no separator of the active
    set in the text, [ExtractSmartSentences] emits nothing and returns the
    text, trimmed by [trimSpaceRunes], as the remainder. *)
Theorem ExtractSmartSentences_without_separator alloc text minLen maxLen isFirst :
  0 <= maxLen < 2 ^ 62 -> alloc (maxLen * 2) = true -> len text <= 2 ^ 62 ->
  ContainsSentenceSeparator text isFirst = false ->
  exists remaining,
    trimSpaceRunes text = Ok remaining
    /\ ExtractSmartSentences alloc text minLen maxLen isFirst = Ok ([], remaining).
Proof.
  intros Hm Ha Hl Hc. exists (trimList text). split; [apply trimSpaceRunes_spec|].
  rewrite ContainsSentenceSeparator_scan in Hc.
  pose proof (existsb_false_get _ _ Hc) as Hno.
  rewrite ExtractSmartSentences_loop by assumption.
  pose proof (len_nonneg text) as L.
  rewrite smartLoop_unfold by (try apply bound_62; lia).
  destruct (Z.ltb_spec 0 (len text)) as [Hpos|Hz].
  2:{ rewrite (len_zero_nil text) by lia. reflexivity. }
  rewrite smartStep_opt by lia. cbv zeta.
  destruct (skipWs_range text 0 ltac:(lia)) as [R _].
  destruct (Z.leb_spec (len text) (skipWs text 0)).
  - rewrite trimList_blank by lia. reflexivity.
  - rewrite nextSplitOpt_no_separator;
      [| lia | lia | apply separator_newline | exact Hno].
    rewrite trimList_after_skip. destruct (0 <? len (trimList text)) eqn:E.
    + reflexivity.
    + apply Z.ltb_ge in E. pose proof (len_nonneg (trimList text)).
      rewrite (len_zero_nil (trimList text)) by lia. reflexivity.
Qed.

(** The comma is no separator when [isFirst] is false. *)
Lemma ExtractSmartSentences_without_separator_witness :
  exists remaining,
    trimSpaceRunes (str "  and then, perhaps ") = Ok remaining
    /\ ExtractSmartSentences roomy (str "  and then, perhaps ") 1 8 false
       = Ok ([], remaining).
Proof.
  apply (ExtractSmartSentences_without_separator roomy (str "  and then, perhaps ") 1 8 false).
  - lia.
  - reflexivity.
  - vm_compute; discriminate.
  - vm_compute; reflexivity.
Defined.

(** ** Smart extraction: a negative window *)

(** X13: [ExtractSmartSentences] panics on every text, the empty one
    included, when [maxLen] is negative (down to [-2^62]): the scratch
    buffer is grown by [maxLen * 2] before the text is looked at. *)
Theorem ExtractSmartSentences_negative_maxLen alloc text minLen maxLen isFirst :
  - 2 ^ 62 <= maxLen < 0 ->
  ExtractSmartSentences alloc text minLen maxLen isFirst = Panic.
Proof.
  intros Hm. unfold ExtractSmartSentences, mul64.
  rewrite wrap64_id by (unfold maxInt64; lia).
  unfold builder_Grow.
  replace (maxLen * 2 <? 0) with true by (symmetry; apply Z.ltb_lt; lia).
  reflexivity.
Qed.

(** The empty text with [maxLen = -1]. *)
Lemma ExtractSmartSentences_negative_maxLen_witness :
  ExtractSmartSentences roomy [] 1 (-1) false = Panic.
Proof.
  apply (ExtractSmartSentences_negative_maxLen roomy [] 1 (-1) false). lia.
Defined.

(** ** Blank texts *)

Lemma takeWhile_all_true {A} (p : A -> bool) l :
  forallb p l = true -> takeWhile p l = l.
Proof.
  induction l as [|x l IH]; [reflexivity|]. cbn [forallb takeWhile].
  intros H. apply andb_true_iff in H. destruct H as [H1 H2].
  rewrite H1, (IH H2). reflexivity.
Qed.

(** X14: a text of spaces, tabs and newlines only yields no sentence and an
    empty remainder from [ExtractSmartSentences]. *)
Theorem ExtractSmartSentences_blank_text alloc text minLen maxLen isFirst :
  0 <= maxLen < 2 ^ 62 -> alloc (maxLen * 2) = true -> forallb isTrimSpace text = true ->
  ExtractSmartSentences alloc text minLen maxLen isFirst = Ok ([], []).
Proof.
  intros Hm Ha Hb. rewrite ExtractSmartSentences_loop by assumption.
  cbn [smartLoop]. pose proof (len_nonneg text) as L.
  destruct (Z.ltb_spec 0 (len text)); [|reflexivity].
  rewrite skipSpaceFwd_spec by (unfold len in *; lia).
  rewrite sub_full, (takeWhile_all_true _ _ Hb). cbn [bind].
  replace (len text <=? 0 + len text) with true by (symmetry; apply Z.leb_le; lia).
  reflexivity.
Qed.

(** Spaces, tabs and newlines. *)
Lemma ExtractSmartSentences_blank_text_witness :
  ExtractSmartSentences roomy ([r_space; r_nl; r_tab; r_nl; r_space]) 1 50 true
  = Ok ([], []).
Proof.
  apply (ExtractSmartSentences_blank_text roomy [r_space; r_nl; r_tab; r_nl; r_space] 1 50 true).
  - lia.
  - reflexivity.
  - reflexivity.
Defined.

Lemma dropWhile_all_true {A} (p : A -> bool) l :
  forallb p l = true -> dropWhile p l = [].
Proof.
  induction l as [|x l IH]; [reflexivity|]. cbn [forallb dropWhile].
  intros H. apply andb_true_iff in H. destruct H as [H1 H2].
  rewrite H1. apply IH, H2.
Qed.

Lemma TrimSpace_blank t :
  forallb unicode_IsSpace t = true -> strings_TrimSpace t = [].
Proof.
  intros H. unfold strings_TrimSpace.
  rewrite (dropWhile_all_true unicode_IsSpace t H). reflexivity.
Qed.

Lemma eagerWalk_blank : forall text acc,
  forallb unicode_IsSpace acc = true -> forallb unicode_IsSpace text = true ->
  fst (eagerWalk acc text) = []
  /\ forallb unicode_IsSpace (snd (eagerWalk acc text)) = true.
Proof.
  induction text as [|r text IH]; intros acc Ha Ht; [split; [reflexivity | exact Ha]|].
  cbn [forallb] in Ht. apply andb_true_iff in Ht. destruct Ht as [Hr Ht].
  assert (forallb unicode_IsSpace (acc ++ [r]) = true) as Har
    by (rewrite forallb_app, Ha; cbn [forallb]; rewrite Hr; reflexivity).
  cbn [eagerWalk]. destruct (IsSentenceEndPunctuation r).
  - rewrite (TrimSpace_blank _ Har). cbn [isEmpty].
    destruct (IH [] eq_refl Ht) as [E1 E2].
    destruct (eagerWalk [] text) as [ss rem]. cbn [fst snd] in *. split; assumption.
  - apply IH; assumption.
Qed.

(** X15: a text of white space only yields no sentence and an empty
    remainder from [ExtractCompleteSentences], although the newline is
    sentence-end punctuation. *)
Theorem ExtractCompleteSentences_blank_text (text : Text) :
  forallb unicode_IsSpace text = true -> ExtractCompleteSentences text = ([], []).
Proof.
  intros H. rewrite ExtractCompleteSentences_walk_eq.
  destruct (eagerWalk_blank text [] eq_refl H) as [E1 E2].
  rewrite E1, (TrimSpace_blank _ E2). reflexivity.
Qed.

(** Space, newline, carriage return and ideographic space. *)
Lemma ExtractCompleteSentences_blank_text_witness :
  ExtractCompleteSentences [r_space; r_nl; 13; r_nl; 12288] = ([], []).
Proof.
  apply (ExtractCompleteSentences_blank_text [r_space; r_nl; 13; r_nl; 12288]).
  reflexivity.
Defined.

(** ** Two separator tables that agree on the runes of the text *)

Lemma index_In text i r : index text i = Ok r -> In r text.
Proof.
  unfold index. destruct (i <? 0); [discriminate|].
  destruct (nth_error text (Z.to_nat i)) as [x|] eqn:E; [|discriminate].
  intros H. injection H as <-. exact (nth_error_In _ _ E).
Qed.

Lemma In_skipn_in {A} (x : A) n : forall l, In x (skipn n l) -> In x l.
Proof.
  induction n as [|n IH]; intros [|y l] H; try exact H.
  right. apply IH. exact H.
Qed.

Lemma In_firstn_in {A} (x : A) n : forall l, In x (firstn n l) -> In x l.
Proof.
  induction n as [|n IH]; intros [|y l]; cbn [firstn In]; try tauto.
  intros [H|H]; [left; exact H | right; apply IH; exact H].
Qed.

Lemma slice_In text lo hi c r : slice text lo hi = Ok c -> In r c -> In r text.
Proof.
  unfold slice. destruct ((0 <=? lo) && (lo <=? hi) && (hi <=? len text));
    [|discriminate].
  intros H. injection H as <-. intros Hr.
  apply In_firstn_in, In_skipn_in in Hr. exact Hr.
Qed.

Lemma trimSpaceRunes_In c seg r : trimSpaceRunes c = Ok seg -> In r seg -> In r c.
Proof.
  rewrite trimSpaceRunes_spec. intros H. injection H as <-.
  destruct (trim_decompose isTrimSpace c) as (lead & trail & E & _).
  fold (trimList c) in E. intros Hr. rewrite E.
  apply in_or_app. right. apply in_or_app. left. exact Hr.
Qed.

Section SameSeparators.
Variables (m1 m2 : runeMap) (text : Text).
Hypothesis agree : forall r, In r text -> mapGet m1 r = mapGet m2 r.

Lemma windowScan_ext endPos fuel : forall i,
  windowScan fuel text endPos m1 i = windowScan fuel text endPos m2 i.
Proof.
  induction fuel as [|fuel IH]; intros i; [reflexivity|].
  cbn [windowScan]. destruct (i <? endPos); [|reflexivity].
  destruct (index text i) as [r| |] eqn:E; cbn [bind]; try reflexivity.
  rewrite (agree r (index_In _ _ _ E)), !IH. reflexivity.
Qed.

Lemma tailScan_ext fuel : forall i,
  tailScan fuel text m1 i = tailScan fuel text m2 i.
Proof.
  induction fuel as [|fuel IH]; intros i; [reflexivity|].
  cbn [tailScan]. destruct (i <? len text); [|reflexivity].
  destruct (index text i) as [r| |] eqn:E; cbn [bind]; try reflexivity.
  rewrite (agree r (index_In _ _ _ E)), IH. reflexivity.
Qed.

Lemma findNextSplitPoint_ext startPos maxLen :
  findNextSplitPoint text startPos maxLen m1
  = findNextSplitPoint text startPos maxLen m2.
Proof.
  unfold findNextSplitPoint. rewrite windowScan_ext, tailScan_ext. reflexivity.
Qed.

Lemma acceptable_ext segment minLen :
  (forall r, In r segment -> In r text) ->
  acceptable segment minLen m1 = acceptable segment minLen m2.
Proof.
  intros Hin. unfold acceptable. destruct (minLen <=? len segment); [|reflexivity].
  destruct (index segment (len segment - 1)) as [r| |] eqn:E; cbn [bind];
    try reflexivity.
  rewrite (agree r (Hin r (index_In _ _ _ E))). reflexivity.
Qed.

Lemma smartLoop_ext minLen maxLen fuel : forall startPos sentences remaining,
  smartLoop fuel text minLen maxLen m1 startPos sentences remaining
  = smartLoop fuel text minLen maxLen m2 startPos sentences remaining.
Proof.
  induction fuel as [|fuel IH]; intros startPos sentences remaining; [reflexivity|].
  cbn [smartLoop]. destruct (startPos <? len text); [|reflexivity].
  destruct (skipSpaceFwd (S (length text)) text startPos) as [s| |];
    cbn [bind]; try reflexivity.
  destruct (len text <=? s); [reflexivity|].
  rewrite findNextSplitPoint_ext.
  destruct (findNextSplitPoint text s maxLen m2) as [splitPos| |];
    cbn [bind]; try reflexivity.
  destruct (splitPos =? -1); [reflexivity|].
  destruct (slice text s (splitPos + 1)) as [candidate| |] eqn:Ec;
    cbn [bind]; try reflexivity.
  destruct (trimSpaceRunes candidate) as [segment| |] eqn:Es;
    cbn [bind]; try reflexivity.
  rewrite (acceptable_ext segment minLen).
  - destruct (acceptable segment minLen m2) as [[|]| |]; cbn [bind];
      try reflexivity; apply IH.
  - intros r Hr. apply (slice_In _ _ _ _ _ Ec), (trimSpaceRunes_In _ _ _ Es), Hr.
Qed.
End SameSeparators.

Lemma permissive_without_comma r :
  (r =? r_comma) || (r =? r_fw_comma) = false ->
  mapGet firstPunctuation r = mapGet punctuationMap r.
Proof.
  intros H. apply orb_false_iff in H. destruct H as [H1 H2].
  apply Z.eqb_neq in H1, H2.
  unfold firstPunctuation. cbn [mapGet].
  replace (r_fw_comma =? r) with false by (symmetry; apply Z.eqb_neq; auto).
  replace (r_comma =? r) with false by (symmetry; apply Z.eqb_neq; auto).
  reflexivity.
Qed.

(** X16: [isFirst] matters for commas only: on a text without an ASCII or
    full-width comma, [ExtractSmartSentences] returns the same result, and
    [ContainsSentenceSeparator] the same answer, with [isFirst] true and
    false. *)
Theorem first_pass_without_comma alloc text minLen maxLen :
  noComma text = true ->
  ExtractSmartSentences alloc text minLen maxLen true
  = ExtractSmartSentences alloc text minLen maxLen false
  /\ ContainsSentenceSeparator text true = ContainsSentenceSeparator text false.
Proof.
  intros Hc.
  assert (forall r, In r text -> mapGet firstPunctuation r = mapGet punctuationMap r)
    as agree.
  { intros r Hr. apply permissive_without_comma.
    unfold noComma in Hc. rewrite forallb_forall in Hc.
    apply negb_true_iff, Hc, Hr. }
  split.
  - unfold ExtractSmartSentences. cbn [selectSeparators].
    rewrite (smartLoop_ext firstPunctuation punctuationMap text agree). reflexivity.
  - rewrite !ContainsSentenceSeparator_scan. cbn [selectSeparators].
    clear Hc. induction text as [|r text IH]; [reflexivity|].
    cbn [existsb]. rewrite (agree r (or_introl eq_refl)), IH; [reflexivity|].
    intros x Hx. apply agree. right. exact Hx.
Qed.

(** A text with a semicolon and a question mark. *)
Lemma first_pass_without_comma_witness :
  ExtractSmartSentences roomy (str "Wait; what? Nothing yet") 3 10 true
  = ExtractSmartSentences roomy (str "Wait; what? Nothing yet") 3 10 false
  /\ ContainsSentenceSeparator (str "Wait; what? Nothing yet") true
     = ContainsSentenceSeparator (str "Wait; what? Nothing yet") false.
Proof.
  apply (first_pass_without_comma roomy (str "Wait; what? Nothing yet") 3 10).
  vm_compute; reflexivity.
Defined.

(** ** The two tests for an ordinal label *)

Lemma forallb_get (p : rune -> bool) (t : Text) :
  forallb p t = true -> forall j, 0 <= j < len t -> p (get t j) = true.
Proof.
  induction t as [|x t IH]; intros H j Hj; [cbn in Hj; lia|].
  cbn [forallb] in H. apply andb_true_iff in H. destruct H as [H1 H2].
  destruct (Z.eq_dec j 0) as [->|]; [rewrite get_cons_0; exact H1|].
  rewrite get_cons_S by lia. apply IH; [exact H2|]. rewrite len_cons in Hj. lia.
Qed.

Lemma digit_not_isBlank c : isAsciiDigit c = true -> isBlank c = false.
Proof.
  intros H. apply digit_not_blank in H. rewrite isTrimSpace_split in H.
  apply orb_false_iff in H. tauto.
Qed.

(** In a label, digits and then a period, the period is an ordinal period
    exactly when there are at most three digits. *)
Lemma ordinalPeriod_label digits :
  digits <> [] -> forallb isAsciiDigit digits = true ->
  (ordinalPeriod (digits ++ [r_dot]) (len digits) <-> len digits <= 3).
Proof.
  intros Hne Hd. pose proof (nonempty_len digits Hne) as Hn.
  pose proof (forallb_get _ _ Hd) as Hg.
  assert (forall j, 0 <= j < len digits ->
            isAsciiDigit (get (digits ++ [r_dot]) j) = true) as Hg'
    by (intros j Hj; rewrite get_app_l by lia; apply Hg, Hj).
  split.
  - intros (_ & blanks & ds & Hb & Hds & Hstart & Bl & Dg & Pre).
    assert (blanks = 0) as ->.
    { destruct (Z.eq_dec blanks 0) as [|Hnz]; [assumption | exfalso].
      specialize (Bl (len digits - 1) ltac:(lia)).
      rewrite (digit_not_isBlank _ (Hg' (len digits - 1) ltac:(lia))) in Bl.
      discriminate Bl. }
    destruct (Z.eq_dec (len digits - 0 - ds) 0) as [|Hnz]; [lia | exfalso].
    specialize (Pre ltac:(lia)).
    rewrite (digit_not_blank _ (Hg' (len digits - 0 - ds - 1) ltac:(lia))) in Pre.
    discriminate Pre.
  - intros Hle. split.
    + rewrite get_app_r by lia. rewrite Z.sub_diag. reflexivity.
    + exists 0, (len digits). repeat split; try lia.
      intros j Hj. apply Hg'. lia.
Qed.

(** X17: the two tests for an ordinal label differ on long numbers.  On
    a string that [IsNumberWithDot] accepts, [isNumberPrefix] at the final
    period of the trimmed string answers true exactly when there are at most
    three digits. *)
Theorem ordinal_tests_agree_to_three_digits (s : Text) :
  IsNumberWithDot s = Ok true ->
  isNumberPrefix (strings_TrimSpace s) (len (strings_TrimSpace s) - 1)
  = Ok (len (strings_TrimSpace s) - 1 <=? 3).
Proof.
  intros H. apply IsNumberWithDot_label in H.
  destruct H as (digits & Hne & Hd & ->).
  pose proof (nonempty_len digits Hne) as Hn.
  rewrite len_app. replace (len digits + len [r_dot] - 1) with (len digits)
    by (cbn; lia).
  pose proof (ordinalPeriod_label digits Hne Hd) as Ho.
  assert (0 <= len digits < len (digits ++ [r_dot])) as Hr
    by (rewrite len_app; cbn; lia).
  pose proof (isNumberPrefix_ordinal (digits ++ [r_dot]) (len digits) Hr) as I.
  destruct (isNumberPrefix_returns (digits ++ [r_dot]) (len digits) ltac:(lia))
    as [b Eb].
  rewrite Eb in *. f_equal. destruct (Z.leb_spec (len digits) 3) as [Hle|Hgt].
  - apply Ho, I in Hle. injection Hle as ->. reflexivity.
  - destruct b; [|reflexivity]. exfalso.
    assert (len digits <= 3) by (apply Ho, I; reflexivity). lia.
Qed.

(** "2024." is a number with a dot and no ordinal prefix. *)
Lemma ordinal_tests_agree_to_three_digits_witness :
  isNumberPrefix (strings_TrimSpace (str " 2024. "))
    (len (strings_TrimSpace (str " 2024. ")) - 1)
  = Ok (len (strings_TrimSpace (str " 2024. ")) - 1 <=? 3).
Proof.
  apply (ordinal_tests_agree_to_three_digits (str " 2024. ")).
  vm_compute; reflexivity.
Defined.

(** ** Smart extraction of plain prose is eager extraction *)

Lemma get_In (t : Text) j : 0 <= j < len t -> In (get t j) t.
Proof.
  intros Hj. unfold get. apply nth_In. unfold len in Hj. lia.
Qed.

Lemma forallb_sub_get (p : rune -> bool) (t : Text) : forall n a,
  0 <= a -> a + Z.of_nat n <= len t ->
  (forall j, a <= j < a + Z.of_nat n -> p (get t j) = true) ->
  forallb p (sub t a (a + Z.of_nat n)) = true.
Proof.
  induction n as [|n IH]; intros a Ha Hb H.
  - rewrite sub_nil by lia. reflexivity.
  - rewrite sub_cons by lia. cbn [forallb]. rewrite H by lia.
    replace (a + Z.of_nat (S n)) with (a + 1 + Z.of_nat n) by lia.
    apply IH; try lia. intros j Hj. apply H. lia.
Qed.

Lemma forallb_slice (p : rune -> bool) (t : Text) a b :
  0 <= a <= b -> b <= len t ->
  (forall j, a <= j < b -> p (get t j) = true) ->
  forallb p (sub t a b) = true.
Proof.
  intros Ha Hb H. replace b with (a + Z.of_nat (Z.to_nat (b - a))) by lia.
  apply forallb_sub_get; try lia. intros j Hj. apply H. lia.
Qed.

Lemma dropWhile_ext_in {A} (p q : A -> bool) l :
  (forall x, In x l -> p x = q x) -> dropWhile p l = dropWhile q l.
Proof.
  induction l as [|x l IH]; intros H; [reflexivity|]. cbn [dropWhile].
  rewrite <- (H x (or_introl eq_refl)). destruct (p x); [|reflexivity].
  apply IH. intros y Hy. apply H. right. exact Hy.
Qed.

Lemma dropWhile_In {A} (p : A -> bool) l x : In x (dropWhile p l) -> In x l.
Proof.
  induction l as [|y l IH]; [intros []|]. cbn [dropWhile].
  destruct (p y); [intros H; right; apply IH, H | intros H; exact H].
Qed.

Lemma trim_ext (p q : rune -> bool) (t : Text) :
  (forall x, In x t -> p x = q x) ->
  rev (dropWhile p (rev (dropWhile p t))) = rev (dropWhile q (rev (dropWhile q t))).
Proof.
  intros H. rewrite (dropWhile_ext_in p q t H). f_equal.
  apply dropWhile_ext_in. intros x Hx. apply H.
  apply in_rev in Hx. exact (dropWhile_In q t x Hx).
Qed.

Lemma terminal_is_separator r :
  IsSentenceEndPunctuation r = true -> mapGet punctuationMap r = true.
Proof.
  unfold IsSentenceEndPunctuation, sentenceEndPunctuation, punctuationMap.
  cbn [rangeEq mapGet].
  repeat match goal with
         | |- context [r =? ?a] =>
             destruct (Z.eqb_spec r a); [subst r; intros _; reflexivity|]
         end.
  discriminate.
Qed.

Lemma trimSpace_is_space r : isTrimSpace r = true -> unicode_IsSpace r = true.
Proof.
  unfold isTrimSpace, r_space, r_tab, r_nl.
  destruct (Z.eqb_spec r 32) as [->|]; [reflexivity|].
  destruct (Z.eqb_spec r 9) as [->|]; [reflexivity|].
  destruct (Z.eqb_spec r 10) as [->|]; [reflexivity|]. discriminate.
Qed.

Lemma blank_not_terminal r : isBlank r = true -> IsSentenceEndPunctuation r = false.
Proof.
  unfold isBlank, r_space, r_tab.
  destruct (Z.eqb_spec r 32) as [->|]; [reflexivity|].
  destruct (Z.eqb_spec r 9) as [->|]; [reflexivity|]. discriminate.
Qed.

Section PlainProse.
Variables (minLen maxLen : Z) (text : Text).
Hypothesis minLen_small : minLen <= 1.
Hypothesis maxLen_nonneg : 0 <= maxLen.
Hypothesis prose : plainProse text = true.

Local Abbreviation sep := punctuationMap.

Lemma prose_rune r :
  In r text ->
  r <> r_nl
  /\ mapGet sep r = IsSentenceEndPunctuation r
  /\ unicode_IsSpace r = isTrimSpace r.
Proof.
  intros Hr. unfold plainProse in prose. rewrite forallb_forall in prose.
  specialize (prose r Hr). apply andb_true_iff in prose. destruct prose as [H12 H3].
  apply andb_true_iff in H12. destruct H12 as [H1 H2].
  apply negb_true_iff in H1, H2, H3. apply Z.eqb_neq in H1.
  split; [exact H1|]. split.
  - destruct (IsSentenceEndPunctuation r) eqn:E.
    + apply terminal_is_separator, E.
    + destruct (mapGet sep r); [discriminate H2 | reflexivity].
  - destruct (isTrimSpace r) eqn:E.
    + apply trimSpace_is_space, E.
    + destruct (unicode_IsSpace r); [discriminate H3 | reflexivity].
Qed.

Lemma prose_noNewline : noNewline text = true.
Proof.
  apply forallb_forall. intros r Hr. apply negb_true_iff, Z.eqb_neq.
  apply (prose_rune r Hr).
Qed.

Lemma prose_get_nl j : 0 <= j < len text -> get text j <> r_nl.
Proof. intros Hj. apply (prose_rune _ (get_In text j Hj)). Qed.

(** White space in front of the cursor holds no sentence-end rune. *)
Lemma prose_skipped s :
  0 <= s <= len text ->
  noTerminal (sub text s (skipWs text s)) = true
  /\ forallb unicode_IsSpace (sub text s (skipWs text s)) = true.
Proof.
  intros Hs. destruct (skipWs_range text s Hs) as [R _].
  split; apply forallb_slice; try lia; intros j Hj;
    pose proof (skipWs_blank text s j Hs Hj) as B.
  - apply negb_true_iff, blank_not_terminal.
    rewrite isTrimSpace_split in B. apply orb_true_iff in B.
    destruct B as [B|B]; [exact B|]. apply Z.eqb_eq in B.
    exfalso. apply (prose_get_nl j); [lia | exact B].
  - apply trimSpace_is_space, B.
Qed.

Lemma prose_TrimSpace a b :
  strings_TrimSpace (sub text a b) = trimList (sub text a b).
Proof.
  apply trim_ext. intros x Hx. apply prose_rune.
  unfold sub in Hx. apply In_firstn_in, In_skipn_in in Hx. exact Hx.
Qed.

Lemma prose_trim_from s b :
  0 <= s <= len text -> skipWs text s <= b -> b <= len text ->
  strings_TrimSpace (sub text s b) = trimList (sub text (skipWs text s) b).
Proof.
  intros Hs Hb Hl. destruct (skipWs_range text s Hs) as [R _].
  rewrite <- prose_TrimSpace.
  rewrite (sub_split text s (skipWs text s) b) by lia.
  apply TrimSpace_lead, prose_skipped, Hs.
Qed.

Lemma runs_eager s ss rem out :
  runs minLen maxLen sep text s ss rem out -> rem = [] -> 0 <= s <= len text ->
  out = (ss ++ fst (eagerWalk [] (sub text s (len text))),
         strings_TrimSpace (snd (eagerWalk [] (sub text s (len text))))).
Proof.
  induction 1 as [s ss rem L|s ss rem L St|s ss rem seg L St
                 |s ss rem seg next out L St A R IH
                 |s ss rem seg next out L St A R IH]; intros -> Hs.
  - rewrite sub_nil by lia. cbn [eagerWalk fst snd]. rewrite app_nil_r. reflexivity.
  - apply smartStep_Done in St; [|exact Hs].
    destruct (prose_skipped s Hs) as [Hn Hw]. rewrite St in Hn, Hw.
    rewrite <- (app_nil_r (sub text s (len text))).
    rewrite (eagerWalk_plain _ [] [] Hn). cbn [eagerWalk fst snd app].
    rewrite (TrimSpace_blank _ Hw), app_nil_r. reflexivity.
  - rewrite smartStep_opt in St by assumption. cbv zeta in St.
    destruct (skipWs_range text s Hs) as [R _].
    destruct (Z.leb_spec (len text) (skipWs text s)); [discriminate St|].
    destruct (nextSplitOpt text (skipWs text s) maxLen sep) as [p|] eqn:E;
      [discriminate St|].
    injection St as <-.
    assert (noTerminal (sub text (skipWs text s) (len text)) = true) as Hn.
    { apply forallb_slice; try lia. intros j Hj. apply negb_true_iff.
      destruct (prose_rune _ (get_In text j ltac:(lia))) as (_ & <- & _).
      unfold nextSplitOpt, windowEnd in E.
      set (e := Z.min (skipWs text s + maxLen) (len text)) in E.
      destruct (firstFrom (windowSplit sep text e) _ _) eqn:E1; [discriminate E|].
      destruct (Z.lt_ge_cases j e).
      - rewrite <- (windowSplit_plain text sep e j) by (apply prose_get_nl; lia).
        apply (firstFrom_None _ _ _ E1). lia.
      - rewrite <- (tailSplit_plain text sep j) by (apply prose_get_nl; lia).
        apply (firstFrom_None _ _ _ E). lia. }
    rewrite (sub_split text s (skipWs text s) (len text)) by lia.
    rewrite <- (app_nil_r (sub text s (skipWs text s) ++ _)).
    rewrite eagerWalk_plain
      by (rewrite noTerminal_app, Hn, (proj1 (prose_skipped s Hs)); reflexivity).
    cbn [eagerWalk fst snd app]. rewrite app_nil_r.
    rewrite <- (sub_split text s (skipWs text s) (len text)) by lia.
    rewrite prose_trim_from by lia.
    destruct (0 <? len _) eqn:El; [reflexivity|].
    apply Z.ltb_ge in El. f_equal. symmetry. apply len_zero_nil.
    pose proof (len_nonneg (trimList (sub text (skipWs text s) (len text)))). lia.
  - destruct (step_Seg_plain maxLen sep maxLen_nonneg
                (selectSeparators_not_blank false) text prose_noNewline
                s seg next ltac:(lia) St) as (C & Et & En & Hlt).
    destruct (skipWs_range text s Hs) as [Rs _].
    pose proof C as (Hne & _ & _ & Hin & Hlast).
    pose proof (nonempty_len seg Hne) as Lseg.
    assert (next <= len text) as Hnext.
    { apply (f_equal len) in Et. rewrite !len_app, len_sub in Et by lia.
      pose proof (len_nonneg (sub text next (len text))). lia. }
    assert (seg = sub text (skipWs text s) next) as Eseg.
    { pose proof (sub_mid (sub text 0 (skipWs text s)) seg
                    (sub text next (len text))) as M.
      rewrite len_sub in M by lia. rewrite <- Et, Z.sub_0_r, <- En in M.
      symmetry. exact M. }
    rewrite (IH eq_refl ltac:(lia)). rewrite <- app_assoc. cbn [app].
    rewrite (sub_split text s next (len text)) by lia.
    destruct (last_split seg Hne) as (init & Einit).
    remember (get seg (len seg - 1)) as p eqn:Ep.
    assert (sub text s next = (sub text s (skipWs text s) ++ init) ++ [p]) as Esub.
    { rewrite (sub_split text s (skipWs text s) next) by lia.
      rewrite <- Eseg. rewrite Einit at 1. apply app_assoc. }
    assert (len seg = next - skipWs text s) as Ls by lia.
    assert (forall j, 0 <= j < len seg -> In (get seg j) text) as Hseg.
    { intros j Hj. replace (get seg j) with (get text (skipWs text s + j)).
      - apply get_In. lia.
      - rewrite Eseg at 1. symmetry. apply get_sub; lia. }
    assert (In p text) as Hp by (rewrite Ep; apply Hseg; lia).
    destruct (prose_rune p Hp) as (Pnl & Pend & _).
    rewrite Hlast in Pend. symmetry in Pend.
    assert (noTerminal init = true) as Hinit.
    { assert (init = sub seg 0 (len seg - 1)) as ->
        by (pose proof (sub_init init p) as X; rewrite <- Einit in X;
            symmetry; exact X).
      apply forallb_slice; try lia. intros j Hj. apply negb_true_iff.
      destruct (prose_rune _ (Hseg j ltac:(lia))) as (_ & <- & _). apply Hin. lia. }
    rewrite Esub, <- app_assoc.
    rewrite eagerWalk_plain
      by (rewrite noTerminal_app, Hinit, (proj1 (prose_skipped s Hs)); reflexivity).
    cbn [app eagerWalk]. rewrite Pend.
    assert (strings_TrimSpace
              ((sub text s (skipWs text s) ++ init) ++ [p]) = seg) as ->.
    { rewrite <- Esub, prose_trim_from by lia.
      rewrite <- Eseg. apply (clause_trim sep (selectSeparators_not_blank false) seg C). }
    destruct (eagerWalk [] (sub text next (len text))) as [ss' rem'].
    destruct seg; [congruence|]. reflexivity.
  - exfalso.
    destruct (step_Seg_plain maxLen sep maxLen_nonneg
                (selectSeparators_not_blank false) text prose_noNewline
                s seg next ltac:(lia) St) as (C & _).
    pose proof C as (Hne & _ & _ & _ & Hlast).
    pose proof (nonempty_len seg Hne).
    unfold accepts in A. rewrite Hlast, andb_true_r in A.
    apply Z.leb_gt in A. lia.
Qed.
End PlainProse.

(** X18: on plain prose (no newline, semicolon or colon, no white space
    other than space and tab), with [minLen] at most one and [isFirst]
    false, [ExtractSmartSentences] returns what [ExtractCompleteSentences]
    returns, whatever the window. *)
Theorem smart_is_eager_on_plain_prose alloc text minLen maxLen :
  minLen <= 1 -> 0 <= maxLen < 2 ^ 62 -> alloc (maxLen * 2) = true -> len text <= 2 ^ 62 ->
  plainProse text = true ->
  ExtractSmartSentences alloc text minLen maxLen false
  = Ok (ExtractCompleteSentences text).
Proof.
  intros Hmin Hm Ha Hl Hp.
  destruct (ExtractSmartSentences_runs alloc text minLen maxLen false Hm Ha
              (bound_62 text maxLen Hm Hl)) as (out & E & R).
  rewrite E. f_equal. pose proof (len_nonneg text).
  rewrite (runs_eager minLen maxLen text Hmin ltac:(lia) Hp 0 [] [] out R eq_refl
             ltac:(lia)).
  rewrite sub_full, ExtractCompleteSentences_walk_eq. reflexivity.
Qed.

(** Three sentences and an unterminated tail, window of nine runes. *)
Lemma smart_is_eager_on_plain_prose_witness :
  ExtractSmartSentences roomy (str " So it goes.  Is that all, then? Yes! and so") 1 9 false
  = Ok (ExtractCompleteSentences (str " So it goes.  Is that all, then? Yes! and so")).
Proof.
  apply (smart_is_eager_on_plain_prose roomy (str " So it goes.  Is that all, then? Yes! and so") 1 9).
  - lia.
  - lia.
  - reflexivity.
  - vm_compute; discriminate.
  - vm_compute; reflexivity.
Defined.

(** ** The forward scan does not look behind the cursor *)

(** X19: [findNextSplitPoint] never looks behind the cursor: with any
    text put in front, the scan from the shifted cursor returns the shifted
    split point (and -1 for -1). *)
Theorem findNextSplitPoint_ignores_prefix (pre X : Text) s maxLen sep :
  0 <= s <= len X -> 0 <= maxLen -> len pre + len X + maxLen <= maxInt64 ->
  findNextSplitPoint (pre ++ X) (len pre + s) maxLen sep
  = (r <- findNextSplitPoint X s maxLen sep ;;
     Ok (if r =? -1 then -1 else len pre + r)).
Proof.
  intros Hs Hm Ho. pose proof (len_nonneg pre) as Lp.
  rewrite !findNextSplitPoint_spec by (try rewrite len_app; lia).
  cbn [bind]. f_equal. unfold nextSplit.
  rewrite nextSplitOpt_shift by lia.
  destruct (nextSplitOpt X s maxLen sep) as [i|] eqn:E; cbn [option_map].
  - pose proof (nextSplitOpt_range X s maxLen sep i Hs Hm E).
    replace (i =? -1) with false by (symmetry; apply Z.eqb_neq; lia). reflexivity.
  - reflexivity.
Qed.

(** An ordinal label in front does not change the scan. *)
Lemma findNextSplitPoint_ignores_prefix_witness :
  findNextSplitPoint (str "1. No" ++ str " more. Done") (len (str "1. No") + 0) 4
    punctuationMap
  = (r <- findNextSplitPoint (str " more. Done") 0 4 punctuationMap ;;
     Ok (if r =? -1 then -1 else len (str "1. No") + r)).
Proof.
  apply (findNextSplitPoint_ignores_prefix (str "1. No") (str " more. Done") 0 4
           punctuationMap).
  - vm_compute; split; discriminate.
  - lia.
  - vm_compute; discriminate.
Defined.

(** ** ContainsSentenceSeparator on chunks *)

(** X20: [ContainsSentenceSeparator] can be applied chunk by chunk: a
    concatenation contains a separator exactly when one of its parts does;
    and the answer with [isFirst] true is the answer with [isFirst] false or
    the presence of a comma. *)
Theorem ContainsSentenceSeparator_chunks (a b : Text) (isFirst : bool) :
  ContainsSentenceSeparator (a ++ b) isFirst
  = ContainsSentenceSeparator a isFirst || ContainsSentenceSeparator b isFirst
  /\ ContainsSentenceSeparator a true
     = ContainsSentenceSeparator a false || negb (noComma a).
Proof.
  rewrite !ContainsSentenceSeparator_scan. split; [apply existsb_app|].
  cbn [selectSeparators]. induction a as [|r a IH]; [reflexivity|].
  cbn [existsb noComma forallb]. fold (noComma a). rewrite IH.
  rewrite negb_andb, negb_involutive.
  assert (mapGet firstPunctuation r
          = mapGet punctuationMap r || ((r =? r_comma) || (r =? r_fw_comma))) as ->.
  { destruct ((r =? r_comma) || (r =? r_fw_comma)) eqn:E.
    - rewrite orb_true_r. apply orb_true_iff in E.
      destruct E as [E|E]; apply Z.eqb_eq in E; subst r; reflexivity.
    - rewrite orb_false_r. apply permissive_without_comma, E. }
  destruct (mapGet punctuationMap r), ((r =? r_comma) || (r =? r_fw_comma)),
    (existsb (mapGet punctuationMap) a), (noComma a); reflexivity.
Qed.

(** ** Plain text and a minimum length of one: nothing is set aside *)

Lemma keepsOrder_plain minLen maxLen sep text :
  minLen <= 1 -> 0 <= maxLen ->
  (forall c, mapGet sep c = true -> isBlank c = false) ->
  noNewline text = true ->
  forall fuel s, 0 <= s <= len text ->
    keepsOrder fuel text minLen maxLen sep s false = true.
Proof.
  intros Hmin Hm Hsep Hn. induction fuel as [|fuel IH]; intros s Hs; [reflexivity|].
  cbn [keepsOrder]. destruct (Z.ltb_spec s (len text)); [|reflexivity].
  destruct (smartStep text maxLen sep s) as [|seg|seg next] eqn:St; try reflexivity.
  destruct (step_Seg_plain maxLen sep Hm Hsep text Hn s seg next ltac:(lia) St)
    as (C & _).
  destruct (smartStep_Seg text maxLen sep s seg next Hs Hm St) as (_ & Hnx & _).
  pose proof C as (Hne & _ & _ & _ & Hlast).
  pose proof (nonempty_len seg Hne).
  unfold accepts. rewrite Hlast, andb_true_r.
  replace (minLen <=? len seg) with true by (symmetry; apply Z.leb_le; lia).
  cbn [negb andb]. apply IH.
  destruct (smartStep_Seg text maxLen sep s seg next Hs Hm St) as (? & ? & _). lia.
Qed.

(** X21: on a text without newlines and with [minLen] at most one, no
    candidate is set aside: the sentences followed by the remainder have the
    content of the text, in order, spaces and tabs aside. *)
Theorem ExtractSmartSentences_keeps_plain_text alloc text minLen maxLen isFirst :
  minLen <= 1 -> 0 <= maxLen < 2 ^ 62 -> alloc (maxLen * 2) = true -> len text <= 2 ^ 62 ->
  noNewline text = true ->
  exists sentences remaining,
    ExtractSmartSentences alloc text minLen maxLen isFirst = Ok (sentences, remaining)
    /\ content isTrimSpace (concat sentences ++ remaining)
       = content isTrimSpace text.
Proof.
  intros Hmin Hm Ha Hl Hn. rewrite ExtractSmartSentences_loop by assumption.
  pose proof (len_nonneg text).
  apply (smartLoop_content text minLen maxLen (selectSeparators isFirst)
           ltac:(lia) (bound_62 text maxLen Hm Hl)) with (deferred := false);
    try (unfold len in *; lia); try reflexivity.
  apply keepsOrder_plain; try assumption; try lia.
  apply selectSeparators_not_blank.
Qed.

(** First pass, window of six runes. *)
Lemma ExtractSmartSentences_keeps_plain_text_witness :
  exists sentences remaining,
    ExtractSmartSentences roomy (str "So: yes, no; maybe. Or  not") 1 6 true
    = Ok (sentences, remaining)
    /\ content isTrimSpace (concat sentences ++ remaining)
       = content isTrimSpace (str "So: yes, no; maybe. Or  not").
Proof.
  apply (ExtractSmartSentences_keeps_plain_text roomy (str "So: yes, no; maybe. Or  not")
           1 6 true).
  - lia.
  - lia.
  - reflexivity.
  - vm_compute; discriminate.
  - vm_compute; reflexivity.
Defined.

(** ** What the parameters change *)

(** The candidates do not depend on [minLen]: a larger [minLen] only
    withholds the candidates that are too short. *)
Lemma runs_raise_minLen minLen1 minLen2 maxLen sep text s ss rem out :
  minLen1 <= minLen2 -> 0 <= maxLen ->
  runs minLen1 maxLen sep text s ss rem out -> 0 <= s <= len text ->
  exists new,
    fst out = ss ++ new
    /\ forall ss' rem', exists rem2,
         runs minLen2 maxLen sep text s ss' rem'
           (ss' ++ filter (fun sentence => minLen2 <=? len sentence) new, rem2).
Proof.
  intros Hle Hm.
  induction 1 as [s ss rem L|s ss rem L St|s ss rem seg L St
                 |s ss rem seg next out L St A R IH
                 |s ss rem seg next out L St A R IH]; intros Hs.
  - exists []. split; [symmetry; apply app_nil_r|]. intros ss' rem'.
    exists rem'. cbn [filter]. rewrite app_nil_r. apply runs_end, L.
  - exists []. split; [symmetry; apply app_nil_r|]. intros ss' rem'.
    exists rem'. cbn [filter]. rewrite app_nil_r. apply runs_done; assumption.
  - exists []. split; [symmetry; apply app_nil_r|]. intros ss' rem'.
    exists (if 0 <? len seg then seg else rem'). cbn [filter].
    rewrite app_nil_r. apply runs_tail; assumption.
  - destruct (smartStep_Seg text maxLen sep s seg next Hs Hm St) as (? & ? & _).
    destruct (IH ltac:(lia)) as (new & E & F).
    exists (seg :: new). split; [rewrite E, <- app_assoc; reflexivity|].
    intros ss' rem'. cbn [filter].
    unfold accepts in A. apply andb_true_iff in A. destruct A as [_ A2].
    destruct (minLen2 <=? len seg) eqn:E2.
    + destruct (F (ss' ++ [seg]) rem') as (rem2 & R2). exists rem2.
      rewrite <- app_assoc in R2. eapply runs_accept; eauto.
      unfold accepts. rewrite E2, A2. reflexivity.
    + destruct (F ss' (deferSegment rem' seg)) as (rem2 & R2). exists rem2.
      eapply runs_reject; eauto. unfold accepts. rewrite E2. reflexivity.
  - destruct (smartStep_Seg text maxLen sep s seg next Hs Hm St) as (? & ? & _).
    destruct (IH ltac:(lia)) as (new & E & F).
    exists new. split; [exact E|]. intros ss' rem'.
    destruct (F ss' (deferSegment rem' seg)) as (rem2 & R2). exists rem2.
    eapply runs_reject; eauto.
    unfold accepts in *. apply andb_false_iff in A. apply andb_false_iff.
    destruct A as [A|A]; [left | right; exact A].
    apply Z.leb_gt in A. apply Z.leb_gt. lia.
Qed.

(** X22: the candidates do not depend on [minLen]: the sentences emitted
    with a larger [minLen] are those emitted with the smaller one that are
    at least the larger [minLen] long, in the same order. *)
Theorem raising_minLen_filters_sentences alloc text minLen1 minLen2 maxLen isFirst :
  minLen1 <= minLen2 -> 0 <= maxLen < 2 ^ 62 -> alloc (maxLen * 2) = true -> len text <= 2 ^ 62 ->
  exists sentences1 remaining1 remaining2,
    ExtractSmartSentences alloc text minLen1 maxLen isFirst
    = Ok (sentences1, remaining1)
    /\ ExtractSmartSentences alloc text minLen2 maxLen isFirst
       = Ok (filter (fun sentence => minLen2 <=? len sentence) sentences1,
             remaining2).
Proof.
  intros Hle Hm Ha Hl. pose proof (bound_62 text maxLen Hm Hl) as Ho.
  destruct (ExtractSmartSentences_runs alloc text minLen1 maxLen isFirst Hm Ha Ho)
    as ([ss1 rem1] & E1 & R1).
  destruct (ExtractSmartSentences_runs alloc text minLen2 maxLen isFirst Hm Ha Ho)
    as (out2 & E2 & R2).
  pose proof (len_nonneg text).
  destruct (runs_raise_minLen minLen1 minLen2 maxLen _ text 0 [] [] (ss1, rem1)
              Hle ltac:(lia) R1 ltac:(lia)) as (new & En & F).
  cbn [fst app] in En. subst new.
  destruct (F [] []) as (rem2 & R2'). cbn [app] in R2'.
  rewrite (runs_det _ _ _ _ _ _ _ _ R2 _ R2') in E2.
  exists ss1, rem1, rem2. split; assumption.
Qed.

(** From [minLen = 1] to [minLen = 5]. *)
Lemma raising_minLen_filters_sentences_witness :
  exists sentences1 remaining1 remaining2,
    ExtractSmartSentences roomy (str "No. Maybe so. Yes! Well then, why not?") 1 50 false
    = Ok (sentences1, remaining1)
    /\ ExtractSmartSentences roomy (str "No. Maybe so. Yes! Well then, why not?") 5 50 false
       = Ok (filter (fun sentence => 5 <=? len sentence) sentences1, remaining2).
Proof.
  apply (raising_minLen_filters_sentences roomy (str "No. Maybe so. Yes! Well then, why not?") 1 5 50 false).
  - lia.
  - lia.
  - reflexivity.
  - vm_compute; discriminate.
Defined.

(** Without newlines the split point is the first separator, whatever the
    window. *)
Lemma nextSplitOpt_plain_window text s maxLen1 maxLen2 sep :
  0 <= maxLen1 -> 0 <= maxLen2 -> noNewline text = true -> 0 <= s <= len text ->
  nextSplitOpt text s maxLen1 sep = nextSplitOpt text s maxLen2 sep.
Proof.
  intros H1 H2 Hn Hs.
  assert (forall j, s <= j < len text -> get text j <> r_nl) as Hnl
    by (intros j Hj; apply (noNewline_get text Hn); lia).
  assert (forall m m' p, 0 <= m -> 0 <= m' ->
            nextSplitOpt text s m sep = Some p ->
            nextSplitOpt text s m' sep = Some p) as Same.
  { intros m m' p Hm Hm' E.
    destruct (nextSplitOpt_Some_plain text m sep Hm s p Hs Hnl E) as (Rp & Pp & Np).
    apply nextSplitOpt_first; try assumption; try lia.
    intros j Hj. apply Hnl. lia. }
  destruct (nextSplitOpt text s maxLen1 sep) as [p|] eqn:E1.
  - symmetry. apply (Same maxLen1 maxLen2 p H1 H2 E1).
  - destruct (nextSplitOpt text s maxLen2 sep) as [p|] eqn:E2; [|reflexivity].
    rewrite (Same maxLen2 maxLen1 p H2 H1 E2) in E1. discriminate E1.
Qed.

Lemma smartLoop_plain_window text minLen maxLen1 maxLen2 sep :
  0 <= maxLen1 -> 0 <= maxLen2 ->
  len text + maxLen1 <= maxInt64 -> len text + maxLen2 <= maxInt64 ->
  noNewline text = true ->
  forall fuel s ss rem, 0 <= s <= len text ->
    smartLoop fuel text minLen maxLen1 sep s ss rem
    = smartLoop fuel text minLen maxLen2 sep s ss rem.
Proof.
  intros H1 H2 O1 O2 Hn. induction fuel as [|fuel IH]; intros s ss rem Hs;
    [reflexivity|].
  rewrite !smartLoop_unfold by assumption.
  destruct (s <? len text); [|reflexivity].
  assert (smartStep text maxLen1 sep s = smartStep text maxLen2 sep s) as E.
  { rewrite !smartStep_opt by assumption. cbv zeta.
    destruct (skipWs_range text s Hs) as [R _].
    rewrite (nextSplitOpt_plain_window text (skipWs text s) maxLen1 maxLen2 sep)
      by (try assumption; lia).
    reflexivity. }
  rewrite E. destruct (smartStep text maxLen2 sep s) as [|seg|seg next] eqn:St;
    try reflexivity.
  destruct (smartStep_Seg text maxLen2 sep s seg next Hs H2 St) as (? & ? & _).
  destruct (accepts seg minLen sep); apply IH; lia.
Qed.

(** X23: on a text without newlines [maxLen] has no effect on the result
    of [ExtractSmartSentences], the buffer being provided for either value:
    the scan goes on past the window to the first separator, so [maxLen]
    does not bound the length of a sentence. *)
Theorem window_is_idle_without_newlines alloc text minLen maxLen1 maxLen2 isFirst :
  0 <= maxLen1 < 2 ^ 62 -> alloc (maxLen1 * 2) = true ->
  0 <= maxLen2 < 2 ^ 62 -> alloc (maxLen2 * 2) = true -> len text <= 2 ^ 62 ->
  noNewline text = true ->
  ExtractSmartSentences alloc text minLen maxLen1 isFirst
  = ExtractSmartSentences alloc text minLen maxLen2 isFirst.
Proof.
  intros H1 A1 H2 A2 Hl Hn. rewrite !ExtractSmartSentences_loop by assumption.
  pose proof (len_nonneg text).
  apply smartLoop_plain_window; try assumption; try lia; apply bound_62; assumption.
Qed.

(** A window of zero and a window of two hundred runes. *)
Lemma window_is_idle_without_newlines_witness :
  ExtractSmartSentences roomy (str "A long sentence, well past the window. Next") 4 0 true
  = ExtractSmartSentences roomy (str "A long sentence, well past the window. Next") 4 200 true.
Proof.
  apply (window_is_idle_without_newlines roomy (str "A long sentence, well past the window. Next") 4 0 200 true).
  - lia.
  - reflexivity.
  - lia.
  - reflexivity.
  - vm_compute; discriminate.
  - vm_compute; reflexivity.
Defined.

(** ** The forward scan outside the text *)

(** X24: with the cursor at or past the end of the text
    [findNextSplitPoint] returns -1 without reading the text; with a
    negative cursor it panics. *)
Theorem findNextSplitPoint_outside_text text startPos maxLen sep :
  0 <= maxLen -> - 2 ^ 63 <= startPos -> startPos + maxLen <= maxInt64 ->
  (len text <= startPos -> findNextSplitPoint text startPos maxLen sep = Ok (-1))
  /\ (startPos < 0 -> findNextSplitPoint text startPos maxLen sep = Panic).
Proof.
  intros Hm Hlo Hhi. pose proof (len_nonneg text) as L.
  unfold findNextSplitPoint, add64. rewrite wrap64_id by (unfold maxInt64 in *; lia).
  split; intros Hs.
  - assert ((if len text <? startPos + maxLen then len text else startPos + maxLen)
            = len text) as -> by (destruct (Z.ltb_spec (len text) (startPos + maxLen)); lia).
    cbn [windowScan].
    replace (startPos <? len text) with false by (symmetry; apply Z.ltb_ge; lia).
    cbn [bind]. rewrite Z.ltb_irrefl. reflexivity.
  - destruct (Z.ltb_spec (len text) (startPos + maxLen)).
    + cbn [windowScan].
      replace (startPos <? len text) with true by (symmetry; apply Z.ltb_lt; lia).
      rewrite index_panic by lia. reflexivity.
    + cbn [windowScan]. destruct (Z.ltb_spec startPos (startPos + maxLen)).
      * rewrite index_panic by lia. reflexivity.
      * cbn [bind].
        replace (startPos + maxLen <? len text) with true
          by (symmetry; apply Z.ltb_lt; lia).
        cbn [tailScan].
        replace (startPos + maxLen <? len text) with true
          by (symmetry; apply Z.ltb_lt; lia).
        rewrite index_panic by lia. reflexivity.
Qed.

(** The cursor at the end of "Hi.". *)
Lemma findNextSplitPoint_outside_text_witness :
  (len (str "Hi.") <= 3 -> findNextSplitPoint (str "Hi.") 3 10 punctuationMap = Ok (-1))
  /\ (3 < 0 -> findNextSplitPoint (str "Hi.") 3 10 punctuationMap = Panic).
Proof.
  apply (findNextSplitPoint_outside_text (str "Hi.") 3 10 punctuationMap).
  - lia.
  - lia.
  - vm_compute; discriminate.
Defined.

(** ** The forward scan finds the punctuation that is left *)

Lemma firstFrom_upto P n lo p :
  lo <= p < lo + Z.of_nat n -> P p = true ->
  exists r, firstFrom P n lo = Some r /\ lo <= r <= p.
Proof.
  intros Hp Pp. destruct (firstFrom P n lo) as [r|] eqn:E.
  - exists r. split; [reflexivity|].
    destruct (firstFrom_Some P n lo r E) as (Hr & _ & Hmin).
    destruct (Z.le_gt_cases r p); [lia|].
    rewrite (Hmin p) in Pp by lia. discriminate Pp.
  - rewrite (firstFrom_None P n lo E p Hp) in Pp. discriminate Pp.
Qed.

(** A separator that is not a newline, at [p] after the cursor, stops the
    scan at or before [p]. *)
Lemma nextSplitOpt_upto text s maxLen sep p :
  0 <= s <= p -> p < len text -> 0 <= maxLen ->
  mapGet sep (get text p) = true -> get text p <> r_nl ->
  exists r, nextSplitOpt text s maxLen sep = Some r /\ s <= r <= p.
Proof.
  intros Hs Hp Hm Sp Np. unfold nextSplitOpt, windowEnd.
  set (e := Z.min (s + maxLen) (len text)).
  destruct (Z.lt_ge_cases p e) as [Hpe|Hpe].
  - destruct (firstFrom_upto (windowSplit sep text e) (Z.to_nat (e - s)) s p)
      as (r & E & Hr); [lia | rewrite windowSplit_plain; assumption |].
    rewrite E. exists r. split; [reflexivity | exact Hr].
  - destruct (firstFrom (windowSplit sep text e) (Z.to_nat (e - s)) s) as [r|] eqn:E.
    + exists r. split; [reflexivity|].
      destruct (firstFrom_Some _ _ _ _ E) as (Hr & _). lia.
    + destruct (firstFrom_upto (tailSplit sep text) (Z.to_nat (len text - e)) e p)
        as (r & E2 & Hr); [lia | rewrite tailSplit_plain; assumption |].
      rewrite E2. exists r. split; [reflexivity|]. unfold e in *. lia.
Qed.

(** X25: [findNextSplitPoint] does not miss punctuation.  The index it
    returns holds a rune of the separator set, and every separator between
    the cursor and that index is a newline; it returns -1 only when every
    separator from the cursor on is a newline. *)
Theorem findNextSplitPoint_finds_punctuation text startPos maxLen isFirst :
  0 <= startPos <= len text -> 0 <= maxLen -> startPos + maxLen <= maxInt64 ->
  exists r,
    findNextSplitPoint text startPos maxLen (selectSeparators isFirst) = Ok r
    /\ ((r = -1
         /\ forall j, startPos <= j < len text ->
              mapGet (selectSeparators isFirst) (get text j) = true ->
              get text j = r_nl)
        \/ (startPos <= r < len text
            /\ mapGet (selectSeparators isFirst) (get text r) = true
            /\ forall j, startPos <= j < r ->
                 mapGet (selectSeparators isFirst) (get text j) = true ->
                 get text j = r_nl)).
Proof.
  intros Hs Hm Ho. rewrite findNextSplitPoint_spec by assumption.
  eexists. split; [reflexivity|]. unfold nextSplit.
  set (sep := selectSeparators isFirst).
  assert (forall r j, nextSplitOpt text startPos maxLen sep = Some r ->
            startPos <= j < r -> mapGet sep (get text j) = true ->
            get text j = r_nl) as Before.
  { intros r j E Hj Sj. destruct (Z.eq_dec (get text j) r_nl) as [|Nj]; [assumption|].
    destruct (nextSplitOpt_range text startPos maxLen sep r Hs Hm E).
    destruct (nextSplitOpt_upto text startPos maxLen sep j) as (r' & E' & Hr');
      try assumption; try lia.
    rewrite E in E'. injection E' as <-. lia. }
  destruct (nextSplitOpt text startPos maxLen sep) as [r|] eqn:E.
  - right. pose proof (nextSplitOpt_range text startPos maxLen sep r Hs Hm E) as Hr.
    split; [exact Hr|]. split; [|intros j Hj Sj; exact (Before r j eq_refl Hj Sj)].
    unfold nextSplitOpt, windowEnd in E.
    set (e := Z.min (startPos + maxLen) (len text)) in E.
    destruct (firstFrom (windowSplit sep text e) _ startPos) as [k|] eqn:E1.
    + injection E as <-. destruct (firstFrom_Some _ _ _ _ E1) as (_ & Pk & _).
      unfold windowSplit in Pk.
      destruct (Z.eqb_spec (get text k) r_nl) as [->|]; [|exact Pk].
      apply separator_newline.
    + destruct (firstFrom_Some _ _ _ _ E) as (_ & Pk & _).
      unfold tailSplit in Pk. apply orb_true_iff in Pk.
      destruct Pk as [Pk|Pk]; [|exact Pk].
      apply Z.eqb_eq in Pk. rewrite Pk. apply separator_newline.
  - left. split; [reflexivity|]. intros j Hj Sj.
    destruct (Z.eq_dec (get text j) r_nl) as [|Nj]; [assumption|].
    destruct (nextSplitOpt_upto text startPos maxLen sep j) as (r' & E' & _);
      try assumption; try lia.
    rewrite E in E'. discriminate E'.
Qed.

(** A newline that is passed over, then a comma, first pass. *)
Lemma findNextSplitPoint_finds_punctuation_witness :
  exists r,
    findNextSplitPoint ([r_nl] ++ str "ab, cd" ++ [r_nl] ++ str " e") 0 3
      (selectSeparators true) = Ok r
    /\ ((r = -1
         /\ forall j, 0 <= j < len ([r_nl] ++ str "ab, cd" ++ [r_nl] ++ str " e") ->
              mapGet (selectSeparators true)
                (get ([r_nl] ++ str "ab, cd" ++ [r_nl] ++ str " e") j) = true ->
              get ([r_nl] ++ str "ab, cd" ++ [r_nl] ++ str " e") j = r_nl)
        \/ (0 <= r < len ([r_nl] ++ str "ab, cd" ++ [r_nl] ++ str " e")
            /\ mapGet (selectSeparators true)
                 (get ([r_nl] ++ str "ab, cd" ++ [r_nl] ++ str " e") r) = true
            /\ forall j, 0 <= j < r ->
                 mapGet (selectSeparators true)
                   (get ([r_nl] ++ str "ab, cd" ++ [r_nl] ++ str " e") j) = true ->
                 get ([r_nl] ++ str "ab, cd" ++ [r_nl] ++ str " e") j = r_nl)).
Proof.
  apply (findNextSplitPoint_finds_punctuation
           ([r_nl] ++ str "ab, cd" ++ [r_nl] ++ str " e") 0 3 true).
  - vm_compute; split; discriminate.
  - lia.
  - vm_compute; discriminate.
Defined.

(** ** An unterminated tail replaces the remainder *)

Lemma nextSplitOpt_none_from text s maxLen sep :
  0 <= s <= len text -> 0 <= maxLen -> mapGet sep r_nl = true ->
  (forall j, s <= j < len text -> mapGet sep (get text j) = false) ->
  nextSplitOpt text s maxLen sep = None.
Proof.
  intros Hs Hm Hnl Hno.
  assert (forall j, s <= j < len text -> get text j <> r_nl) as Hn
    by (intros j Hj E; specialize (Hno j Hj); rewrite E, Hnl in Hno; discriminate).
  unfold nextSplitOpt, windowEnd. set (e := Z.min (s + maxLen) (len text)).
  rewrite firstFrom_none.
  - apply firstFrom_none. intros j Hj.
    rewrite tailSplit_plain by (apply Hn; lia). apply Hno. lia.
  - intros j Hj. rewrite windowSplit_plain by (apply Hn; lia). apply Hno. lia.
Qed.

Lemma trimList_nil_blank t : trimList t = [] -> forallb isTrimSpace t = true.
Proof.
  intros E. destruct (trim_decompose isTrimSpace t) as (lead & trail & Et & Hl & Ht & _).
  fold (trimList t) in Et. rewrite E in Et. rewrite Et, forallb_app, Hl.
  cbn [app]. exact Ht.
Qed.

Lemma forallb_false_get (p : rune -> bool) (t : Text) :
  forallb p t = false -> exists q, 0 <= q < len t /\ p (get t q) = false.
Proof.
  induction t as [|x t IH]; [discriminate|]. cbn [forallb].
  destruct (p x) eqn:E; cbn [andb].
  - intros H. destruct (IH H) as (q & Hq & Pq). exists (q + 1).
    rewrite len_cons, get_cons_S by lia. replace (q + 1 - 1) with q by lia.
    split; [lia | exact Pq].
  - intros _. exists 0. rewrite len_cons, get_cons_0.
    pose proof (len_nonneg t). split; [lia | exact E].
Qed.

Lemma trimList_lead lead y :
  forallb isTrimSpace lead = true -> trimList (lead ++ y) = trimList y.
Proof.
  intros H. unfold trimList. rewrite (dropWhile_lead isTrimSpace lead y H).
  reflexivity.
Qed.

Section Tail.
Variables (minLen maxLen : Z) (sep : runeMap) (body tail : Text).
Hypothesis maxLen_nonneg : 0 <= maxLen.
Hypothesis sep_newline : mapGet sep r_nl = true.
Hypothesis body_ends : endsInSeparator sep body = true.
Hypothesis tail_plain : forall j, 0 <= j < len tail -> mapGet sep (get tail j) = false.
Hypothesis tail_not_blank : forallb isTrimSpace tail = false.

Local Abbreviation T := (body ++ tail).

Lemma tail_rune : exists q,
  len body <= q < len T /\ isTrimSpace (get T q) = false.
Proof.
  destruct (forallb_false_get _ _ tail_not_blank) as (q & Hq & Pq).
  pose proof (len_nonneg body). exists (len body + q). rewrite len_app.
  split; [lia|]. rewrite get_app_r by lia.
  replace (len body + q - len body) with q by lia. exact Pq.
Qed.

Lemma tail_no_separator j :
  len body <= j < len T -> mapGet sep (get T j) = false.
Proof.
  intros Hj. rewrite len_app in Hj. rewrite get_app_r by lia.
  apply tail_plain. lia.
Qed.

Lemma body_last :
  0 < len body ->
  mapGet sep (get T (len body - 1)) = true /\ get T (len body - 1) <> r_nl.
Proof.
  intros Hb. unfold endsInSeparator in body_ends.
  destruct (rev body) as [|x l] eqn:Er.
  - apply (f_equal (@rev _)) in Er. rewrite rev_involutive in Er.
    rewrite Er in Hb. cbn in Hb. lia.
  - rewrite get_app_l by lia. rewrite (get_rev_head body x l Er).
    apply andb_true_iff in body_ends. destruct body_ends as [H1 H2].
    apply negb_true_iff, Z.eqb_neq in H2. split; assumption.
Qed.

(** From a cursor in the body or at its end, the iteration is a candidate
    that ends inside the body, or the tail. *)
Lemma step_before_tail s :
  0 <= s <= len body ->
  let s' := skipWs T s in
  s' < len T
  /\ ((s' < len body
       /\ exists r, nextSplitOpt T s' maxLen sep = Some r /\ s' <= r < len body)
      \/ (len body <= s' /\ nextSplitOpt T s' maxLen sep = None
          /\ trimList (sub T s' (len T)) = trimList tail)).
Proof.
  intros Hs s'. destruct tail_rune as (q & Hq & Pq).
  assert (0 <= s <= len T) as HsT by lia.
  destruct (skipWs_range T s HsT) as [R _]. fold s' in R.
  assert (s' <= q) as Hsq.
  { destruct (Z.le_gt_cases s' q); [assumption|].
    rewrite (skipWs_blank T s q HsT) in Pq by (fold s'; lia). discriminate Pq. }
  split; [lia|].
  destruct (Z.lt_ge_cases s' (len body)) as [Hlt|Hge].
  - left. split; [exact Hlt|].
    destruct (body_last ltac:(lia)) as [Sp Np].
    destruct (nextSplitOpt_upto T s' maxLen sep (len body - 1))
      as (r & E & Hr); try assumption; try lia.
    exists r. split; [exact E | lia].
  - right. split; [exact Hge|]. split.
    + apply nextSplitOpt_none_from; try assumption; try lia.
      intros j Hj. apply tail_no_separator. lia.
    + assert (sub T (len body) (len T) = tail) as Et.
      { rewrite sub_app_r by lia. rewrite Z.sub_diag, len_app.
        replace (len body + len tail - len body) with (len tail) by lia.
        apply sub_full. }
      transitivity (trimList (sub T (len body) (len T))); [|f_equal; exact Et].
      rewrite (sub_split T (len body) s' (len T)) by lia.
      symmetry. apply trimList_lead.
      apply forallb_slice; try lia. intros j Hj.
      apply (skipWs_blank T s j HsT). fold s'. lia.
Qed.

Lemma runs_tail_wins s ss rem out :
  runs minLen maxLen sep T s ss rem out -> 0 <= s <= len body ->
  snd out = trimList tail.
Proof.
  induction 1 as [s ss rem L|s ss rem L St|s ss rem seg L St
                 |s ss rem seg next out L St A R IH
                 |s ss rem seg next out L St A R IH]; intros Hs;
    pose proof (step_before_tail s Hs) as X; cbv zeta in X;
    destruct X as (Hlt & Hcase);
    assert (0 <= s <= len T) as HsT
      by (rewrite len_app; pose proof (len_nonneg tail); lia);
    destruct (skipWs_range T s HsT) as [Rg _];
    try (rewrite smartStep_opt in St by assumption; cbv zeta in St;
         destruct (Z.leb_spec (len T) (skipWs T s)); [lia|]).
  - lia.
  - destruct (nextSplitOpt T (skipWs T s) maxLen sep); discriminate St.
  - destruct Hcase as [(_ & r & E & _)|(_ & E & Et)]; rewrite E in St;
      [discriminate St|].
    injection St as <-. cbn [snd]. rewrite Et.
    destruct (trimList tail) as [|x l] eqn:El; [|reflexivity].
    rewrite (trimList_nil_blank tail El) in tail_not_blank. discriminate tail_not_blank.
  - destruct Hcase as [(_ & r & E & Hr)|(_ & E & _)]; rewrite E in St;
      [|discriminate St].
    injection St as _ <-. apply IH. lia.
  - destruct Hcase as [(_ & r & E & Hr)|(_ & E & _)]; rewrite E in St;
      [|discriminate St].
    injection St as _ <-. apply IH. lia.
Qed.
End Tail.

(** X26: when the text ends in an unterminated tail (after a body that
    is empty or ends in a separator other than a newline comes text with no
    separator that is not all spaces, tabs and newlines), the remainder of
    [ExtractSmartSentences] is that tail, trimmed by [trimSpaceRunes], and
    nothing else: candidates set aside before it are not returned. *)
Theorem unterminated_tail_replaces_remainder alloc body tail minLen maxLen isFirst :
  0 <= maxLen < 2 ^ 62 -> alloc (maxLen * 2) = true -> len (body ++ tail) <= 2 ^ 62 ->
  endsInSeparator (selectSeparators isFirst) body = true ->
  ContainsSentenceSeparator tail isFirst = false ->
  forallb isTrimSpace tail = false ->
  exists sentences remaining,
    trimSpaceRunes tail = Ok remaining
    /\ ExtractSmartSentences alloc (body ++ tail) minLen maxLen isFirst
       = Ok (sentences, remaining).
Proof.
  intros Hm Ha Hl Hb Hc Ht.
  destruct (ExtractSmartSentences_runs alloc (body ++ tail) minLen maxLen isFirst Hm Ha
              (bound_62 _ maxLen Hm Hl)) as ([ss rem] & E & R).
  exists ss, (trimList tail). split; [apply trimSpaceRunes_spec|].
  rewrite E. f_equal. f_equal.
  rewrite ContainsSentenceSeparator_scan in Hc.
  pose proof (len_nonneg body).
  apply (runs_tail_wins minLen maxLen (selectSeparators isFirst) body tail
           ltac:(lia) (separator_newline isFirst) Hb
           (existsb_false_get _ _ Hc) Ht 0 [] [] (ss, rem) R). lia.
Qed.

(** "No." and "Oh?" are set aside and do not come back. *)
Lemma unterminated_tail_replaces_remainder_witness :
  exists sentences remaining,
    trimSpaceRunes (str " and then") = Ok remaining
    /\ ExtractSmartSentences roomy (str "No. Oh? Well, it did." ++ str " and then") 5 50 false
       = Ok (sentences, remaining).
Proof.
  apply (unterminated_tail_replaces_remainder roomy (str "No. Oh? Well, it did.") (str " and then") 5 50 false).
  - lia.
  - reflexivity.
  - vm_compute; discriminate.
  - vm_compute; reflexivity.
  - vm_compute; reflexivity.
  - vm_compute; reflexivity.
Defined.

(** ** Eager extraction: the sentences are pieces of the text *)

Lemma trim_slice (ws : rune -> bool) text a b :
  0 <= a <= b -> b <= len text ->
  exists lo hi,
    a <= lo /\ lo <= hi /\ hi <= b
    /\ rev (dropWhile ws (rev (dropWhile ws (sub text a b)))) = sub text lo hi
    /\ len (rev (dropWhile ws (rev (dropWhile ws (sub text a b))))) = hi - lo.
Proof.
  intros Ha Hb.
  destruct (trim_decompose ws (sub text a b)) as (lead & trail & E & _).
  destruct (sub_middle text a b _ _ _ Ha Hb E) as [L S].
  pose proof (len_nonneg lead).
  pose proof (len_nonneg (rev (dropWhile ws (rev (dropWhile ws (sub text a b)))))).
  exists (a + len lead),
    (a + len lead + len (rev (dropWhile ws (rev (dropWhile ws (sub text a b)))))).
  repeat split; try lia. exact S.
Qed.

Lemma eagerWalk_slices text : forall rest pre acc,
  text = pre ++ acc ++ rest ->
  slicesOf text (len pre) (fst (eagerWalk acc rest)).
Proof.
  induction rest as [|r rest IH]; intros pre acc Et; [constructor|].
  cbn [eagerWalk]. destruct (IsSentenceEndPunctuation r).
  - assert (text = (pre ++ acc ++ [r]) ++ [] ++ rest) as Et'
      by (rewrite Et, <- !app_assoc; reflexivity).
    pose proof (IH (pre ++ acc ++ [r]) [] Et') as Sl.
    destruct (eagerWalk [] rest) as [ss rem]. cbn [fst] in *.
    pose proof (len_nonneg pre). pose proof (len_nonneg acc).
    pose proof (len_nonneg rest).
    assert (len text = len pre + len acc + 1 + len rest) as Lt
      by (rewrite Et, !len_app, len_cons; lia).
    rewrite !len_app in Sl. change (len [r]) with 1 in Sl.
    destruct (strings_TrimSpace (acc ++ [r])) as [|y seg] eqn:Es; cbn [isEmpty].
    + apply (slicesOf_weaken text _ _ _ Sl). lia.
    + assert (sub text (len pre) (len pre + len acc + 1) = acc ++ [r]) as Esub.
      { pose proof (sub_mid pre (acc ++ [r]) rest) as M.
        rewrite <- app_assoc in M. cbn [app] in M. rewrite <- Et in M.
        rewrite len_app in M. change (len [r]) with 1 in M.
        rewrite Z.add_assoc in M. exact M. }
      destruct (trim_slice unicode_IsSpace text (len pre) (len pre + len acc + 1))
        as (lo & hi & Hlo & Hlh & Hhi & E & L); try lia.
      rewrite Esub in E, L. fold (strings_TrimSpace (acc ++ [r])) in E, L.
      rewrite Es in E, L. rewrite E. rewrite len_cons in L.
      pose proof (len_nonneg seg).
      apply slices_cons; try lia.
      apply (slicesOf_weaken text _ _ _ Sl). lia.
  - apply IH. rewrite Et, <- !app_assoc. reflexivity.
Qed.

(** X27: the sentences that [ExtractCompleteSentences] emits are pieces
    [text[lo:hi]] of the text, taken from left to right without overlap. *)
Theorem ExtractCompleteSentences_sentences_are_slices (text : Text) :
  slicesOf text 0 (fst (ExtractCompleteSentences text)).
Proof.
  rewrite ExtractCompleteSentences_walk_eq. cbn [fst].
  apply (eagerWalk_slices text text [] []). reflexivity.
Qed.

(** ** Device detection *)

Lemma tablet_agent_is_mobile s :
  regexTest tabletRegex s = true -> regexTest mobileRegex s = true.
Proof.
  unfold regexTest, tabletRegex, mobileRegex. cbn [existsb].
  intros H. rewrite orb_false_r in H. apply orb_true_iff in H.
  destruct H as [H|H]; rewrite H; rewrite ?orb_true_r; reflexivity.
Qed.

(** X28: [getDeviceType] never answers "tablet": both words of the tablet
    test are words of the mobile test, which is made first, so the answer is
    "mobile" when [isMobile] holds and "desktop" otherwise, and [isDesktop]
    is the negation of [isMobile]. *)
Theorem getDeviceType_is_never_tablet (b : Browser) :
  getDeviceType b = (if isMobile b then "mobile" else "desktop")%string
  /\ getDeviceType b <> "tablet"%string
  /\ isDesktop b = negb (isMobile b)
  /\ isTablet b && negb (isMobile b) = false.
Proof.
  assert (isTablet b && negb (isMobile b) = false) as H.
  { destruct (isTablet b) eqn:T; [|reflexivity]. cbn [andb].
    unfold isTablet in T. apply andb_true_iff in T. destruct T as [T _].
    apply andb_true_iff in T. destruct T as [T _].
    unfold isMobile. cbv zeta. rewrite (tablet_agent_is_mobile _ T). reflexivity. }
  unfold getDeviceType, isDesktop.
  destruct (isMobile b), (isTablet b); cbn in *;
    repeat split; try reflexivity; try discriminate.
Qed.

(** * The claims *)

(** ** Punctuation classes *)

Ltac eqb_cases r :=
  repeat match goal with
         | |- context [?a =? r] => destruct (Z.eqb_spec a r); [subst r|]
         | |- context [r =? ?a] => destruct (Z.eqb_spec r a); [subst r|]
         end.

(** C6, as the tables have it: the strict separator set holds exactly the
    ASCII and full-width period, question mark, exclamation mark, semicolon
    and colon, and the newline; the terminal classifier holds exactly the
    ASCII and full-width period, exclamation mark and question mark, and the
    newline; the pause classifier holds exactly the ASCII and full-width
    comma, semicolon and colon; the permissive set is the strict set plus the
    two commas. *)
Theorem punctuation_classes (r : rune) :
  (mapGet punctuationMap r = true <->
     r = 46 \/ r = 12290 \/ r = 63 \/ r = 65311 \/ r = 33 \/ r = 65281
     \/ r = 59 \/ r = 65307 \/ r = 58 \/ r = 65306 \/ r = 10)
  /\ (IsSentenceEndPunctuation r = true <->
     r = 46 \/ r = 12290 \/ r = 33 \/ r = 65281 \/ r = 63 \/ r = 65311 \/ r = 10)
  /\ (IsSentencePausePunctuation r = true <->
     r = 44 \/ r = 65292 \/ r = 59 \/ r = 65307 \/ r = 58 \/ r = 65306)
  /\ mapGet firstPunctuation r
     = mapGet punctuationMap r || (r =? 44) || (r =? 65292).
Proof.
  unfold IsSentenceEndPunctuation, IsSentencePausePunctuation, punctuationMap,
    firstPunctuation, sentenceEndPunctuation, sentencePausePunctuation,
    r_tab, r_nl, r_space, r_bang, r_comma, r_dot, r_colon, r_semi, r_quest,
    r_fw_dot, r_fw_bang, r_fw_comma, r_fw_colon, r_fw_semi, r_fw_quest.
  repeat split; cbn [mapGet rangeEq]; eqb_cases r; cbn;
    try tauto; try (intros; lia); try reflexivity;
    try (intros H; discriminate H);
    try (intros H; repeat (destruct H as [H|H]; try lia); lia).
Qed.

(** C6, the claim as stated fails: semicolon and colon are in the strict
    separator set but are not terminal punctuation for the classifier. *)
Lemma semicolon_not_terminal :
  mapGet punctuationMap r_semi = true /\ IsSentenceEndPunctuation r_semi = false
  /\ mapGet punctuationMap r_fw_colon = true
  /\ IsSentenceEndPunctuation r_fw_colon = false.
Proof. repeat split; reflexivity. Qed.

(** ** First-pass separators *)




(** ** Eager extraction *)

(** C5, as the code has it: eager extraction is the walk of the
    specification, with the remainder trimmed: every sentence-end rune
    closes a segment, emitted trimmed when not empty, whatever its length;
    the trailing accumulated text, trimmed of white space at both ends, is
    the remainder; the three stated results hold. *)
Theorem ExtractCompleteSentences_walk :
  (forall text,
     ExtractCompleteSentences text
     = (fst (eagerWalk [] text), strings_TrimSpace (snd (eagerWalk [] text))))
  /\ ExtractCompleteSentences (str "Hello world.") = ([str "Hello world."], [])
  /\ ExtractCompleteSentences (str "Hello") = ([], str "Hello")
  /\ ExtractCompleteSentences [] = ([], []).
Proof.
  split; [exact ExtractCompleteSentences_walk_eq|].
  repeat split; reflexivity.
Qed.

(** C5, the claim as stated fails: after "Well." the accumulated text is
    " Hello " and the remainder returned is "Hello". *)
Lemma eager_remainder_is_trimmed :
  eagerWalk [] (str "Well. Hello ") = ([str "Well."], str " Hello ")
  /\ ExtractCompleteSentences (str "Well. Hello ") = ([str "Well."], str "Hello").
Proof. split; reflexivity. Qed.

(** ** The ordinal guard *)

(** C2, at the failing input "1. First item": the period at index 1 is an
    ordinal marker (one digit at the start of the text), [isNumberPrefix]
    says so and the backward scan skips it, but the forward scan returns it
    and the extraction emits "1." as a sentence. *)
Theorem forward_scan_returns_ordinal_period :
  ordinalPeriod (str "1. First item") 1
  /\ isNumberPrefix (str "1. First item") 1 = Ok true
  /\ findLastPunctuation (str "1. First item") punctuationMap = Ok (-1)
  /\ findNextSplitPoint (str "1. First item") 0 200 punctuationMap = Ok 1
  /\ ExtractSmartSentences roomy (str "1. First item") 1 200 false
     = Ok ([str "1."], str "First item").
Proof.
  split; [|repeat split; vm_compute; reflexivity].
  apply isNumberPrefix_ordinal; vm_compute; [split; [discriminate|]|]; reflexivity.
Qed.

(** ** Rejected segments *)

(** C3, at the failing input "Hi. there" with [minLen = 5]: the candidate
    "Hi." is rejected and then overwritten by the unterminated tail; when no
    tail follows, the rejected candidates are kept, joined by one space. *)
Theorem rejected_segment_overwritten_by_tail :
  ExtractSmartSentences roomy (str "Hi. there") 5 50 false = Ok ([], str "there")
  /\ ExtractSmartSentences roomy (str "Hi.  Ok.") 5 50 false
     = Ok ([], str "Hi. Ok.").
Proof. split; vm_compute; reflexivity. Qed.

(** ** The forward windowed scan *)

Lemma filteredWindowSplit_false sep text endPos j :
  windowSplit sep text endPos j = false ->
  filteredWindowSplit sep text endPos j = false.
Proof.
  unfold windowSplit, filteredWindowSplit, backwardBoundary.
  destruct (get text j =? r_nl); [tauto|]. intros ->. reflexivity.
Qed.

Lemma filteredTailSplit_false sep text j :
  tailSplit sep text j = false -> filteredTailSplit sep text j = false.
Proof.
  unfold tailSplit, filteredTailSplit, backwardBoundary.
  destruct (get text j =? r_nl); [discriminate|]. cbn [orb].
  intros ->. reflexivity.
Qed.

Lemma filteredWindowSplit_kept sep text endPos r :
  isOrdinalAt text r = false ->
  filteredWindowSplit sep text endPos r = windowSplit sep text endPos r.
Proof.
  intros H. unfold windowSplit, filteredWindowSplit, backwardBoundary.
  rewrite H, andb_false_r. cbn [negb]. rewrite andb_true_r. reflexivity.
Qed.

Lemma filteredTailSplit_kept sep text r :
  isOrdinalAt text r = false ->
  filteredTailSplit sep text r = tailSplit sep text r.
Proof.
  intros H. unfold tailSplit, filteredTailSplit, backwardBoundary.
  rewrite H, andb_false_r. cbn [negb]. rewrite andb_true_r. reflexivity.
Qed.

(** C4, as the code has it.  The window is [startPos, endPos) with
    [endPos = min (startPos + maxLen) (len text)].  Inside the window a
    newline is a split point only when the rune after the following blanks
    is a digit that lies before [endPos - 2]; any other rune is a split
    point when it is in the separator set, ordinal period or not.  The scan
    returns the first split point of the window; failing that, the first
    newline or separator at or after [endPos]; failing that, -1.  When the
    index returned is not an ordinal period, it is also the first split
    point after ordinal-period filtering. *)
Theorem findNextSplitPoint_scan text startPos maxLen sep :
  0 <= startPos <= len text -> 0 <= maxLen -> startPos + maxLen <= maxInt64 ->
  let endPos := Z.min (startPos + maxLen) (len text) in
  exists r,
    findNextSplitPoint text startPos maxLen sep = Ok r
    /\ firstSplitPoint (windowSplit sep text endPos) (tailSplit sep text)
         startPos endPos (len text) r
    /\ (isOrdinalAt text r = false ->
        firstSplitPoint (filteredWindowSplit sep text endPos)
          (filteredTailSplit sep text) startPos endPos (len text) r).
Proof.
  intros Hs Hm Ho endPos.
  rewrite findNextSplitPoint_spec by assumption.
  eexists; split; [reflexivity|].
  assert (firstSplitPoint (windowSplit sep text endPos) (tailSplit sep text)
            startPos endPos (len text) (nextSplit text startPos maxLen sep)) as F.
  { unfold firstSplitPoint, nextSplit, nextSplitOpt, windowEnd. fold endPos.
    destruct (firstFrom (windowSplit sep text endPos) _ startPos) as [k|] eqn:E1.
    - left. apply firstFrom_Some in E1. destruct E1 as (B & P & N).
      repeat split; try lia; assumption.
    - pose proof (firstFrom_None _ _ _ E1) as N1.
      assert (forall j, startPos <= j < endPos ->
                        windowSplit sep text endPos j = false) as W
        by (intros j Hj; apply N1; lia).
      destruct (firstFrom (tailSplit sep text) _ endPos) as [k|] eqn:E2.
      + right; left. apply firstFrom_Some in E2. destruct E2 as (B & P & N).
        repeat split; try lia; assumption.
      + right; right. pose proof (firstFrom_None _ _ _ E2) as N2.
        repeat split; try assumption. intros j Hj. apply N2.
        unfold endPos in *. lia. }
  split; [exact F|]. intros Hr.
  destruct F as [(B & P & N)|[(B & W & P & N)|(B & W & N)]].
  - left. split; [exact B|]. split.
    + rewrite filteredWindowSplit_kept by exact Hr. exact P.
    + intros j Hj. apply filteredWindowSplit_false, N, Hj.
  - right; left. split; [exact B|]. split; [|split].
    + intros j Hj. apply filteredWindowSplit_false, W, Hj.
    + rewrite filteredTailSplit_kept by exact Hr. exact P.
    + intros j Hj. apply filteredTailSplit_false, N, Hj.
  - right; right. split; [exact B|]. split.
    + intros j Hj. apply filteredWindowSplit_false, W, Hj.
    + intros j Hj. apply filteredTailSplit_false, N, Hj.
Qed.

(** The scan on "1. First item\n2. Second item" from the "F", window of
    200: the newline before "2." is a forced split point. *)
Lemma findNextSplitPoint_scan_witness :
  exists r,
    findNextSplitPoint (str "1. First item" ++ [r_nl] ++ str "2. Second item")
      3 200 punctuationMap = Ok r
    /\ firstSplitPoint
         (windowSplit punctuationMap
            (str "1. First item" ++ [r_nl] ++ str "2. Second item") 28)
         (tailSplit punctuationMap
            (str "1. First item" ++ [r_nl] ++ str "2. Second item"))
         3 28 28 r
    /\ (isOrdinalAt (str "1. First item" ++ [r_nl] ++ str "2. Second item") r
        = false ->
        firstSplitPoint
          (filteredWindowSplit punctuationMap
             (str "1. First item" ++ [r_nl] ++ str "2. Second item") 28)
          (filteredTailSplit punctuationMap
             (str "1. First item" ++ [r_nl] ++ str "2. Second item"))
          3 28 28 r).
Proof.
  apply (findNextSplitPoint_scan
           (str "1. First item" ++ [r_nl] ++ str "2. Second item")
           3 200 punctuationMap).
  - vm_compute; split; discriminate.
  - lia.
  - vm_compute; discriminate.
Defined.

(** C4, the claim as stated fails: in "ab\n12" the newline at index 2 is
    followed by a digit, yet the scan does not return it, because the digit
    is not before [endPos - 2]; with one more rune it does. *)
Lemma newline_before_late_digit_not_forced :
  get (str "ab" ++ [r_nl] ++ str "12") 2 = r_nl
  /\ isAsciiDigit (get (str "ab" ++ [r_nl] ++ str "12") 3) = true
  /\ findNextSplitPoint (str "ab" ++ [r_nl] ++ str "12") 0 50 punctuationMap = Ok (-1)
  /\ findNextSplitPoint (str "ab" ++ [r_nl] ++ str "123") 0 50 punctuationMap = Ok 2.
Proof. repeat split; vm_compute; reflexivity. Qed.

(** ** Totality *)

(** C10, with the bound that keeps [maxLen * 2] and [startPos + maxLen]
    inside 64 bits: the scan returns -1 or an index from the cursor up to
    the end of the text; when the runtime provides the buffer of
    [maxLen * 2] bytes the extraction returns, and its loop returns for
    every budget above the length of the text (always the same result);
    when [maxLen] is positive and the runtime refuses the buffer the
    extraction panics; and with [maxLen = 0] the scan is the scan past the
    window. *)
Theorem ExtractSmartSentences_terminates text minLen maxLen isFirst :
  0 <= maxLen < 2 ^ 62 -> len text <= 2 ^ 62 ->
  let sep := selectSeparators isFirst in
  (forall startPos, 0 <= startPos <= len text ->
     exists r, findNextSplitPoint text startPos maxLen sep = Ok r
               /\ (r = -1 \/ startPos <= r < len text))
  /\ (forall alloc, alloc (maxLen * 2) = true ->
      exists out,
        ExtractSmartSentences alloc text minLen maxLen isFirst = Ok out
        /\ forall fuel, (length text < fuel)%nat ->
             smartLoop fuel text minLen maxLen sep 0 [] [] = Ok out)
  /\ (forall alloc, 0 < maxLen -> alloc (maxLen * 2) = false ->
      ExtractSmartSentences alloc text minLen maxLen isFirst = Panic)
  /\ (maxLen = 0 -> forall startPos, 0 <= startPos <= len text ->
        findNextSplitPoint text startPos maxLen sep
        = tailScan (S (length text)) text sep startPos).
Proof.
  intros Hm Hl sep.
  assert (len text + maxLen <= maxInt64) as Ho by (unfold maxInt64; lia).
  split; [|split; [|split]].
  - intros startPos Hs.
    rewrite findNextSplitPoint_spec by lia.
    eexists; split; [reflexivity|].
    apply nextSplit_range; lia.
  - intros alloc Ha.
    destruct (ExtractSmartSentences_returns alloc text minLen maxLen isFirst
                Hm Ha Hl) as [out E].
    exists out. split; [exact E|]. intros fuel Hf.
    rewrite ExtractSmartSentences_loop in E by assumption. rewrite <- E.
    apply smartLoop_fuel; try assumption; unfold len in *; lia.
  - intros alloc Hp Ha. unfold ExtractSmartSentences, builder_Grow.
    rewrite mul64_small by exact Hm. rewrite Ha.
    destruct (Z.ltb_spec (maxLen * 2) 0); [reflexivity|].
    destruct (Z.eqb_spec (maxLen * 2) 0); [lia | reflexivity].
  - intros -> startPos Hs.
    rewrite findNextSplitPoint_spec by lia.
    rewrite tailScan_spec by (unfold len in *; lia).
    unfold nextSplit, nextSplitOpt, windowEnd.
    replace (Z.min (startPos + 0) (len text)) with startPos by lia.
    rewrite Z.sub_diag. reflexivity.
Qed.

(** "Hi. there" with [maxLen = 0] and a negative [minLen]. *)
Lemma ExtractSmartSentences_terminates_witness :
  (forall startPos, 0 <= startPos <= len (str "Hi. there") ->
     exists r, findNextSplitPoint (str "Hi. there") startPos 0 punctuationMap = Ok r
               /\ (r = -1 \/ startPos <= r < len (str "Hi. there")))
  /\ (forall alloc, alloc (0 * 2) = true ->
      exists out,
        ExtractSmartSentences alloc (str "Hi. there") (-3) 0 false = Ok out
        /\ forall fuel, (length (str "Hi. there") < fuel)%nat ->
             smartLoop fuel (str "Hi. there") (-3) 0 punctuationMap 0 [] [] = Ok out)
  /\ (forall alloc, 0 < 0 -> alloc (0 * 2) = false ->
      ExtractSmartSentences alloc (str "Hi. there") (-3) 0 false = Panic)
  /\ (0 = 0 -> forall startPos, 0 <= startPos <= len (str "Hi. there") ->
        findNextSplitPoint (str "Hi. there") startPos 0 punctuationMap
        = tailScan (S (length (str "Hi. there"))) (str "Hi. there")
            punctuationMap startPos).
Proof.
  apply (ExtractSmartSentences_terminates (str "Hi. there") (-3) 0 false).
  - lia.
  - vm_compute; discriminate.
Defined.

(** C10, the claim as stated fails for a large [maxLen]: with the largest
    [int], [maxLen * 2] wraps to -2 and [Grow] panics, whatever the runtime
    provides; in the scan itself [startPos + maxLen] wraps to a negative
    [endPos] and the scan past the window indexes the text there; with
    [maxLen = 2 ^ 62 - 1] nothing wraps, and the extraction panics when the
    runtime refuses a buffer of [2 ^ 63 - 2] bytes. *)
Lemma largest_maxLen_panics :
  mul64 maxInt64 2 = -2
  /\ ExtractSmartSentences roomy (str " a") 0 maxInt64 false = Panic
  /\ add64 1 maxInt64 = - 2 ^ 63
  /\ findNextSplitPoint (str " a") 1 maxInt64 punctuationMap = Panic
  /\ mul64 (2 ^ 62 - 1) 2 = 2 ^ 63 - 2
  /\ ExtractSmartSentences boundedHeap (str " a") 0 (2 ^ 62 - 1) false = Panic.
Proof. repeat split; vm_compute; reflexivity. Qed.

(** ** Reconstruction of the text *)




(** ** No operation fails *)

(** C9, with the bound that keeps [maxLen * 2] inside 64 bits: the
    operations that index or slice return a result on every text, smart
    extraction when the runtime provides its buffer of [maxLen * 2] bytes,
    and eager extraction passes the content of every text through.  (The
    classifiers, [ExtractCompleteSentences] and [ContainsSentenceSeparator]
    only range over their input; they are total functions of the
    embedding.) *)
Theorem operations_return :
  (forall s, exists b, IsNumberWithDot s = Ok b)
  /\ (forall text pos, pos < len text -> exists b, isNumberPrefix text pos = Ok b)
  /\ (forall text sep,
        exists r, findLastPunctuation text sep = Ok r /\ -1 <= r < len text)
  /\ (forall text, exists segment, trimSpaceRunes text = Ok segment)
  /\ (forall text,
        content unicode_IsSpace
          (concat (fst (ExtractCompleteSentences text))
           ++ snd (ExtractCompleteSentences text))
        = content unicode_IsSpace text)
  /\ (forall alloc text minLen maxLen isFirst,
        1 <= minLen -> 1 <= maxLen < 2 ^ 62 -> alloc (maxLen * 2) = true ->
        len text <= 2 ^ 62 ->
        exists sentences remaining,
          ExtractSmartSentences alloc text minLen maxLen isFirst
          = Ok (sentences, remaining)).
Proof.
  split; [exact IsNumberWithDot_returns|].
  split; [exact isNumberPrefix_returns|].
  split; [exact findLastPunctuation_returns|].
  split; [intros text; eexists; apply trimSpaceRunes_spec|].
  split.
  - exact ExtractCompleteSentences_content.
  - intros alloc text minLen maxLen isFirst _ Hm Ha Hl.
    destruct (ExtractSmartSentences_returns alloc text minLen maxLen isFirst)
      as [[ss rem] E]; [lia | exact Ha | exact Hl |].
    exists ss, rem. exact E.
Qed.

(** Unbalanced brackets, first pass, window of one rune. *)
Lemma operations_return_witness :
  exists sentences remaining,
    ExtractSmartSentences roomy (str "He said: (hi! [ok") 1 1 true
    = Ok (sentences, remaining).
Proof.
  apply (proj2 (proj2 (proj2 (proj2 (proj2 operations_return))))
           roomy (str "He said: (hi! [ok") 1 1 true).
  - lia.
  - lia.
  - reflexivity.
  - vm_compute; discriminate.
Defined.

(** C9, the claim as stated fails for a large [maxLen]: [2^62 * 2] wraps to
    [-2^63] and [Grow] panics, whatever the runtime provides; with
    [maxLen = 2^50] nothing wraps, and the extraction panics when the
    runtime refuses a buffer of [2^51] bytes. *)
Lemma huge_maxLen_panics :
  1 <= 2 ^ 62 /\ mul64 (2 ^ 62) 2 = - 2 ^ 63
  /\ ExtractSmartSentences roomy (str "a") 1 (2 ^ 62) false = Panic
  /\ 1 <= 2 ^ 50 /\ mul64 (2 ^ 50) 2 = 2 ^ 51
  /\ boundedHeap (2 ^ 51) = false
  /\ ExtractSmartSentences boundedHeap (str "a") 1 (2 ^ 50) false = Panic.
Proof. repeat split; vm_compute; try reflexivity; discriminate. Qed.

(** ** Chunked feeding *)

(** C8, as the code has it: when every chunk but the last is free of
    newlines and does not end in a space or a tab, feeding the chunks one
    by one (each appended to the remainder of the previous call, same
    [minLen], [maxLen] and [isFirst]) emits the sentence sequence of a
    single call on the concatenated text, the runtime providing the buffer
    of [maxLen * 2] bytes of each call. *)
Theorem chunked_feeding_equals_whole alloc chunks minLen maxLen isFirst :
  0 <= maxLen < 2 ^ 62 -> alloc (maxLen * 2) = true ->
  len (concat chunks) < 2 ^ 61 ->
  cleanCuts chunks = true ->
  exists sentences remaining remaining',
    feedChunks alloc minLen maxLen isFirst [] chunks = Ok (sentences, remaining')
    /\ ExtractSmartSentences alloc (concat chunks) minLen maxLen isFirst
       = Ok (sentences, remaining).
Proof.
  intros Hm Ha Hl Hc.
  assert (len (concat chunks) + maxLen <= maxInt64) as Ho
    by (unfold maxInt64; lia).
  destruct (ExtractSmartSentences_runs alloc (concat chunks) minLen maxLen
              isFirst Hm Ha Ho) as ([ss rem] & E & R).
  destruct chunks as [|c rest].
  - exists [], [], []. split; [reflexivity|].
    rewrite E. inversion R; subst; try reflexivity; cbn in *; lia.
  - destruct (feedChunks_whole alloc minLen maxLen isFirst Hm Ha (c :: rest)
                [] [] [])
      as (ss' & rem' & Ef & remT & RT); try assumption; try discriminate.
    + split; [reflexivity|]. split; [reflexivity|]. split; [cbn; lia|].
      intros Y outT out2 R1 R2. cbn [app] in *.
      rewrite (runs_det _ _ _ _ _ _ _ _ R1 _ R2). split; [reflexivity | lia].
    + cbn [app]. unfold maxInt64. lia.
    + cbn [app] in RT.
      pose proof (runs_det _ _ _ _ _ _ _ _ R _ RT) as Eq. inversion Eq; subst.
      exists ss', remT, rem'. split; [exact Ef | exact E].
Qed.

(** "Hi. Hello world. See you " cut inside words and before a space. *)
Lemma chunked_feeding_equals_whole_witness :
  exists sentences remaining remaining',
    feedChunks roomy 5 50 false []
      [str "Hi. Hel"; str "lo wor"; str "ld. See"; str " you "]
    = Ok (sentences, remaining')
    /\ ExtractSmartSentences roomy
         (concat [str "Hi. Hel"; str "lo wor"; str "ld. See"; str " you "])
         5 50 false
       = Ok (sentences, remaining).
Proof.
  apply (chunked_feeding_equals_whole roomy
           [str "Hi. Hel"; str "lo wor"; str "ld. See"; str " you "] 5 50 false).
  - lia.
  - reflexivity.
  - vm_compute; reflexivity.
  - vm_compute; reflexivity.
Defined.

(** C8, the claim as stated fails.  A cut after a space loses the space:
    the remainder is trimmed before the next chunk is appended.  A cut after
    a chunk with a newline changes the window in which the newline is tested
    for a following list item. *)
Lemma cut_after_space_merges_words :
  feedChunks roomy 1 50 false [] [str "Hello "; str "world."]
  = Ok ([str "Helloworld."], [])
  /\ ExtractSmartSentences roomy (concat [str "Hello "; str "world."]) 1 50 false
     = Ok ([str "Hello world."], [])
  /\ feedChunks roomy 1 50 false [] [str "ab" ++ [r_nl] ++ str "1?"; str " x y."]
     = Ok ([str "ab" ++ [r_nl] ++ str "1?"; str "x y."], [])
  /\ ExtractSmartSentences roomy
       (concat [str "ab" ++ [r_nl] ++ str "1?"; str " x y."]) 1 50 false
     = Ok ([str "1?"; str "x y."], str "ab").
Proof. repeat split; vm_compute; reflexivity. Qed.
